(** * Parallel vertex welding: a shallow embedding and its properties

    The development follows [cpp/TriangleMeshPWeld.cpp] (the reducer and the
    two welders), [cpp/TriangleMesh.cpp] / [include/geometry/*.h] (the mesh
    container) and [src/find-eps.cpp] (the epsilon finder).

    - Vertex ids, cluster ids and counters that the program keeps in [int]
      variables and that never leave the range [0 .. numVertices] are natural
      numbers; [remainingSmallerFinalsVec], which goes below zero on purpose,
      is a list of integers.
    - Coordinates are exact rationals ([Qc]); the properties below are those of
      the program "up to floating-point rounding".
    - [std::vector] is a list; [v[i]] is the partial lookup [v !! i], and an
      access outside the vector makes the modelled operation fail ([None]).
    - The OpenMP wave loop is a transition system over the shared arrays in
      which every loop iteration advances by one memory access at a time and
      the iterations interleave arbitrarily (sequentially consistent memory).
      Every execution of the program by any number of threads under any loop
      schedule is one of these interleavings. *)

From Stdlib Require Import ZArith QArith Qcanon Lia Lqa.
From stdpp Require Import base option list gmap.

(** ** Geometry: [Eigen::Vector3d] over exact rationals *)

Module Geometry.

Local Open Scope Qc_scope.

Record Vector3d := mkV { vx : Qc; vy : Qc; vz : Qc }.

Definition vzero : Vector3d := mkV 0 0 0.

Definition vadd (a b : Vector3d) : Vector3d :=
  mkV (vx a + vx b) (vy a + vy b) (vz a + vz b).

(** [k * v] and [v * k] *)
Definition vscale (k : Qc) (a : Vector3d) : Vector3d :=
  mkV (k * vx a) (k * vy a) (k * vz a).

(** [v / k] *)
Definition vdiv (a : Vector3d) (k : Qc) : Vector3d :=
  mkV (vx a / k) (vy a / k) (vz a / k).

(** The value of an [int] counter converted to a floating-point scalar. *)
Definition cnt (n : nat) : Qc := Q2Qc (inject_Z (Z.of_nat n)).

Definition vsum (l : list Vector3d) : Vector3d := foldr vadd vzero l.

(** Arithmetic mean of a non-empty list of positions. *)
Definition vmean (l : list Vector3d) : Vector3d := vdiv (vsum l) (cnt (length l)).

(** Squared Euclidean distance. *)
Definition dist2 (a b : Vector3d) : Qc :=
  (vx a - vx b) * (vx a - vx b) + (vy a - vy b) * (vy a - vy b)
  + (vz a - vz b) * (vz a - vz b).

Definition Qc_leb (a b : Qc) : bool := Qle_bool (this a) (this b).

#[global] Instance Vector3d_eq_dec : EqDecision Vector3d.
Proof.
  intros [a b c] [a' b' c'].
  destruct (Qc_eq_dec a a'); [|right; congruence].
  destruct (Qc_eq_dec b b'); [|right; congruence].
  destruct (Qc_eq_dec c c'); [|right; congruence].
  left; congruence.
Defined.

End Geometry.

Import Geometry.

(** ** The mesh container ([MeshBase] / [TriangleMesh]) *)

Definition Vector3i : Type := (nat * nat * nat)%type.

Record TriangleMesh := mkMesh {
  vertices_ : list Vector3d;
  vertex_normals_ : list Vector3d;
  vertex_colors_ : list Vector3d;
  triangles_ : list Vector3i;
  triangle_normals_ : list Vector3d;
  adjacency_list_ : list (list nat)
}.

(** Every triangle id is a valid vertex id. *)
Definition valid_triangle (n : nat) (t : Vector3i) : Prop :=
  let '(a, b, c) := t in a < n ∧ b < n ∧ c < n.

Definition valid_mesh (m : TriangleMesh) : Prop :=
  Forall (valid_triangle (length (vertices_ m))) (triangles_ m).

(** ** The spatial index ([KDTreeFlann], contract only) *)

Module KDTree.

(** Modelled from the spec: the body of [KDTreeFlann::SearchRadius] is not
    part of the sources.  "All ids within Euclidean distance r of q",
    "distances are Euclidean; the inclusion is closed (≤ r)".  A distance
    is at most [r] exactly when [r] is not negative and the squared distance
    is at most [r * r]. *)
Definition within (r : Qc) (p q : Vector3d) : bool :=
  Qc_leb 0 r && Qc_leb (dist2 p q) (r * r)%Qc.

(** The index is built over the vertex sequence of the mesh. *)
Definition in_radius (points : list Vector3d) (q : Vector3d) (r : Qc)
    (j : nat) : bool :=
  match points !! j with
  | Some p => within r q p
  | None => false
  end.

Definition SearchRadius (points : list Vector3d) (q : Vector3d) (r : Qc)
  : list nat :=
  filter (λ j, in_radius points q r j) (seq 0 (length points)).

(** Modelled from the spec: the body of
    [KDTreeFlann::SearchRadiusSmallerAndBigger] is not part of the sources.
    "Returns the count of neighbors with id ≤ i (including i itself) and the
    ids of neighbors with id > i." *)
Definition SearchRadiusSmallerAndBigger
    (points : list Vector3d) (q : Vector3d) (r : Qc) (currentIdx : nat)
  : Z * list nat :=
  let nb := SearchRadius points q r in
  (Z.of_nat (length (filter (λ j, j ≤ currentIdx) nb)),
   filter (λ j, currentIdx < j) nb).

End KDTree.

(** [KDTreeFlann kdtree( mesh )]: the index built over the vertices of a mesh
    is represented by its point set. *)
Definition KDTreeFlann (geometry : TriangleMesh) : list Vector3d :=
  vertices_ geometry.

(** ** The wave loop of the two welders as a transition system *)

Inductive variant := Forward | ForwardAsync.

(** Control points of one iteration [i] of the [omp for] loop of a wave
    ([merge_vertices_forward] lines 112-144, [merge_vertices_forward_async]
    lines 224-257).  Each constructor stands in front of one access to the
    shared arrays. *)
Inductive pc :=
| Start                                  (* [if( rem[i] < 0 )] *)
| Chk2                                   (* [else if( rem[i] == 0 )] *)
| DecRead                                (* load of [--rem[i]] *)
| DecWrite (r : Z)                       (* store of [--rem[i]] *)
| ReadCent                               (* [isCentroid = (cp_vec[i] == i)] *)
| Count (isC : bool)                     (* [num_discovered_centroids[..] += isCentroid] *)
| Loop (isC : bool) (l : list nat)       (* head of the range-for, [l] still to visit *)
| CasRead (isC : bool) (j : nat) (l : list nat)        (* [expected = cp_vec[j]] *)
| CasTry (isC : bool) (e : nat) (j : nat) (l : list nat) (* compare-and-swap *)
| Flag (isC : bool) (j : nat) (l : list nat)           (* [if( rem[j] >= 1 )] *)
| Faa (isC : bool) (j : nat) (l : list nat)            (* fetch-and-add -1 *)
| Skip.                                  (* [continue], or neither branch taken *)

Definition finished (p : pc) : bool :=
  match p with
  | Skip | Loop _ [] => true
  | _ => false
  end.

Record state := mkState {
  cp_vec : list nat;
  remainingSmallerFinalsVec : list Z;
  should_continue : bool;
  numIterations : nat;
  num_discovered_centroids : list nat;
  pcs : list pc
}.

Definition ints_per_cache_line : nat := 16.

Definition set_pc (i : nat) (p : pc) (s : state) : state :=
  mkState (cp_vec s) (remainingSmallerFinalsVec s) (should_continue s)
          (numIterations s) (num_discovered_centroids s) (<[i:=p]> (pcs s)).

Definition set_rem (j : nat) (r : Z) (s : state) : state :=
  mkState (cp_vec s) (<[j:=r]> (remainingSmallerFinalsVec s)) (should_continue s)
          (numIterations s) (num_discovered_centroids s) (pcs s).

Definition set_cp (j : nat) (c : nat) (s : state) : state :=
  mkState (<[j:=c]> (cp_vec s)) (remainingSmallerFinalsVec s) (should_continue s)
          (numIterations s) (num_discovered_centroids s) (pcs s).

Definition set_flag (b : bool) (s : state) : state :=
  mkState (cp_vec s) (remainingSmallerFinalsVec s) b
          (numIterations s) (num_discovered_centroids s) (pcs s).

Definition set_disc (t : nat) (d : nat) (s : state) : state :=
  mkState (cp_vec s) (remainingSmallerFinalsVec s) (should_continue s)
          (numIterations s) (<[t:=d]> (num_discovered_centroids s)) (pcs s).

Section WaveLoop.

(** Which of the two welders runs, the neighbour lists filled by the
    initialisation loop, and the thread that executes iteration [i] of the
    work-sharing loops ([omp_get_thread_num()]). *)
Variable version : variant.
Variable pid2nnBigger : list (list nat).
Variable thread_of : nat → nat.

(** One step of iteration [i]. *)
Definition step_iter (i : nat) (s : state) : option state :=
  p ← pcs s !! i;
  match p with
  | Start =>
      r ← remainingSmallerFinalsVec s !! i;
      Some (set_pc i (if (r <? 0)%Z then Skip else Chk2) s)
  | Chk2 =>
      r ← remainingSmallerFinalsVec s !! i;
      Some (set_pc i (if (r =? 0)%Z then DecRead else Skip) s)
  | DecRead =>
      r ← remainingSmallerFinalsVec s !! i;
      Some (set_pc i (DecWrite r) s)
  | DecWrite r =>
      Some (set_pc i ReadCent (set_rem i (r - 1)%Z s))
  | ReadCent =>
      c ← cp_vec s !! i;
      inner_vec ← pid2nnBigger !! i;
      let isCentroid := bool_decide (c = i) in
      Some (set_pc i (match version with
                      | Forward => Loop isCentroid inner_vec
                      | ForwardAsync => Count isCentroid
                      end) s)
  | Count isCentroid =>
      let slot := thread_of i * ints_per_cache_line in
      d ← num_discovered_centroids s !! slot;
      inner_vec ← pid2nnBigger !! i;
      Some (set_pc i (Loop isCentroid inner_vec)
              (set_disc slot (d + (if isCentroid then 1 else 0)) s))
  | Loop isCentroid [] => None
  | Loop isCentroid (j :: l) =>
      if isCentroid then
        r ← remainingSmallerFinalsVec s !! j;
        Some (set_pc i (if (0 <? r)%Z then CasRead isCentroid j l
                        else Flag isCentroid j l) s)
      else Some (set_pc i (Flag isCentroid j l) s)
  | CasRead isCentroid j l =>
      expected ← cp_vec s !! j;
      Some (set_pc i (if bool_decide (expected ≤ i) then Flag isCentroid j l
                      else CasTry isCentroid expected j l) s)
  | CasTry isCentroid expected j l =>
      c ← cp_vec s !! j;
      if bool_decide (c = expected)
      then Some (set_pc i (Flag isCentroid j l) (set_cp j i s))
      else Some (set_pc i (CasRead isCentroid j l) s)
  | Flag isCentroid j l =>
      r ← remainingSmallerFinalsVec s !! j;
      Some (set_pc i (Faa isCentroid j l)
              (set_flag (should_continue s || (1 <=? r)%Z) s))
  | Faa isCentroid j l =>
      r ← remainingSmallerFinalsVec s !! j;
      Some (set_pc i (Loop isCentroid l) (set_rem j (r - 1)%Z s))
  | Skip => None
  end.

(** The [while( should_continue )] test together with the barrier and the
    [single] region: taken when every iteration of the previous wave has
    finished. *)
Definition begin_wave (s : state) : state :=
  mkState (cp_vec s) (remainingSmallerFinalsVec s) false
          (S (numIterations s)) (num_discovered_centroids s)
          (replicate (length (pcs s)) Start).

Definition step_wave (s : state) : option state :=
  if forallb finished (pcs s) && should_continue s
  then Some (begin_wave s)
  else None.

Inductive event := Iter (i : nat) | NextWave.

Definition step (e : event) (s : state) : option state :=
  match e with
  | Iter i => step_iter i s
  | NextWave => step_wave s
  end.

Fixpoint exec (sched : list event) (s : state) : option state :=
  match sched with
  | [] => Some s
  | e :: sched' => s' ← step e s; exec sched' s'
  end.

(** The loop has been left: no iteration is running and the flag is off. *)
Definition terminal (s : state) : bool :=
  forallb finished (pcs s) && negb (should_continue s).

End WaveLoop.

(** The initialisation loop (lines 80-87 and 189-199) and the state in which
    the threads reach [while( should_continue )] for the first time. *)
Definition init_bigger (kdtree vertices : list Vector3d) (eps : Qc)
  : list (list nat) :=
  imap (λ i v, snd (KDTree.SearchRadiusSmallerAndBigger kdtree v eps i)) vertices.

Definition init_rem (kdtree vertices : list Vector3d) (eps : Qc) : list Z :=
  imap (λ i v,
          (fst (KDTree.SearchRadiusSmallerAndBigger kdtree v eps i) - 1)%Z)
       vertices.

(** The parent array while the initialisation loop runs: the iterations in
    [done] have stored [cp_vec[i] = i], the other entries still hold the 0 of
    [std::vector<int>( numVertices )]. *)
Definition init_cp_vec (done : nat → bool) (numVertices : nat) : list nat :=
  (λ i, if done i then i else 0) <$> seq 0 numVertices.

Definition init_state (kdtree vertices : list Vector3d) (eps : Qc)
    (num_threads : nat) : state :=
  let numVertices := length vertices in
  mkState (seq 0 numVertices) (init_rem kdtree vertices eps) true 0
          (replicate (ints_per_cache_line * num_threads + 1) 0)
          (replicate numVertices Skip).

(** ** Sequential loops *)

(** [for( int i = 0; i < n; ++i ) body], where the body may fail. *)
Definition for_loop {A : Type} (n : nat) (body : nat → A → option A) (a : A)
  : option A :=
  foldl (λ acc i, acc ≫= body i) (Some a) (seq 0 n).

(** [v[i] = x] on a vector: undefined outside the vector. *)
Definition store {A : Type} (i : nat) (x : A) (v : list A) : option (list A) :=
  if bool_decide (i < length v) then Some (<[i:=x]> v) else None.

(** ** The reducer ([TriangleMeshPWeld::reduce], lines 39-62) *)

Record reduce_state := mkReduce {
  r_pid2ccid : list nat;
  r_new_vertices : list Vector3d;
  r_n_clusters : nat;
  r_num_cluster_members_vec : list nat
}.

Definition reduce_body (vertices : list Vector3d) (cp_vec : list nat)
    (i : nat) (st : reduce_state) : option reduce_state :=
  c ← cp_vec !! i;
  v ← vertices !! i;
  if bool_decide (c = i) then
    pid2ccid ← store i (r_n_clusters st) (r_pid2ccid st);
    Some (mkReduce pid2ccid (r_new_vertices st ++ [v]) (S (r_n_clusters st))
                   (r_num_cluster_members_vec st))
  else
    ccid ← r_pid2ccid st !! c;
    previous_cluster_size ← r_num_cluster_members_vec st !! ccid;
    prev ← r_new_vertices st !! ccid;
    let new :=
      vdiv (vadd v (vscale (cnt previous_cluster_size) prev))
           (cnt previous_cluster_size + 1)%Qc in
    pid2ccid ← store i ccid (r_pid2ccid st);
    Some (mkReduce pid2ccid (<[ccid:=new]> (r_new_vertices st)) (r_n_clusters st)
                   (<[ccid:=S previous_cluster_size]> (r_num_cluster_members_vec st))).

(** [pid2ccid] and [new_vertices] are the two output parameters; the callers
    pass a [pid2ccid] of [num_vertices] elements and an empty [new_vertices]. *)
Definition reduce (vertices : list Vector3d) (pid2ccid : list nat)
    (new_vertices : list Vector3d) (cp_vec : list nat) (num_vertices : nat)
  : option (list nat * list Vector3d) :=
  st ← for_loop num_vertices (reduce_body vertices cp_vec)
        (mkReduce pid2ccid new_vertices 0 (replicate num_vertices 1));
  Some (r_pid2ccid st, r_new_vertices st).

(** ** The synchronous welder ([merge_vertices_forward], lines 64-163) *)

Definition rewrite_triangle (f : nat → option nat) (t : Vector3i)
  : option Vector3i :=
  let '(a, b, c) := t in
  a' ← f a; b' ← f b; c' ← f c; Some (a', b', c').

(** What follows the wave loop: lines 150-162. *)
Definition finish_forward (m : TriangleMesh) (cp : list nat)
  : option (TriangleMesh * list nat) :=
  let numVertices := length (vertices_ m) in
  '(pid2ccid, new_vertices) ←
    reduce (vertices_ m) (replicate numVertices 0) [] cp numVertices;
  triangles ← mapM (rewrite_triangle (λ t, pid2ccid !! t)) (triangles_ m);
  Some (mkMesh new_vertices (vertex_normals_ m) (vertex_colors_ m)
               triangles (triangle_normals_ m) (adjacency_list_ m),
        pid2ccid).

(** The welder under the interleaving [sched] of its wave loop.  The result
    is the mesh after the call together with the local [pid2ccid].  [None]
    when [sched] is not a complete run of the wave loop. *)
Definition merge_vertices_forward_run (m : TriangleMesh)
    (kdtree : list Vector3d) (eps : Qc) (sched : list event)
  : option (TriangleMesh * list nat) :=
  s ← exec Forward (init_bigger kdtree (vertices_ m) eps) (λ _, 0) sched
        (init_state kdtree (vertices_ m) eps 0);
  if terminal s then finish_forward m (cp_vec s) else None.

Definition merge_vertices_forward (m : TriangleMesh)
    (kdtree : list Vector3d) (eps : Qc) (sched : list event)
  : option TriangleMesh :=
  fst <$> merge_vertices_forward_run m kdtree eps sched.

(** ** The asynchronous welder ([merge_vertices_forward_async], lines 165-317) *)

(** [std::exclusive_scan( first, last, first, 0u )] *)
Fixpoint exclusive_scan_from (acc : nat) (l : list nat) : list nat :=
  match l with
  | [] => []
  | x :: l' => acc :: exclusive_scan_from (acc + x) l'
  end.

Definition exclusive_scan (l : list nat) : list nat := exclusive_scan_from 0 l.

Record assign_state := mkAssign {
  a_pid2ccid : list nat;
  a_new_vertices : list Vector3d;
  a_current_vertex_id : list nat     (* one private counter per thread *)
}.

(** Lines 270-286.  Every thread walks its own iterations in ascending order
    with a private [current_vertex_id]; the walk below visits all iterations
    in ascending order and keeps the private counters apart. *)
Definition assign_body (thread_of : nat → nat) (vertices : list Vector3d)
    (cp_vec offsets : list nat) (i : nat) (st : assign_state)
  : option assign_state :=
  c ← cp_vec !! i;
  if bool_decide (c = i) then
    let th_id := thread_of i in
    offset ← offsets !! (th_id * ints_per_cache_line);
    cur ← a_current_vertex_id st !! th_id;
    v ← vertices !! i;
    let ccid := offset + cur in
    new_vertices ← store ccid v (a_new_vertices st);
    pid2ccid ← store i ccid (a_pid2ccid st);
    Some (mkAssign pid2ccid new_vertices (<[th_id:=S cur]> (a_current_vertex_id st)))
  else Some st.

(** Lines 293-303, the serial pass over the followers. *)
Definition follower_body (vertices : list Vector3d) (cp_vec pid2ccid : list nat)
    (i : nat) (st : list Vector3d * list nat) : option (list Vector3d * list nat) :=
  let '(new_vertices, num_cluster_members_vec) := st in
  c ← cp_vec !! i;
  if bool_decide (c ≠ i) then
    ccid ← pid2ccid !! c;
    prev ← new_vertices !! ccid;
    n ← num_cluster_members_vec !! ccid;
    v ← vertices !! i;
    let new := vdiv (vadd (vscale (cnt n) prev) v) (cnt (n + 1)) in
    Some (<[ccid:=new]> new_vertices, <[ccid:=S n]> num_cluster_members_vec)
  else Some st.

(** What follows the wave loop: lines 264-314.  The loop that numbers the
    centroids is shared among the threads like the loop of a wave
    ([thread_of], the default static schedule).  The [single nowait] pass over
    the followers and the triangle loop may overlap in time; the first
    writes [new_vertices] and [num_cluster_members_vec], the second writes
    [triangles_], and both only read [cp_vec] and [pid2ccid], so they are run
    here one after the other. *)
Definition finish_forward_async (thread_of : nat → nat) (num_threads : nat)
    (m : TriangleMesh) (s : state) : option (TriangleMesh * list nat) :=
  let numVertices := length (vertices_ m) in
  let cp := cp_vec s in
  let offsets := exclusive_scan (num_discovered_centroids s) in
  num_clusters ← offsets !! (num_threads * ints_per_cache_line);
  a ← for_loop numVertices (assign_body thread_of (vertices_ m) cp offsets)
        (mkAssign (replicate numVertices 0) (replicate num_clusters vzero)
                  (replicate num_threads 0));
  '(new_vertices, _) ←
    for_loop numVertices (follower_body (vertices_ m) cp (a_pid2ccid a))
      (a_new_vertices a, replicate num_clusters 1);
  triangles ←
    mapM (rewrite_triangle (λ t, cp !! t ≫= λ c, a_pid2ccid a !! c))
         (triangles_ m);
  Some (mkMesh new_vertices (vertex_normals_ m) (vertex_colors_ m)
               triangles (triangle_normals_ m) (adjacency_list_ m),
        a_pid2ccid a).

Definition merge_vertices_forward_async_run (thread_of : nat → nat)
    (num_threads : nat) (m : TriangleMesh)
    (kdtree : list Vector3d) (eps : Qc) (sched : list event)
  : option (TriangleMesh * list nat) :=
  s ← exec ForwardAsync (init_bigger kdtree (vertices_ m) eps) thread_of sched
        (init_state kdtree (vertices_ m) eps num_threads);
  if terminal s then finish_forward_async thread_of num_threads m s else None.

Definition merge_vertices_forward_async (thread_of : nat → nat)
    (num_threads : nat) (m : TriangleMesh)
    (kdtree : list Vector3d) (eps : Qc) (sched : list event)
  : option TriangleMesh :=
  fst <$> merge_vertices_forward_async_run thread_of num_threads m kdtree eps sched.

(** ** The single-threaded schedule *)

(** With one thread the iterations of a wave run one after the other in
    ascending order. *)
Fixpoint first_unfinished (i : nat) (l : list pc) : option nat :=
  match l with
  | [] => None
  | p :: l' => if finished p then first_unfinished (S i) l' else Some i
  end.

Definition next_event (s : state) : option event :=
  match first_unfinished 0 (pcs s) with
  | Some i => Some (Iter i)
  | None => if should_continue s then Some NextWave else None
  end.

Fixpoint sequential_schedule (version : variant) (bigger : list (list nat))
    (thread_of : nat → nat) (fuel : nat) (s : state) : list event :=
  match fuel with
  | 0 => []
  | S fuel' =>
      match next_event s with
      | Some e =>
          match step version bigger thread_of e s with
          | Some s' => e :: sequential_schedule version bigger thread_of fuel' s'
          | None => []
          end
      | None => []
      end
  end.

Definition one_thread_forward (m : TriangleMesh) (eps : Qc) (fuel : nat)
  : list event :=
  sequential_schedule Forward (init_bigger (KDTreeFlann m) (vertices_ m) eps)
    (λ _, 0) fuel (init_state (KDTreeFlann m) (vertices_ m) eps 0).

Definition one_thread_async (m : TriangleMesh) (eps : Qc) (fuel : nat)
  : list event :=
  sequential_schedule ForwardAsync (init_bigger (KDTreeFlann m) (vertices_ m) eps)
    (λ _, 0) fuel (init_state (KDTreeFlann m) (vertices_ m) eps 1).

Definition point (x y z : Z) : Vector3d :=
  mkV (Q2Qc (inject_Z x)) (Q2Qc (inject_Z y)) (Q2Qc (inject_Z z)).

Definition bare_mesh (vs : list Vector3d) (ts : list Vector3i) : TriangleMesh :=
  mkMesh vs [] [] ts [] [].

Definition collinear3 : TriangleMesh :=
  bare_mesh [point 0 0 0; point 1 0 0; point 2 0 0] [(0, 1, 2)].


(** ** The epsilon finder ([src/find-eps.cpp]) *)

Module FindEps.

Local Open Scope Qc_scope.

Definition EPSILON_STEP_SIZE : Qc := Q2Qc (1 # 100).
Definition REDUCTION_RATE_MIN_ERROR : Qc := Q2Qc (1 # 100000).
Definition EPSILON_MIN_RANGE : Qc := Q2Qc (1 # 10000000).
Definition max_epsilon_searched : Qc := Q2Qc 10.

Record BinarySearchVals := mkVals {
  epsilon_min_boundary : Qc;
  epsilon_max_boundary : Qc;
  reduction_rate_on_min_boundary : Qc;
  reduction_rate_on_max_boundary : Qc
}.

(** How a call ends: with a value, in the failing [assert] of line 198, or
    with the recursion budget of the model used up. *)
Inductive outcome (A : Type) :=
| Returned (a : A)
| AssertionFailed
| OutOfFuel.
Arguments Returned {A} a.
Arguments AssertionFailed {A}.
Arguments OutOfFuel {A}.

Definition Qc_ltb (a b : Qc) : bool := negb (Qc_leb b a).

Section Finder.

(** [get_reduction_rate( kdtree, mesh, epsilon )] for the index and the mesh
    at hand: the welder, used as an oracle. *)
Variable get_reduction_rate : Qc → Qc.

(** The [for] loop of lines 182-196. *)
Fixpoint linear_search_loop (fuel : nat) (target_reduction_rate : Qc)
    (epsilon prev_reduction_rate : Qc) : outcome BinarySearchVals :=
  match fuel with
  | 0 => OutOfFuel
  | S fuel' =>
      if Qc_ltb epsilon max_epsilon_searched then
        let reduction_rate := get_reduction_rate epsilon in
        if Qc_leb target_reduction_rate reduction_rate then
          Returned (mkVals (epsilon - EPSILON_STEP_SIZE) epsilon
                           prev_reduction_rate reduction_rate)
        else
          linear_search_loop fuel' target_reduction_rate
            (epsilon + EPSILON_STEP_SIZE) reduction_rate
      else AssertionFailed
  end.

Definition find_epsilon_range_by_linear_search (target_reduction_rate : Qc)
  : outcome BinarySearchVals :=
  linear_search_loop 1000 target_reduction_rate EPSILON_STEP_SIZE 0.

(** Lines 93-165. *)
Fixpoint find_epsilon_binary_search (fuel : nat) (target_reduction_rate : Qc)
    (boundary_data : BinarySearchVals) : outcome Qc :=
  match fuel with
  | 0 => OutOfFuel
  | S fuel' =>
      let range :=
        epsilon_max_boundary boundary_data - epsilon_min_boundary boundary_data in
      let epsilon_midpoint := epsilon_min_boundary boundary_data + range / Q2Qc 2 in
      if Qc_leb (epsilon_max_boundary boundary_data
                 - epsilon_min_boundary boundary_data) EPSILON_MIN_RANGE
      then Returned epsilon_midpoint
      else if Qc_ltb (reduction_rate_on_max_boundary boundary_data
                      - reduction_rate_on_min_boundary boundary_data)
                     REDUCTION_RATE_MIN_ERROR
      then Returned epsilon_midpoint
      else
        let reduction_rate_on_midpoint := get_reduction_rate epsilon_midpoint in
        if Qc_leb reduction_rate_on_midpoint target_reduction_rate then
          if Qc_ltb (target_reduction_rate - reduction_rate_on_midpoint)
                    REDUCTION_RATE_MIN_ERROR
          then Returned epsilon_midpoint
          else find_epsilon_binary_search fuel' target_reduction_rate
                 (mkVals epsilon_midpoint (epsilon_max_boundary boundary_data)
                         reduction_rate_on_midpoint
                         (reduction_rate_on_max_boundary boundary_data))
        else
          if Qc_ltb (reduction_rate_on_midpoint - target_reduction_rate)
                    REDUCTION_RATE_MIN_ERROR
          then Returned epsilon_midpoint
          else find_epsilon_binary_search fuel' target_reduction_rate
                 (mkVals (epsilon_min_boundary boundary_data) epsilon_midpoint
                         (reduction_rate_on_min_boundary boundary_data)
                         reduction_rate_on_midpoint)
  end.

(** Lines 203-220: the argument is evaluated first, so a failed assertion in
    the bracket phase ends the program before any epsilon is produced. *)
Definition find_epsilon (reduction_rate : Qc) : outcome Qc :=
  match find_epsilon_range_by_linear_search reduction_rate with
  | Returned boundary_data =>
      find_epsilon_binary_search 64 reduction_rate boundary_data
  | AssertionFailed => AssertionFailed
  | OutOfFuel => OutOfFuel
  end.

End Finder.

End FindEps.

(** ** The sequential welder of Open3D ([TriangleMesh::MergeCloseVertices],
    [cpp/TriangleMesh.cpp] lines 96-138) *)

(** [for( x : l ) body], where the body may fail. *)
Definition for_each {A B : Type} (l : list B) (body : B → A → option A) (a : A)
  : option A :=
  foldl (λ acc x, acc ≫= body x) (Some a) l.

Record merge_state := mkMergeState {
  mc_new_vertices : list Vector3d;
  mc_new_vert_mapping : gmap nat nat      (* [std::unordered_map<int, int>] *)
}.

(** Lines 120-125, one neighbour [nb] of [vidx]. *)
Definition claim_body (vertices : list Vector3d) (vidx new_vidx nb : nat)
    (st : Vector3d * nat * gmap nat nat)
  : option (Vector3d * nat * gmap nat nat) :=
  let '(vertex, n, new_vert_mapping) := st in
  if bool_decide (vidx = nb) || bool_decide (is_Some (new_vert_mapping !! nb))
  then Some st
  else
    v ← vertices !! nb;
    Some (vadd vertex v, S n, <[nb:=new_vidx]> new_vert_mapping).

(** Lines 110-127, one vertex [vidx]. *)
Definition merge_body (vertices : list Vector3d) (nbs : list (list nat))
    (vidx : nat) (st : merge_state) : option merge_state :=
  if bool_decide (is_Some (mc_new_vert_mapping st !! vidx)) then Some st
  else
    let new_vidx := length (mc_new_vertices st) in
    let new_vert_mapping := <[vidx:=new_vidx]> (mc_new_vert_mapping st) in
    vertex ← vertices !! vidx;
    nb_list ← nbs !! vidx;
    '(vertex, n, new_vert_mapping) ←
      for_each nb_list (claim_body vertices vidx new_vidx)
        (vertex, 1, new_vert_mapping);
    Some (mkMergeState (mc_new_vertices st ++ [vdiv vertex (cnt n)])
                       new_vert_mapping).

(** Lines 106-137, for the neighbour lists [nbs] that the searches of lines
    98-104 have returned.  [new_vert_mapping[t]] on a key that is not in the
    map yields 0. *)
Definition MergeCloseVertices_from (m : TriangleMesh) (nbs : list (list nat))
  : option TriangleMesh :=
  st ← for_loop (length (vertices_ m)) (merge_body (vertices_ m) nbs)
         (mkMergeState [] ∅);
  let new_id (t : nat) := default 0 (mc_new_vert_mapping st !! t) in
  Some (mkMesh (mc_new_vertices st) (vertex_normals_ m) (vertex_colors_ m)
               ((λ t : Vector3i, let '(a, b, c) := t in
                                 (new_id a, new_id b, new_id c))
                  <$> triangles_ m)
               (triangle_normals_ m) (adjacency_list_ m)).

Definition MergeCloseVertices (m : TriangleMesh) (kdtree : list Vector3d)
    (eps : Qc) : option TriangleMesh :=
  MergeCloseVertices_from m
    ((λ v, KDTree.SearchRadius kdtree v eps) <$> vertices_ m).

(* ------------------------------------------------------------------ *)

(** ** The reduction rate ([get_reduction_rate], [src/find-eps.cpp] lines
    74-84) *)

(** The [double] that the division of line 83 yields. *)
Inductive ReductionRate :=
| Finite (q : Qc)
| Infinity
| NaN.

(** [a - b] on [std::size_t], taken to be 64 bits wide. *)
Definition size_t_sub (a b : nat) : Z :=
  ((Z.of_nat a - Z.of_nat b) mod 2 ^ 64)%Z.

(** The mesh is passed by value; [sched] is the interleaving of the wave loop
    of the welder that the call runs. *)
Definition get_reduction_rate (kdtree : list Vector3d) (mesh : TriangleMesh)
    (epsilon : Qc) (sched : list event) : option ReductionRate :=
  let initial_vertex_count := length (vertices_ mesh) in
  mesh' ← merge_vertices_forward mesh kdtree epsilon sched;
  let difference := size_t_sub initial_vertex_count (length (vertices_ mesh')) in
  Some (if bool_decide (initial_vertex_count = 0)
        then if bool_decide (difference = 0%Z) then NaN else Infinity
        else Finite (Q2Qc (inject_Z difference) / cnt initial_vertex_count)%Qc).

(** ** The adjacency list ([TriangleMesh::ComputeAdjacencyList],
    [cpp/TriangleMesh.cpp] lines 82-94) *)

(** [s.insert( x )] on a [std::unordered_set<int>].  A set is held as a list
    without duplicates; the order of the list stands for nothing. *)
Definition set_insert (x : nat) (s : list nat) : list nat :=
  if bool_decide (x ∈ s) then s else x :: s.

(** [adjacency_list_[a].insert( b )]: undefined outside the vector. *)
Definition adjacency_insert (a b : nat) (adjacency_list : list (list nat))
  : option (list (list nat)) :=
  s ← adjacency_list !! a;
  Some (<[a:=set_insert b s]> adjacency_list).

(** Lines 86-91, one triangle. *)
Definition adjacency_body (triangle : Vector3i) (adjacency_list : list (list nat))
  : option (list (list nat)) :=
  let '(t0, t1, t2) := triangle in
  adjacency_list ← adjacency_insert t0 t1 adjacency_list;
  adjacency_list ← adjacency_insert t0 t2 adjacency_list;
  adjacency_list ← adjacency_insert t1 t0 adjacency_list;
  adjacency_list ← adjacency_insert t1 t2 adjacency_list;
  adjacency_list ← adjacency_insert t2 t0 adjacency_list;
  adjacency_insert t2 t1 adjacency_list.

Definition ComputeAdjacencyList (m : TriangleMesh) : option TriangleMesh :=
  adjacency_list ←
    for_each (triangles_ m) adjacency_body (replicate (length (vertices_ m)) []);
  Some (mkMesh (vertices_ m) (vertex_normals_ m) (vertex_colors_ m)
               (triangles_ m) (triangle_normals_ m) adjacency_list).

(** ** Normals ([TriangleMesh::ComputeTriangleNormals] and
    [TriangleMesh::ComputeVertexNormals], [cpp/TriangleMesh.cpp] lines 52-80) *)

Definition vsub (a b : Vector3d) : Vector3d :=
  mkV (vx a - vx b)%Qc (vy a - vy b)%Qc (vz a - vz b)%Qc.

Definition cross (a b : Vector3d) : Vector3d :=
  mkV (vy a * vz b - vz a * vy b)%Qc
      (vz a * vx b - vx a * vz b)%Qc
      (vx a * vy b - vy a * vx b)%Qc.

Definition dot (a b : Vector3d) : Qc :=
  (vx a * vx b + vy a * vy b + vz a * vz b)%Qc.

Section Normals.

(** [NormalizeNormals] takes square roots and calls
    [MeshBase::NormalizeNormals], which is not among the sources: it is a
    parameter of the two functions. *)
Variable NormalizeNormals : TriangleMesh → TriangleMesh.

(** What the entries hold that [triangle_normals_.resize( n )] appends: the
    default constructor of [Eigen::Vector3d] does not initialise. *)
Variable uninitialised : Vector3d.

(** Lines 56-59, one triangle. *)
Definition triangle_normal_body (m : TriangleMesh) (i : nat)
    (triangle_normals : list Vector3d) : option (list Vector3d) :=
  triangle ← triangles_ m !! i;
  let '(t0, t1, t2) := triangle in
  p0 ← vertices_ m !! t0;
  p1 ← vertices_ m !! t1;
  p2 ← vertices_ m !! t2;
  let v01 := vsub p1 p0 in
  let v02 := vsub p2 p0 in
  store i (cross v01 v02) triangle_normals.

Definition ComputeTriangleNormals (normalized : bool) (m : TriangleMesh)
  : option TriangleMesh :=
  let n := length (triangles_ m) in
  triangle_normals ←
    for_loop n (triangle_normal_body m)
      (resize n uninitialised (triangle_normals_ m));
  let m' := mkMesh (vertices_ m) (vertex_normals_ m) (vertex_colors_ m)
                   (triangles_ m) triangle_normals (adjacency_list_ m) in
  Some (if normalized then NormalizeNormals m' else m').

(** [vertex_normals_[j] += n]: undefined outside the vector. *)
Definition add_normal (j : nat) (n : Vector3d) (vertex_normals : list Vector3d)
  : option (list Vector3d) :=
  x ← vertex_normals !! j;
  Some (<[j:=vadd x n]> vertex_normals).

(** Lines 70-75, one triangle. *)
Definition vertex_normal_body (m : TriangleMesh) (i : nat)
    (vertex_normals : list Vector3d) : option (list Vector3d) :=
  triangle ← triangles_ m !! i;
  let '(t0, t1, t2) := triangle in
  n ← triangle_normals_ m !! i;
  vertex_normals ← add_normal t0 n vertex_normals;
  vertex_normals ← add_normal t1 n vertex_normals;
  add_normal t2 n vertex_normals.

Definition ComputeVertexNormals (normalized : bool) (m : TriangleMesh)
  : option TriangleMesh :=
  m1 ← ComputeTriangleNormals false m;
  vertex_normals ←
    for_loop (length (triangles_ m1)) (vertex_normal_body m1)
      (resize (length (vertices_ m1)) vzero (vertex_normals_ m1));
  let m2 := mkMesh (vertices_ m1) vertex_normals (vertex_colors_ m1)
                   (triangles_ m1) (triangle_normals_ m1) (adjacency_list_ m1) in
  Some (if normalized then NormalizeNormals m2 else m2).

End Normals.

(** ** The driver ([main], [src/main.cpp] lines 42-105) *)

Inductive Version := OPEN3D | FORWARD | FORWARD_ASYNC.

(** [programName[version]] of line 64 and [(Version)version] of line 82: the
    array has the three entries of the enumeration, and is read out of its
    bounds for every other integer. *)
Definition Version_of (version : Z) : option Version :=
  match version with
  | 0%Z => Some OPEN3D
  | 1%Z => Some FORWARD
  | 2%Z => Some FORWARD_ASYNC
  | _ => None
  end.

(** [TriangleMeshPWeld( triangle_mesh )] ([TriangleMeshPWeld.h]): the vertices
    and the triangles are handed to the constructor of the base class.  The
    other members do not matter to what follows. *)
Definition TriangleMeshPWeld (triangle_mesh : TriangleMesh) : TriangleMesh :=
  bare_mesh (vertices_ triangle_mesh) (triangles_ triangle_mesh).

(** Lines 64-96 for the mesh that has been read: the value of
    [num_vertices_after_reduction].  [sched] is the interleaving of the wave
    loop, [thread_of] the assignment of iterations to the [numCores]
    threads. *)
Definition main (eps : Qc) (version : Z) (mesh : TriangleMesh)
    (thread_of : nat → nat) (numCores : nat) (sched : list event) : option nat :=
  v ← Version_of version;
  let kdtree := KDTreeFlann mesh in
  let mesh_pweld := TriangleMeshPWeld mesh in
  mesh_pweld ←
    match v with
    | OPEN3D => MergeCloseVertices mesh_pweld kdtree eps
    | FORWARD => merge_vertices_forward mesh_pweld kdtree eps sched
    | FORWARD_ASYNC =>
        merge_vertices_forward_async thread_of numCores mesh_pweld kdtree eps sched
    end;
  Some (length (vertices_ mesh_pweld)).

(** * Properties *)

(** ** Exact vector arithmetic *)

Section VectorFacts.
Local Open Scope Qc_scope.

Lemma cnt_S n : cnt (S n) = cnt n + 1.
Proof.
  unfold cnt. apply Qc_is_canon. simpl.
  rewrite !Qred_correct, Nat2Z.inj_succ. unfold Z.succ.
  rewrite inject_Z_plus. reflexivity.
Qed.

Lemma cnt_0 : cnt 0 = 0.
Proof. apply Qc_is_canon. reflexivity. Qed.

Lemma cnt_1 : cnt 1 = 1.
Proof. apply Qc_is_canon. reflexivity. Qed.

Lemma cnt_nonneg n : 0 <= cnt n.
Proof.
  induction n as [|n IH]; [rewrite cnt_0; apply Qcle_refl|].
  rewrite cnt_S. apply Qcplus_nonneg_nonneg; [done|]. by compute.
Qed.

Lemma cnt_succ_neq_0 n : cnt n + 1 ≠ 0.
Proof.
  intros H. assert (0 < cnt n + 1) as Hlt.
  { apply Qcplus_nonneg_pos; [apply cnt_nonneg|by compute]. }
  rewrite H in Hlt. by compute in Hlt.
Qed.

Lemma vadd_comm a b : vadd a b = vadd b a.
Proof. unfold vadd. f_equal; ring. Qed.

Lemma vadd_assoc a b c : vadd a (vadd b c) = vadd (vadd a b) c.
Proof. unfold vadd; simpl. f_equal; ring. Qed.

Lemma vadd_zero_r a : vadd a vzero = a.
Proof. destruct a. unfold vadd; simpl. f_equal; ring. Qed.

Lemma vsum_snoc l v : vsum (l ++ [v]) = vadd (vsum l) v.
Proof.
  induction l as [|a l IH]; simpl.
  - by rewrite vadd_comm.
  - unfold vsum in *. simpl. rewrite foldr_app. simpl.
    change (foldr vadd (vadd v vzero) l) with (foldr vadd (foldr vadd vzero [v]) l).
    rewrite <- foldr_app, IH. by rewrite vadd_assoc.
Qed.

Lemma vmean_singleton v : vmean [v] = v.
Proof.
  unfold vmean. simpl. rewrite cnt_1, vadd_zero_r. destruct v.
  unfold vdiv; simpl. f_equal; field; discriminate.
Qed.

(** The running mean of line 58 keeps the mean of the members seen so far. *)
Lemma running_mean l v :
  l ≠ [] →
  vdiv (vadd v (vscale (cnt (length l)) (vmean l))) (cnt (length l) + 1)
  = vmean (l ++ [v]).
Proof.
  intros Hl. unfold vmean. rewrite vsum_snoc, length_app. simpl.
  rewrite Nat.add_1_r, cnt_S.
  assert (cnt (length l) ≠ 0) as Hn.
  { destruct l; [done|]. simpl. rewrite cnt_S. apply cnt_succ_neq_0. }
  pose proof (cnt_succ_neq_0 (length l)).
  destruct (vsum l), v. unfold vdiv, vadd, vscale; simpl. f_equal; field; done.
Qed.

(** The same update as the asynchronous welder writes it (lines 298-300). *)
Lemma running_mean_async l v :
  l ≠ [] →
  vdiv (vadd (vscale (cnt (length l)) (vmean l)) v) (cnt (length l + 1))
  = vmean (l ++ [v]).
Proof.
  intros Hl. rewrite <- running_mean by done.
  rewrite Nat.add_1_r, cnt_S. by rewrite vadd_comm.
Qed.
End VectorFacts.

(** ** Executions *)

Section Executions.

Variable version : variant.
Variable pid2nnBigger : list (list nat).
Variable thread_of : nat → nat.

Local Abbreviation step := (step version pid2nnBigger thread_of).
Local Abbreviation exec := (exec version pid2nnBigger thread_of).

Lemma exec_app sched1 sched2 s :
  exec (sched1 ++ sched2) s = exec sched1 s ≫= exec sched2.
Proof.
  revert s. induction sched1 as [|e sched1 IH]; intros s; simpl; [done|].
  destruct (step e s) as [s'|]; simpl; [apply IH|done].
Qed.

Lemma exec_snoc sched e s s' :
  exec (sched ++ [e]) s = Some s' ↔
  ∃ s1, exec sched s = Some s1 ∧ step e s1 = Some s'.
Proof.
  rewrite exec_app. split.
  - intros H. destruct (exec sched s) as [s1|]; simpl in H; [|done].
    exists s1. split; [done|]. destruct (step e s1); simpl in *; done.
  - intros (s1 & -> & H). simpl. by rewrite H.
Qed.

(** Invariants are proved by induction on the schedule. *)
Lemma exec_invariant (P : state → Prop) s0 :
  P s0 →
  (∀ e s s', P s → step e s = Some s' → P s') →
  ∀ sched s, exec sched s0 = Some s → P s.
Proof.
  intros H0 Hstep sched. induction sched as [|e sched IH] using rev_ind.
  - intros s [= <-]. done.
  - intros s (s1 & H1 & H2)%exec_snoc. eauto.
Qed.

End Executions.

(** Projections of the state updates. *)
Ltac unfold_sets :=
  unfold set_pc, set_rem, set_cp, set_flag, set_disc in *; simpl in *.

(** Case analysis on a step of iteration [i]: one goal per control point and
    per outcome of the test made there. *)
Ltac step_iter_cases H :=
  unfold step_iter in H;
  match type of H with
  | (?o ≫= _) = Some _ =>
      let p := fresh "p" in
      let Hp := fresh "Hpc" in
      destruct o as [p|] eqn:Hp; simpl in H; [|discriminate H];
      destruct p as [| | |?r| |?isC|?isC [|?j ?l]|?isC ?j ?l|?isC ?e ?j ?l
                     |?isC ?j ?l|?isC ?j ?l|];
      try discriminate H;
      repeat match type of H with
        | (?o' ≫= _) = Some _ =>
            let x := fresh "x" in
            let Hx := fresh "Hrd" in
            destruct o' as [x|] eqn:Hx; simpl in H; [|discriminate H]
        | (if ?b then _ else _) = Some _ =>
            let Hb := fresh "Hb" in
            destruct b eqn:Hb
        | (match ?v with Forward => _ | ForwardAsync => _ end) = _ => destruct v
        end;
      try discriminate H;
      injection H as H; subst
  end.

(** Iteration [i] has seen [rem[i] == 0] in this wave. *)
Definition activated (p : pc) : bool :=
  match p with
  | Start | Chk2 | Skip => false
  | _ => true
  end.

(** Iteration [i] has stored [--rem[i]] in this wave. *)
Definition emitted (p : pc) : bool :=
  match p with
  | Start | Chk2 | Skip | DecRead | DecWrite _ => false
  | _ => true
  end.

Ltac inv_lookup :=
  repeat match goal with
    | H : <[_:=_]> _ !! _ = Some _ |- _ =>
        apply list_lookup_insert_Some in H;
        destruct H as [(? & ? & ?)|(? & ?)]
    end; simplify_eq.

Ltac bool_facts :=
  repeat match goal with
    | H : (_ <? _)%Z = true |- _ => apply Z.ltb_lt in H
    | H : (_ <? _)%Z = false |- _ => apply Z.ltb_ge in H
    | H : (_ <=? _)%Z = true |- _ => apply Z.leb_le in H
    | H : (_ <=? _)%Z = false |- _ => apply Z.leb_gt in H
    | H : (_ =? _)%Z = true |- _ => apply Z.eqb_eq in H
    | H : (_ =? _)%Z = false |- _ => apply Z.eqb_neq in H
    | H : bool_decide _ = true |- _ => apply bool_decide_eq_true in H
    | H : bool_decide _ = false |- _ => apply bool_decide_eq_false in H
    end.

Section StepFacts.

Variable version : variant.
Variable pid2nnBigger : list (list nat).
Variable thread_of : nat → nat.

Local Abbreviation step_iter := (step_iter version pid2nnBigger thread_of).

(** A step of iteration [i] moves the control point of [i] only, and keeps
    the sizes of the arrays. *)
Lemma step_iter_pcs i s s' :
  step_iter i s = Some s' →
  ∃ p p', pcs s !! i = Some p ∧ finished p = false ∧ pcs s' = <[i:=p']> (pcs s)
          ∧ (activated p = true → activated p' = true)
          ∧ (emitted p = true → emitted p' = true).
Proof.
  intros H. step_iter_cases H; unfold_sets; eexists _, _;
    (split; [done|]); (split; [done|]); (split; [done|]);
    repeat case_match; done.
Qed.

Lemma step_iter_other i k s s' :
  step_iter i s = Some s' → k ≠ i → pcs s' !! k = pcs s !! k.
Proof.
  intros (p & p' & _ & _ & -> & _)%step_iter_pcs Hk.
  by rewrite list_lookup_insert_ne.
Qed.

Lemma step_iter_lengths i s s' :
  step_iter i s = Some s' →
  length (cp_vec s') = length (cp_vec s)
  ∧ length (remainingSmallerFinalsVec s') = length (remainingSmallerFinalsVec s)
  ∧ length (pcs s') = length (pcs s)
  ∧ length (num_discovered_centroids s') = length (num_discovered_centroids s)
  ∧ numIterations s' = numIterations s.
Proof.
  intros H. step_iter_cases H; unfold_sets; rewrite ?length_insert; done.
Qed.

Lemma step_iter_activated i k p s s' :
  step_iter i s = Some s' → pcs s !! k = Some p → activated p = true →
  ∃ p', pcs s' !! k = Some p' ∧ activated p' = true.
Proof.
  intros Hs Hk Hp. destruct (decide (k = i)) as [->|Hne].
  - destruct (step_iter_pcs _ _ _ Hs) as (q & q' & Hq & _ & -> & Ha & _).
    exists q'. rewrite list_lookup_insert_eq by by eapply lookup_lt_Some.
    split; [done|]. apply Ha. congruence.
  - exists p. by rewrite (step_iter_other _ _ _ _ Hs Hne).
Qed.

(** The flag is only ever raised inside a wave, by an iteration that has
    become an active source. *)
Lemma step_iter_flag i s s' :
  step_iter i s = Some s' → should_continue s' = true →
  should_continue s = true ∨ ∃ p, pcs s' !! i = Some p ∧ activated p = true.
Proof.
  intros H. step_iter_cases H; unfold_sets; eauto.
  intros _. right. eexists. rewrite list_lookup_insert_eq by by eapply lookup_lt_Some.
  done.
Qed.

End StepFacts.

Section BasicInvariant.

Variable version : variant.
Variable pid2nnBigger : list (list nat).
Variable thread_of : nat → nat.

Local Abbreviation step := (step version pid2nnBigger thread_of).
Local Abbreviation exec := (exec version pid2nnBigger thread_of).

(** Facts that hold for every spatial index, whatever it returned. *)
Record basic_inv (s : state) : Prop := {
  bi_len_rem : length (remainingSmallerFinalsVec s) = length (cp_vec s);
  bi_len_pcs : length (pcs s) = length (cp_vec s);
  bi_parent : ∀ j c, cp_vec s !! j = Some c → c ≤ j;
  bi_cas : ∀ i isC e j l, pcs s !! i = Some (CasTry isC e j l) →
           i < e ∧ ∃ c, cp_vec s !! j = Some c ∧ c ≤ e;
  bi_decread : ∀ i r, pcs s !! i = Some DecRead →
           remainingSmallerFinalsVec s !! i = Some r → (r ≤ 0)%Z;
  bi_decwrite : ∀ i r, pcs s !! i = Some (DecWrite r) → (r ≤ 0)%Z;
  bi_emitted : ∀ i p r, pcs s !! i = Some p → emitted p = true →
           remainingSmallerFinalsVec s !! i = Some r → (r < 0)%Z;
  bi_flag : should_continue s = true →
           numIterations s = 0 ∨ ∃ i p, pcs s !! i = Some p ∧ activated p = true
}.

Lemma basic_inv_step e s s' :
  basic_inv s → step e s = Some s' → basic_inv s'.
Proof.
  intros [Hlr Hlp Hpar Hcas Hdr Hdw Hem Hfl] Hstep.
  destruct e as [i|]; simpl in Hstep.
  - split.
    8:{ intros Hf. destruct (step_iter_flag _ _ _ _ _ _ Hstep Hf) as [Hf'|[p Hp]];
          [|by eauto].
        destruct (Hfl Hf') as [H0|(k & p & Hk & Hp)].
        - left. destruct (step_iter_lengths _ _ _ _ _ _ Hstep) as (_&_&_&_&->). done.
        - right. destruct (step_iter_activated _ _ _ _ _ _ _ _ Hstep Hk Hp) as (p' & ? & ?).
          eauto. }
    all: step_iter_cases Hstep.
    all: unfold_sets; rewrite ?length_insert; try done.
    all: intros; inv_lookup; eauto.
    all: repeat case_match; simplify_eq; bool_facts; try lia; eauto.
    all: try (edestruct Hcas as (? & ? & ? & ?); [eassumption|]).
    all: try (match goal with H : pcs _ !! _ = Some (DecWrite _) |- _ =>
                pose proof (Hdw _ _ H) end).
    all: try (match goal with
              | H : pcs _ !! ?i = Some ?p, H' : remainingSmallerFinalsVec _ !! ?i = Some _ |- _ =>
                pose proof (Hem _ _ _ H eq_refl H') end).
    all: try (match goal with
              | H : pcs _ !! ?i = Some ?p, H' : remainingSmallerFinalsVec _ !! ?i = Some _ |- _ =>
                pose proof (Hdr _ _ H H') end).
    all: simplify_eq; try lia.
    all: try (split; [lia|]).
    all: try (eexists; split; [eassumption|lia]).
    + apply Hpar in Hrd. lia.
    + destruct (decide (j = j0)) as [->|Hne].
      * exists i. rewrite list_lookup_insert_eq by by eapply lookup_lt_Some.
        split; [done|]. edestruct (Hcas i) as (? & ? & ? & ?); [done|].
        simplify_eq. lia.
      * rewrite list_lookup_insert_ne by done. eauto.
    + match goal with
      | H : pcs _ !! ?i = Some ?p, He : emitted ?p = true,
        H' : remainingSmallerFinalsVec _ !! ?i = Some _ |- _ =>
          pose proof (Hem _ _ _ H He H')
      end. lia.
  - unfold step_wave in Hstep. case_match; [|done]. simplify_eq.
    split; simpl; rewrite ?length_replicate; try done.
    all: intros ? *; rewrite ?lookup_replicate; intros; destruct_and?; try done.
    all: simplify_eq.
Qed.

(** Every store into [cp_vec] replaces the entry by a strictly smaller id. *)
Lemma cp_vec_step e s s' j c' :
  basic_inv s → step e s = Some s' → cp_vec s' !! j = Some c' →
  ∃ c, cp_vec s !! j = Some c ∧ (c' = c ∨ c' < c).
Proof.
  intros Hinv Hstep Hj. destruct e as [i|]; simpl in Hstep.
  - step_iter_cases Hstep; unfold_sets; eauto.
    inv_lookup; eauto. bool_facts. subst.
    destruct (bi_cas _ Hinv _ _ _ _ _ Hpc) as (? & ? & ? & ?).
    simplify_eq. eexists; split; [done|]. right. lia.
  - unfold step_wave in Hstep. case_match; [|done]. simplify_eq. simpl in Hj. eauto.
Qed.

Lemma basic_inv_exec sched s0 s :
  basic_inv s0 → exec sched s0 = Some s → basic_inv s.
Proof.
  intros H0. revert sched s. apply exec_invariant; [done|].
  intros e s1 s2. apply basic_inv_step.
Qed.
End BasicInvariant.

Lemma length_init_rem kdtree vertices eps :
  length (init_rem kdtree vertices eps) = length vertices.
Proof. apply length_imap. Qed.

Lemma length_init_bigger kdtree vertices eps :
  length (init_bigger kdtree vertices eps) = length vertices.
Proof. apply length_imap. Qed.

Lemma basic_inv_init kdtree vertices eps num_threads :
  basic_inv (init_state kdtree vertices eps num_threads).
Proof.
  split; simpl; rewrite ?length_init_rem, ?length_replicate, ?length_seq; auto.
  - intros j c (-> & _)%lookup_seq. lia.
  - intros i isC e j l (? & _)%lookup_replicate. done.
  - intros i r (? & _)%lookup_replicate. done.
  - intros i r (? & _)%lookup_replicate. done.
  - intros i p r (-> & _)%lookup_replicate. done.
Qed.

(** ** Counting over an initial segment of the ids *)

Lemma filter_ext_elem {A : Type} (P Q : A → Prop)
    `{!∀ x, Decision (P x)} `{!∀ x, Decision (Q x)} (l : list A) :
  (∀ x, x ∈ l → (P x ↔ Q x)) → filter P l = filter Q l.
Proof.
  induction l as [|a l IH]; intros Hext; [done|].
  rewrite !filter_cons.
  rewrite IH by (intros x Hx; apply Hext; by right).
  destruct (decide (P a)) as [Hp|Hp], (decide (Q a)) as [Hq|Hq]; try done.
  - destruct Hq. apply Hext; [by left|done].
  - destruct Hp. apply Hext; [by left|done].
Qed.

Lemma count_ext (P Q : nat → Prop) `{!∀ x, Decision (P x)} `{!∀ x, Decision (Q x)} n :
  (∀ k, k < n → (P k ↔ Q k)) →
  length (filter P (seq 0 n)) = length (filter Q (seq 0 n)).
Proof.
  intros Hext. f_equal. apply filter_ext_elem. intros k (_ & ?)%elem_of_seq.
  apply Hext. lia.
Qed.

Lemma count_S (P : nat → Prop) `{!∀ x, Decision (P x)} n :
  length (filter P (seq 0 (S n)))
  = length (filter P (seq 0 n)) + (if decide (P n) then 1 else 0).
Proof.
  rewrite seq_S, filter_app, length_app. simpl. f_equal.
  rewrite filter_cons, filter_nil. by destruct (decide (P n)).
Qed.

Lemma count_remove (P Q : nat → Prop)
    `{!∀ x, Decision (P x)} `{!∀ x, Decision (Q x)} n i :
  i < n → (∀ k, k < n → k ≠ i → (P k ↔ Q k)) → P i → ¬ Q i →
  length (filter P (seq 0 n)) = S (length (filter Q (seq 0 n))).
Proof.
  induction n as [|n IH]; intros Hi Hext HP HQ; [lia|].
  rewrite !count_S. destruct (decide (i = n)) as [->|Hne].
  - rewrite (count_ext P Q n) by (intros; apply Hext; lia).
    rewrite decide_True by done. rewrite decide_False by done. lia.
  - rewrite IH; [|lia|intros; apply Hext; lia|done..].
    destruct (decide (P n)) as [Hp|Hp], (decide (Q n)) as [Hq|Hq]; try lia.
    + destruct Hq. apply Hext; [lia|done..].
    + destruct Hp. apply Hext; [lia|done..].
Qed.

Lemma count_zero (P : nat → Prop) `{!∀ x, Decision (P x)} n :
  length (filter P (seq 0 n)) = 0 ↔ ∀ k, k < n → ¬ P k.
Proof.
  rewrite length_zero_iff_nil. split.
  - intros Hnil k Hk HP. eapply (filter_nil_not_elem_of P); [done..|].
    apply elem_of_seq. lia.
  - intros Hall. destruct (filter P (seq 0 n)) as [|k l] eqn:E; [done|].
    assert (k ∈ filter P (seq 0 n)) as Hin by (rewrite E; by left).
    apply list_elem_of_filter in Hin as [HP (_ & ?)%elem_of_seq].
    destruct (Hall k); [lia|done].
Qed.

(** ** The reducer *)

Lemma for_loop_S {A : Type} n (body : nat → A → option A) a :
  for_loop (S n) body a = for_loop n body a ≫= body n.
Proof. unfold for_loop. rewrite seq_S, foldl_app. done. Qed.

Lemma for_loop_0 {A : Type} (body : nat → A → option A) a :
  for_loop 0 body a = Some a.
Proof. done. Qed.

(** Loop invariants are proved by induction on the number of iterations. *)
Lemma for_loop_invariant {A : Type} (P : nat → A → Prop) n
    (body : nat → A → option A) a :
  P 0 a →
  (∀ k st, k < n → P k st → ∃ st', body k st = Some st' ∧ P (S k) st') →
  ∃ st, for_loop n body a = Some st ∧ P n st.
Proof.
  intros H0 Hstep. induction n as [|n IH].
  - eauto.
  - destruct IH as (st & Hst & HP); [intros; apply Hstep; [lia|done]|].
    destruct (Hstep n st) as (st' & Hst' & HP'); [lia|done|].
    exists st'. rewrite for_loop_S, Hst. done.
Qed.

Lemma store_Some {A : Type} i (x : A) v v' :
  store i x v = Some v' ↔ i < length v ∧ v' = <[i:=x]> v.
Proof.
  unfold store. case_bool_decide; split; [by intros [= <-]| |done|].
  - intros [_ ->]. done.
  - intros [? _]. lia.
Qed.

(** The original positions of a list of vertex ids. *)
Definition positions (vertices : list Vector3d) (ids : list nat) : list Vector3d :=
  omap (λ i, vertices !! i) ids.

(** The original ids below [k] that [pid2ccid] maps to cluster [c]. *)
Definition members_below (pid2ccid : list nat) (k : nat) (c : nat) : list nat :=
  filter (λ i, pid2ccid !! i = Some c) (seq 0 k).

Lemma members_below_S pid k c :
  members_below pid (S k) c
  = members_below pid k c ++ (if decide (pid !! k = Some c) then [k] else []).
Proof.
  unfold members_below. rewrite seq_S, filter_app. simpl. f_equal.
Qed.

Lemma members_below_insert pid k c x :
  members_below (<[k:=x]> pid) k c = members_below pid k c.
Proof.
  unfold members_below. apply filter_ext_elem.
  intros i (_ & Hi)%elem_of_seq.
  rewrite list_lookup_insert_ne by lia. done.
Qed.

Lemma positions_snoc vertices ids i v :
  vertices !! i = Some v → positions vertices (ids ++ [i]) = positions vertices ids ++ [v].
Proof. intros H. unfold positions. rewrite omap_app. simpl. by rewrite H. Qed.

Lemma length_positions vertices ids :
  (∀ i, i ∈ ids → i < length vertices) →
  length (positions vertices ids) = length ids.
Proof.
  induction ids as [|i ids IH]; intros H; [done|].
  unfold positions in *. simpl.
  destruct (lookup_lt_is_Some_2 vertices i) as [v Hv]; [apply H; by left|].
  rewrite Hv. simpl. f_equal. apply IH. intros j Hj. apply H. by right.
Qed.

Lemma members_below_lt pid k c i : i ∈ members_below pid k c → i < k.
Proof. intros (_ & (_ & ?)%elem_of_seq)%list_elem_of_filter. lia. Qed.

Lemma members_below_pid pid k c i :
  i ∈ members_below pid k c ↔ i < k ∧ pid !! i = Some c.
Proof.
  unfold members_below. rewrite list_elem_of_filter, elem_of_seq.
  split; [intros (? & _ & ?)|intros (? & ?)]; (split; [try done; lia|try done; lia]).
Qed.

Lemma members_below_nil pid k c :
  (∀ i, i < k → pid !! i ≠ Some c) → members_below pid k c = [].
Proof.
  intros H. destruct (members_below pid k c) as [|i l] eqn:E; [done|].
  assert (i ∈ members_below pid k c) as Hi by (rewrite E; by left).
  apply members_below_pid in Hi as [? ?]. by destruct (H i).
Qed.

(** The ids below [k] that are their own parent. *)
Definition centroids_below (cp : list nat) (k : nat) : list nat :=
  filter (λ i, cp !! i = Some i) (seq 0 k).
Arguments centroids_below : simpl never.

Lemma centroids_below_S cp k :
  centroids_below cp (S k)
  = centroids_below cp k ++ (if decide (cp !! k = Some k) then [k] else []).
Proof.
  unfold centroids_below. rewrite seq_S, filter_app. simpl. f_equal.
Qed.

Lemma elem_of_centroids_below cp k i :
  i ∈ centroids_below cp k ↔ i < k ∧ cp !! i = Some i.
Proof.
  unfold centroids_below. rewrite list_elem_of_filter, elem_of_seq.
  split; [intros (? & _ & ?)|intros (? & ?)]; (split; [try done; lia|try done; lia]).
Qed.

Section Reducer.

Variable vertices : list Vector3d.
Variable cp : list nat.
Variable N : nat.
Hypothesis Hlen_vertices : length vertices = N.
Hypothesis Hlen_cp : length cp = N.
Hypothesis Hparent : ∀ i c, cp !! i = Some c → c ≤ i.

(** The state of the reducer in front of iteration [k]. *)
Record reduce_inv (k : nat) (st : reduce_state) : Prop := {
  ri_len_pid : length (r_pid2ccid st) = N;
  ri_len_mem : length (r_num_cluster_members_vec st) = N;
  ri_len_new : length (r_new_vertices st) = r_n_clusters st;
  ri_K_le : r_n_clusters st ≤ k;
  ri_pid : ∀ i, i < k → ∃ c, r_pid2ccid st !! i = Some c ∧ c < r_n_clusters st;
  ri_root : ∀ i c, i < k → r_pid2ccid st !! i = Some c →
            ∃ r, r ≤ i ∧ cp !! r = Some r ∧ r_pid2ccid st !! r = Some c;
  ri_unique : ∀ r r' c, r < k → r' < k → cp !! r = Some r → cp !! r' = Some r' →
            r_pid2ccid st !! r = Some c → r_pid2ccid st !! r' = Some c → r = r';
  ri_onto : ∀ c, c < r_n_clusters st →
            ∃ r, r < k ∧ cp !! r = Some r ∧ r_pid2ccid st !! r = Some c;
  ri_follow : ∀ i c, i < k → cp !! i = Some c →
            r_pid2ccid st !! i = r_pid2ccid st !! c;
  ri_mean : ∀ c, c < r_n_clusters st →
            r_num_cluster_members_vec st !! c
              = Some (length (members_below (r_pid2ccid st) k c))
            ∧ members_below (r_pid2ccid st) k c ≠ []
            ∧ r_new_vertices st !! c
              = Some (vmean (positions vertices (members_below (r_pid2ccid st) k c)));
  ri_fresh : ∀ c, r_n_clusters st ≤ c → c < N →
            r_num_cluster_members_vec st !! c = Some 1;
  ri_count : r_n_clusters st = length (centroids_below cp k);
  ri_rank : ∀ r, r < k → cp !! r = Some r →
            r_pid2ccid st !! r = Some (length (centroids_below cp r))
}.

Lemma reduce_inv_init pid2ccid :
  length pid2ccid = N →
  reduce_inv 0 (mkReduce pid2ccid [] 0 (replicate N 1)).
Proof.
  intros Hl. split; simpl; rewrite ?length_replicate; try done; try (intros; lia).
  intros c _ Hc. by apply lookup_replicate_2.
Qed.

Lemma count_centroids_S k :
  length (centroids_below cp (S k))
  = length (centroids_below cp k) + (if decide (cp !! k = Some k) then 1 else 0).
Proof.
  rewrite centroids_below_S, length_app. by destruct (decide _).
Qed.

Lemma reduce_inv_step k st :
  k < N → reduce_inv k st →
  ∃ st', reduce_body vertices cp k st = Some st' ∧ reduce_inv (S k) st'.
Proof.
  intros Hk [Hlp Hlm Hln HK Hpid Hroot Huniq Honto Hfol Hmean Hfresh Hcnt Hrank].
  unfold reduce_body.
  destruct (lookup_lt_is_Some_2 cp k) as [c Hc]; [lia|].
  destruct (lookup_lt_is_Some_2 vertices k) as [v Hv]; [lia|].
  rewrite Hc, Hv. simpl. pose proof (Hparent _ _ Hc) as Hck.
  case_bool_decide as Hcent.
  - (* a centroid *)
    subst c. unfold store. rewrite bool_decide_eq_true_2 by lia. simpl.
    eexists. split; [done|].
    assert (∀ c', members_below (<[k:=r_n_clusters st]> (r_pid2ccid st)) (S k) c'
              = members_below (r_pid2ccid st) k c'
                ++ (if decide (r_n_clusters st = c') then [k] else [])) as HM.
    { intros c'. rewrite members_below_S, members_below_insert.
      rewrite list_lookup_insert_eq by lia. f_equal.
      repeat case_decide; simplify_eq; done. }
    split; simpl; rewrite ?length_insert, ?length_app; simpl; try lia.
    + intros i Hi. destruct (decide (i = k)) as [->|].
      * exists (r_n_clusters st). rewrite list_lookup_insert_eq by lia. split; [done|lia].
      * rewrite list_lookup_insert_ne by done.
        destruct (Hpid i) as (c & ? & ?); [lia|]. exists c. split; [done|lia].
    + intros i c Hi Hic. destruct (decide (i = k)) as [->|].
      * exists k. split; [lia|]. done.
      * rewrite list_lookup_insert_ne in Hic by done.
        destruct (Hroot i c) as (r & ? & ? & ?); [lia|done|].
        exists r. split; [lia|]. split; [done|].
        rewrite list_lookup_insert_ne by lia. done.
    + intros r r' c Hr Hr' Hcr Hcr' Hpr Hpr'.
      destruct (decide (r = k)) as [->|], (decide (r' = k)) as [->|]; [done| | |].
      * rewrite list_lookup_insert_eq in Hpr by lia.
        rewrite list_lookup_insert_ne in Hpr' by done.
        destruct (Hpid r') as (? & ? & ?); [lia|]. simplify_eq. lia.
      * rewrite list_lookup_insert_eq in Hpr' by lia.
        rewrite list_lookup_insert_ne in Hpr by done.
        destruct (Hpid r) as (? & ? & ?); [lia|]. simplify_eq. lia.
      * rewrite list_lookup_insert_ne in Hpr, Hpr' by done.
        eapply Huniq; [| |done..]; lia.
    + intros c Hc'. destruct (decide (c = r_n_clusters st)) as [->|].
      * exists k. rewrite list_lookup_insert_eq by lia. split; [lia|done].
      * destruct (Honto c) as (r & ? & ? & ?); [lia|].
        exists r. rewrite list_lookup_insert_ne by lia. split; [lia|done].
    + intros i c Hi Hic. destruct (decide (i = k)) as [->|]; [by simplify_eq|].
      pose proof (Hparent _ _ Hic).
      rewrite !list_lookup_insert_ne by lia. apply Hfol; [lia|done].
    + intros c Hc'. rewrite HM. destruct (decide (r_n_clusters st = c)) as [<-|Hne].
      * assert (members_below (r_pid2ccid st) k (r_n_clusters st) = []) as ->.
        { apply members_below_nil. intros i Hi Hic.
          destruct (Hpid i Hi) as (? & ? & ?). simplify_eq. lia. }
        simpl. rewrite list_lookup_middle by done.
        rewrite Hfresh by lia. rewrite Hv. simpl. by rewrite vmean_singleton.
      * rewrite app_nil_r. destruct (Hmean c) as (Hm1 & Hm2 & Hm3); [lia|].
        rewrite lookup_app_l by lia. done.
    + intros c Hc1 Hc2. apply Hfresh; lia.
    + rewrite count_centroids_S, decide_True by done. lia.
    + intros r Hr Hcr. destruct (decide (r = k)) as [->|].
      * rewrite list_lookup_insert_eq by lia. by rewrite Hcnt.
      * rewrite list_lookup_insert_ne by done. apply Hrank; [lia|done].
  - (* a follower *)
    assert (c < k) as Hlt by lia.
    destruct (Hpid c Hlt) as (ccid & Hccid & HccidK).
    destruct (Hmean ccid HccidK) as (Hm1 & Hm2 & Hm3).
    rewrite Hccid. simpl. rewrite Hm1. simpl. rewrite Hm3. simpl.
    unfold store. rewrite bool_decide_eq_true_2 by lia. simpl.
    eexists. split; [done|].
    assert (∀ c', members_below (<[k:=ccid]> (r_pid2ccid st)) (S k) c'
              = members_below (r_pid2ccid st) k c'
                ++ (if decide (ccid = c') then [k] else [])) as HM.
    { intros c'. rewrite members_below_S, members_below_insert.
      rewrite list_lookup_insert_eq by lia. f_equal.
      repeat case_decide; simplify_eq; done. }
    split; simpl; rewrite ?length_insert; try lia.
    + intros i Hi. destruct (decide (i = k)) as [->|].
      * exists ccid. rewrite list_lookup_insert_eq by lia. done.
      * rewrite list_lookup_insert_ne by done. apply Hpid. lia.
    + intros i c' Hi Hic. destruct (decide (i = k)) as [->|].
      * rewrite list_lookup_insert_eq in Hic by lia. simplify_eq.
        destruct (Hroot c c') as (r & ? & ? & ?); [lia|done|].
        exists r. split; [lia|]. split; [done|].
        rewrite list_lookup_insert_ne by lia. done.
      * rewrite list_lookup_insert_ne in Hic by done.
        destruct (Hroot i c') as (r & ? & ? & ?); [lia|done|].
        exists r. split; [lia|]. split; [done|].
        rewrite list_lookup_insert_ne by lia. done.
    + intros r r' c' Hr Hr' Hcr Hcr' Hpr Hpr'.
      assert (r ≠ k) by (intros ->; simplify_eq).
      assert (r' ≠ k) by (intros ->; simplify_eq).
      rewrite list_lookup_insert_ne in Hpr, Hpr' by done.
      eapply Huniq; [| |done..]; lia.
    + intros c' Hc'. destruct (Honto c' Hc') as (r & ? & ? & ?).
      exists r. rewrite list_lookup_insert_ne by lia. split; [lia|done].
    + intros i c' Hi Hic. pose proof (Hparent _ _ Hic).
      destruct (decide (i = k)) as [->|].
      * simplify_eq. rewrite list_lookup_insert_eq by lia.
        rewrite list_lookup_insert_ne by lia. done.
      * rewrite !list_lookup_insert_ne by lia. apply Hfol; [lia|done].
    + intros c' Hc'. rewrite HM. destruct (decide (ccid = c')) as [<-|Hne].
      * rewrite !list_lookup_insert_eq by lia.
        rewrite length_app. simpl. rewrite Nat.add_1_r.
        split; [done|]. split; [by destruct (members_below _ _ _)|].
        f_equal. rewrite (positions_snoc _ _ _ _ Hv).
        rewrite <- running_mean.
        -- rewrite length_positions; [done|].
           intros i Hi%members_below_lt. lia.
        -- intros Hnil. apply (f_equal length) in Hnil.
           rewrite length_positions in Hnil.
           ++ by destruct (members_below _ _ _).
           ++ intros i Hi%members_below_lt. lia.
      * rewrite app_nil_r, !list_lookup_insert_ne by done. by apply Hmean.
    + intros c' Hc1 Hc2. rewrite list_lookup_insert_ne by lia. apply Hfresh; lia.
    + rewrite count_centroids_S, decide_False; [lia|]. congruence.
    + intros r Hr Hcr. assert (r ≠ k) by (intros ->; congruence).
      rewrite list_lookup_insert_ne by done. apply Hrank; [lia|done].
Qed.

(** The reducer runs to completion, whatever [pid2ccid] held before. *)
Lemma reduce_loop pid2ccid :
  length pid2ccid = N →
  ∃ st, for_loop N (reduce_body vertices cp)
          (mkReduce pid2ccid [] 0 (replicate N 1)) = Some st
        ∧ reduce_inv N st.
Proof.
  intros Hl. apply for_loop_invariant.
  - by apply reduce_inv_init.
  - apply reduce_inv_step.
Qed.

(** Two runs that start from different contents of [pid2ccid] agree on
    everything the loop has written so far: iteration [k] reads [pid2ccid]
    only at [cp_vec[k] < k], an entry stored by an earlier iteration. *)
Definition reduce_sim (k : nat) (st st' : reduce_state) : Prop :=
  r_new_vertices st = r_new_vertices st'
  ∧ r_n_clusters st = r_n_clusters st'
  ∧ r_num_cluster_members_vec st = r_num_cluster_members_vec st'
  ∧ length (r_pid2ccid st) = length (r_pid2ccid st')
  ∧ ∀ i, i < k → r_pid2ccid st !! i = r_pid2ccid st' !! i.

Lemma reduce_sim_step k st st' st1 :
  k < N → reduce_sim k st st' →
  reduce_body vertices cp k st = Some st1 →
  ∃ st1', reduce_body vertices cp k st' = Some st1' ∧ reduce_sim (S k) st1 st1'.
Proof.
  intros Hk (Hnv & HK & Hmem & Hlen & Hpid) Hbody.
  unfold reduce_body in *.
  destruct (cp !! k) as [c|] eqn:Hc; simpl in *; [|done].
  destruct (vertices !! k) as [v|] eqn:Hv; simpl in *; [|done].
  pose proof (Hparent _ _ Hc).
  case_bool_decide as Hcent.
  - destruct (store k _ (r_pid2ccid st)) as [pid1|] eqn:Hst; simpl in *; [|done].
    apply store_Some in Hst as [Hlt ->]. simplify_eq.
    unfold store. rewrite bool_decide_eq_true_2 by lia. simpl.
    eexists; split; [done|]. repeat split; simpl; rewrite ?length_insert; try congruence.
    intros i Hi. destruct (decide (i = k)) as [->|].
    + rewrite !list_lookup_insert_eq by lia. congruence.
    + rewrite !list_lookup_insert_ne by done. apply Hpid. lia.
  - rewrite <- Hpid by lia.
    destruct (r_pid2ccid st !! c) as [ccid|]; simpl in *; [|done].
    rewrite <- Hmem, <- Hnv.
    destruct (r_num_cluster_members_vec st !! ccid) as [n|]; simpl in *; [|done].
    destruct (r_new_vertices st !! ccid) as [prev|]; simpl in *; [|done].
    destruct (store k _ (r_pid2ccid st)) as [pid1|] eqn:Hst; simpl in *; [|done].
    apply store_Some in Hst as [Hlt ->]. simplify_eq.
    unfold store. rewrite bool_decide_eq_true_2 by lia. simpl.
    eexists; split; [done|]. repeat split; simpl; rewrite ?length_insert; try congruence.
    intros i Hi. destruct (decide (i = k)) as [->|].
    + rewrite !list_lookup_insert_eq by lia. congruence.
    + rewrite !list_lookup_insert_ne by done. apply Hpid. lia.
Qed.

Lemma reduce_sim_loop n pid2ccid pid2ccid' st :
  n ≤ N → length pid2ccid = length pid2ccid' →
  for_loop n (reduce_body vertices cp)
    (mkReduce pid2ccid [] 0 (replicate N 1)) = Some st →
  ∃ st', for_loop n (reduce_body vertices cp)
           (mkReduce pid2ccid' [] 0 (replicate N 1)) = Some st'
         ∧ reduce_sim n st st'.
Proof.
  intros Hn Hl. revert st. induction n as [|n IH]; intros st.
  - intros [= <-]. eexists. split; [done|]. repeat split; simpl; try done. lia.
  - rewrite !for_loop_S. intros Hst.
    destruct (for_loop n _ _) as [st0|] eqn:E0; simpl in Hst; [|done].
    destruct (IH ltac:(lia) _ eq_refl) as (st0' & -> & Hsim). simpl.
    eapply reduce_sim_step; [lia|done..].
Qed.

Lemma reduce_Some pid2ccid :
  length pid2ccid = N →
  ∃ st, reduce vertices pid2ccid [] cp N
          = Some (r_pid2ccid st, r_new_vertices st)
        ∧ reduce_inv N st.
Proof.
  intros Hl. destruct (reduce_loop _ Hl) as (st & Hst & Hinv).
  exists st. unfold reduce. rewrite Hst. done.
Qed.

(** No iteration of the reducer reads an entry of [pid2ccid] that the loop
    has not stored before. *)
Lemma reduce_independent pid2ccid pid2ccid' :
  length pid2ccid = N → length pid2ccid' = N →
  reduce vertices pid2ccid [] cp N = reduce vertices pid2ccid' [] cp N.
Proof.
  intros Hl Hl'. destruct (reduce_loop _ Hl) as (st & Hst & Hinv).
  destruct (reduce_sim_loop N pid2ccid pid2ccid' st) as (st' & Hst' & Hsim);
    [lia|congruence|done|].
  unfold reduce. rewrite Hst, Hst'. simpl.
  destruct Hsim as (-> & _ & _ & Hlen & Hpid). do 2 f_equal.
  apply list_eq. intros i. destruct (decide (i < N)); [by apply Hpid|].
  rewrite !lookup_ge_None_2; [done| |]; rewrite <- ?Hlen, (ri_len_pid _ _ Hinv); lia.
Qed.

End Reducer.



(** ** The synchronous welder after the wave loop *)

Lemma basic_inv_reachable version kdtree vertices eps num_threads thread_of sched s :
  exec version (init_bigger kdtree vertices eps) thread_of sched
    (init_state kdtree vertices eps num_threads) = Some s →
  basic_inv s ∧ length (cp_vec s) = length vertices.
Proof.
  revert sched s. apply exec_invariant.
  - split; [apply basic_inv_init|]. simpl. by rewrite length_seq.
  - intros e s s' [Hinv Hlen] Hstep. split; [by eapply basic_inv_step|].
    destruct e as [i|]; simpl in Hstep.
    + destruct (step_iter_lengths _ _ _ _ _ _ Hstep) as (-> & _). done.
    + unfold step_wave in Hstep. case_match; [|done]. by simplify_eq.
Qed.

Lemma rewrite_triangle_Some (f : nat → option nat) n n' t :
  (∀ i, i < n → ∃ c, f i = Some c ∧ c < n') →
  valid_triangle n t →
  ∃ t', rewrite_triangle f t = Some t' ∧ valid_triangle n' t'.
Proof.
  intros Hf. destruct t as [[a b] c]. intros (Ha & Hb & Hc).
  destruct (Hf a Ha) as (a' & Ea & ?), (Hf b Hb) as (b' & Eb & ?),
    (Hf c Hc) as (c' & Ec & ?).
  exists (a', b', c'). simpl. rewrite Ea, Eb, Ec. done.
Qed.

Lemma rewrite_triangles_Some (f : nat → option nat) n n' ts :
  (∀ i, i < n → ∃ c, f i = Some c ∧ c < n') →
  Forall (valid_triangle n) ts →
  ∃ ts', mapM (rewrite_triangle f) ts = Some ts'
         ∧ Forall (valid_triangle n') ts' ∧ length ts' = length ts.
Proof.
  intros Hf. induction 1 as [|t ts Ht _ (ts' & E & Hv & Hl)].
  - exists []. done.
  - destruct (rewrite_triangle_Some f n n' t Hf Ht) as (t' & Et & Hvt).
    exists (t' :: ts'). simpl. rewrite Et. simpl. rewrite E. simpl.
    split; [done|]. split; [by constructor|]. by rewrite Hl.
Qed.

(** C5.  After [merge_vertices_forward] on a mesh whose triangle ids are valid
    vertex ids, every rewritten triangle id is a valid index into the new
    vertex list: the reducer assigns [pid2ccid[i]] for every original id [i]
    (its result does not depend on what [pid2ccid] held before the call, so
    nothing is read before it is assigned) and the assigned id is below the
    number of new vertices. *)
Theorem forward_triangle_ids_valid (m : TriangleMesh) (kdtree : list Vector3d)
    (eps : Qc) (sched : list event) (s : state) :
  valid_mesh m →
  exec Forward (init_bigger kdtree (vertices_ m) eps) (λ _, 0) sched
    (init_state kdtree (vertices_ m) eps 0) = Some s →
  terminal s = true →
  ∃ m' pid2ccid,
    merge_vertices_forward_run m kdtree eps sched = Some (m', pid2ccid)
    ∧ valid_mesh m'
    ∧ length (triangles_ m') = length (triangles_ m)
    ∧ (∀ i, i < length (vertices_ m) →
         ∃ c, pid2ccid !! i = Some c ∧ c < length (vertices_ m'))
    ∧ (∀ pid0, length pid0 = length (vertices_ m) →
         reduce (vertices_ m) pid0 [] (cp_vec s) (length (vertices_ m))
         = Some (pid2ccid, vertices_ m')).
Proof.
  intros Hvalid Hexec Hterm.
  destruct (basic_inv_reachable _ _ _ _ _ _ _ _ Hexec) as [Hinv Hlen].
  pose proof (bi_parent _ Hinv) as Hpar.
  destruct (reduce_Some (vertices_ m) (cp_vec s) (length (vertices_ m))
              eq_refl Hlen Hpar (replicate (length (vertices_ m)) 0))
    as (st & Hred & Hri); [by rewrite length_replicate|].
  assert (∀ i, i < length (vertices_ m) →
            ∃ c, r_pid2ccid st !! i = Some c ∧ c < length (r_new_vertices st))
    as Hpid.
  { intros i Hi. rewrite (ri_len_new _ _ _ _ _ Hri). by apply (ri_pid _ _ _ _ _ Hri). }
  destruct (rewrite_triangles_Some (λ t, r_pid2ccid st !! t) _ _ _ Hpid Hvalid)
    as (ts' & Hts & Hv' & Hl').
  eexists _, (r_pid2ccid st).
  unfold merge_vertices_forward_run. rewrite Hexec. simpl. rewrite Hterm.
  unfold finish_forward. rewrite Hred. simpl. rewrite Hts. simpl.
  split; [done|]. split; [done|]. split; [done|]. split; [done|].
  intros pid0 Hpid0. simpl. rewrite <- Hred.
  apply reduce_independent; [done..|by rewrite length_replicate].
Qed.

(** ** The bracket phase of the epsilon finder *)

Section BracketFacts.
Import FindEps.
Local Open Scope Qc_scope.

Lemma Qc_leb_le a b : Qc_leb a b = true ↔ a <= b.
Proof. unfold Qc_leb, Qcle. apply Qle_bool_iff. Qed.

Lemma Qc_ltb_lt a b : Qc_ltb a b = true ↔ a < b.
Proof.
  unfold Qc_ltb. rewrite negb_true_iff. split.
  - intros H. apply Qcnot_le_lt. intros Hle%Qc_leb_le. congruence.
  - intros H. destruct (Qc_leb b a) eqn:E; [|done].
    apply Qc_leb_le in E. by apply Qcle_not_lt in E.
Qed.

Definition grid (k : nat) : Qc := cnt k * EPSILON_STEP_SIZE.

Lemma grid_this k : (this (grid k) == inject_Z (Z.of_nat k) * (1 # 100))%Q.
Proof.
  unfold grid, cnt, EPSILON_STEP_SIZE. simpl.
  rewrite !Qred_correct. reflexivity.
Qed.

Lemma grid_lt_cap k : grid k < max_epsilon_searched ↔ (k < 1000)%nat.
Proof.
  unfold Qclt. rewrite grid_this. unfold max_epsilon_searched. simpl.
  unfold Qlt. simpl. lia.
Qed.

Lemma grid_S k : grid (S k) = grid k + EPSILON_STEP_SIZE.
Proof. unfold grid. rewrite cnt_S. ring. Qed.

Lemma grid_1 : grid 1 = EPSILON_STEP_SIZE.
Proof. unfold grid. rewrite cnt_1. ring. Qed.


End BracketFacts.

Section LinearBracket.
Import FindEps.
Local Open Scope Qc_scope.

Variable rate : Qc → Qc.
Variable target : Qc.

(** What the bracket phase promises about the value it returns at grid point
    [k]. *)
Definition bracket_at (k : nat) (v : BinarySearchVals) : Prop :=
  (1 ≤ k ≤ 999)%nat
  ∧ epsilon_max_boundary v = grid k
  ∧ epsilon_min_boundary v = grid k - EPSILON_STEP_SIZE
  ∧ reduction_rate_on_max_boundary v = rate (grid k)
  ∧ reduction_rate_on_min_boundary v = (if decide (k = 1%nat) then 0 else rate (grid (k - 1)))
  ∧ target <= rate (grid k)
  ∧ ∀ k', (1 ≤ k' < k)%nat → rate (grid k') < target.

Lemma linear_search_loop_spec fuel k prev :
  (1 ≤ k ≤ 1000)%nat → (1001 ≤ fuel + k)%nat →
  prev = (if decide (k = 1%nat) then 0 else rate (grid (k - 1))) →
  (∀ k', (1 ≤ k' < k)%nat → rate (grid k') < target) →
  match linear_search_loop rate fuel target (grid k) prev with
  | Returned v => ∃ k', bracket_at k' v
  | AssertionFailed => ∀ k', (1 ≤ k' ≤ 999)%nat → rate (grid k') < target
  | OutOfFuel => False
  end.
Proof.
  revert k prev. induction fuel as [|fuel IH]; intros k prev Hk Hfuel Hprev Hbelow.
  - lia.
  - simpl. destruct (Qc_ltb (grid k) max_epsilon_searched) eqn:Hcap.
    + apply Qc_ltb_lt, grid_lt_cap in Hcap.
      destruct (Qc_leb target (rate (grid k))) eqn:Hrate.
      * apply Qc_leb_le in Hrate. exists k. repeat split; simpl; try done; try lia.
      * rewrite <- grid_S. apply IH; [lia|lia| |].
        -- destruct (decide (S k = 1%nat)); [lia|]. do 2 f_equal. lia.
        -- intros k' Hk'. destruct (decide (k' = k)) as [->|]; [|apply Hbelow; lia].
           apply Qc_ltb_lt. unfold Qc_ltb. by rewrite Hrate.
    + intros k' Hk'. apply Hbelow. split; [lia|].
      destruct (decide (k < 1000)%nat) as [Hlt|]; [|lia].
      apply grid_lt_cap, Qc_ltb_lt in Hlt. congruence.
Qed.


End LinearBracket.

(** ** The wave loop under the contract of the spatial index *)

(** The bigger neighbours that an iteration at control point [p] has still to
    visit, the one it is visiting included. *)
Definition todo_of (p : pc) : list nat :=
  match p with
  | Loop _ l => l
  | CasRead _ j l | CasTry _ _ j l | Flag _ j l | Faa _ j l => j :: l
  | _ => []
  end.

(** The bigger neighbours whose counter vertex [i] has not decremented yet.
    [b] is the neighbour list of [i] and [r] the current [rem[i]]. *)
Definition undec_pc (b : list nat) (r : Z) (p : pc) : list nat :=
  match p with
  | Start | Chk2 | Skip => if (r <? 0)%Z then [] else b
  | DecRead | DecWrite _ | ReadCent | Count _ => b
  | _ => todo_of p
  end.

(** Vertex [i] has stored [--rem[i]], in this wave or in an earlier one. *)
Definition has_emitted_pc (r : Z) (p : pc) : bool :=
  match p with
  | Start | Chk2 | Skip => (r <? 0)%Z
  | DecRead | DecWrite _ => false
  | _ => true
  end.

(** The bigger neighbours on which vertex [i] has not finished its
    compare-and-swap loop yet. *)
Definition cas_todo_pc (b : list nat) (r : Z) (p : pc) : list nat :=
  match p with
  | Flag _ _ l | Faa _ _ l => l
  | _ => undec_pc b r p
  end.

Section Contract.

Variable version : variant.
Variable pid2nnBigger : list (list nat).
Variable thread_of : nat → nat.
Variable N : nat.

Local Abbreviation step := (step version pid2nnBigger thread_of).
Local Abbreviation exec := (exec version pid2nnBigger thread_of).
Local Abbreviation step_iter := (step_iter version pid2nnBigger thread_of).

Definition bigger_of (i : nat) : list nat := default [] (pid2nnBigger !! i).

Definition per_vertex {A : Type} (f : list nat → Z → pc → A) (d : A)
    (s : state) (i : nat) : A :=
  match pcs s !! i, remainingSmallerFinalsVec s !! i with
  | Some p, Some r => f (bigger_of i) r p
  | _, _ => d
  end.

Definition undec : state → nat → list nat := per_vertex undec_pc [].
Definition has_emitted : state → nat → bool :=
  per_vertex (λ _, has_emitted_pc) false.
Definition cas_todo : state → nat → list nat := per_vertex cas_todo_pc [].

(** The number of smaller neighbours of [j] that have not decremented
    [rem[j]] yet. *)
Definition pending_count (s : state) (j : nat) : nat :=
  length (filter (λ i, j ∈ undec s i) (seq 0 N)).

(** What the initialisation loop gets from the spatial index: every neighbour
    list holds bigger ids, once each, and the counter of [j] starts at the
    number of lists that hold [j]. *)
Record index_contract (rem0 : list Z) : Prop := {
  ic_len : length pid2nnBigger = N;
  ic_len_rem : length rem0 = N;
  ic_bigger : ∀ i j, j ∈ bigger_of i → i < j < N;
  ic_nodup : ∀ i, NoDup (bigger_of i);
  ic_rem : ∀ j, j < N →
           rem0 !! j
           = Some (Z.of_nat (length (filter (λ i, j ∈ bigger_of i) (seq 0 N))))
}.

(** The part of the contract that does not mention the counters. *)
Definition index_contract_ranges : Prop :=
  length pid2nnBigger = N
  ∧ (∀ i j, j ∈ bigger_of i → i < j < N)
  ∧ (∀ i, NoDup (bigger_of i)).

Record shape_inv (s : state) : Prop := {
  si_len_cp : length (cp_vec s) = N;
  si_len_rem : length (remainingSmallerFinalsVec s) = N;
  si_len_pcs : length (pcs s) = N;
  si_suffix : ∀ i p, pcs s !! i = Some p → todo_of p `suffix_of` bigger_of i
}.

Lemma shape_inv_step e s s' :
  shape_inv s → step e s = Some s' → shape_inv s'.
Proof.
  intros [Hc Hr Hp Hsuf] Hstep. destruct e as [i|]; simpl in Hstep.
  - split.
    1-3: destruct (step_iter_lengths _ _ _ _ _ _ Hstep) as (E1 & E2 & E3 & _);
      congruence.
    step_iter_cases Hstep; unfold_sets.
    all: intros k p Hk; inv_lookup; eauto.
    all: repeat case_match; simplify_eq; simpl.
    all: try (by apply suffix_nil).
    all: try (by apply (Hsuf _ _ Hpc)).
    all: try (unfold bigger_of; by rewrite Hrd0).
    all: try (unfold bigger_of; by rewrite Hrd).
    all: try (eapply suffix_cons_l; by apply (Hsuf _ _ Hpc)).
  - unfold step_wave in Hstep. case_match; [|done]. simplify_eq.
    split; simpl; rewrite ?length_replicate; try done.
    intros i p (-> & _)%lookup_replicate. apply suffix_nil.
Qed.

Lemma shape_inv_exec sched s0 s :
  shape_inv s0 → exec sched s0 = Some s → shape_inv s.
Proof.
  intros H0. revert sched s. apply exec_invariant; [done|].
  intros e s1 s2. apply shape_inv_step.
Qed.

(** How the per-vertex views follow the updates of the state. *)
Lemma pv_set_pc {A : Type} (f : list nat → Z → pc → A) d i p s k :
  i < length (pcs s) →
  per_vertex f d (set_pc i p s) k
  = if decide (k = i)
    then match remainingSmallerFinalsVec s !! i with
         | Some r => f (bigger_of i) r p
         | None => d
         end
    else per_vertex f d s k.
Proof.
  intros Hi. unfold per_vertex, set_pc. simpl. case_decide as Hk.
  - subst k. by rewrite list_lookup_insert_eq.
  - by rewrite list_lookup_insert_ne.
Qed.

Lemma pv_set_rem {A : Type} (f : list nat → Z → pc → A) d j r s k :
  j < length (remainingSmallerFinalsVec s) →
  per_vertex f d (set_rem j r s) k
  = if decide (k = j)
    then match pcs s !! j with
         | Some p => f (bigger_of j) r p
         | None => d
         end
    else per_vertex f d s k.
Proof.
  intros Hj. unfold per_vertex, set_rem. simpl. case_decide as Hk.
  - subst k. rewrite list_lookup_insert_eq by done. by destruct (pcs s !! j).
  - by rewrite list_lookup_insert_ne.
Qed.

Lemma pv_set_cp {A : Type} (f : list nat → Z → pc → A) d j c s k :
  per_vertex f d (set_cp j c s) k = per_vertex f d s k.
Proof. done. Qed.

Lemma pv_set_flag {A : Type} (f : list nat → Z → pc → A) d b s k :
  per_vertex f d (set_flag b s) k = per_vertex f d s k.
Proof. done. Qed.

Lemma pv_set_disc {A : Type} (f : list nat → Z → pc → A) d t x s k :
  per_vertex f d (set_disc t x s) k = per_vertex f d s k.
Proof. done. Qed.

Lemma pv_lookup {A : Type} (f : list nat → Z → pc → A) d s i p r :
  pcs s !! i = Some p → remainingSmallerFinalsVec s !! i = Some r →
  per_vertex f d s i = f (bigger_of i) r p.
Proof. intros Hp Hr. unfold per_vertex. by rewrite Hp, Hr. Qed.

Lemma undec_subseteq s i j :
  shape_inv s → j ∈ undec s i → j ∈ bigger_of i.
Proof.
  intros Hsh. unfold undec, per_vertex.
  destruct (pcs s !! i) as [p|] eqn:Hp; [|by intros ?%elem_of_nil].
  destruct (remainingSmallerFinalsVec s !! i) as [r|]; [|by intros ?%elem_of_nil].
  pose proof (si_suffix _ Hsh _ _ Hp) as Hsuf.
  destruct p; simpl in *; try case_match; try done;
    try (by intros ?%elem_of_nil); intros Hin;
    by eapply elem_of_suffix.
Qed.

Lemma undec_activated s i p :
  shape_inv s → pcs s !! i = Some p → activated p = true →
  undec s i = undec_pc (bigger_of i) 0 p.
Proof.
  intros Hsh Hp Ha.
  destruct (lookup_lt_is_Some_2 (remainingSmallerFinalsVec s) i) as [r Hr].
  { rewrite (si_len_rem _ Hsh), <- (si_len_pcs _ Hsh). by eapply lookup_lt_Some. }
  unfold undec. erewrite pv_lookup by done. by destruct p.
Qed.

(** The invariant that ties the counters to the progress of the smaller
    neighbours. *)
Record count_inv (s : state) : Prop := {
  ci_rem : ∀ j r, remainingSmallerFinalsVec s !! j = Some r →
           r = if has_emitted s j then (-1)%Z else Z.of_nat (pending_count s j);
  ci_started : ∀ j p, pcs s !! j = Some p →
           activated p = true ∨ has_emitted s j = true → pending_count s j = 0;
  ci_decwrite : ∀ i r, pcs s !! i = Some (DecWrite r) → r = 0%Z;
  ci_faa : ∀ i isC j l, pcs s !! i = Some (Faa isC j l) → should_continue s = true;
  ci_skip : ∀ j, pcs s !! j = Some Skip →
           remainingSmallerFinalsVec s !! j = Some 0%Z → should_continue s = true
}.

(** A neighbour that some smaller vertex has still to decrement has not
    become an active source, and its counter is at least one. *)
Lemma undec_target_pending s i j x :
  shape_inv s → count_inv s → index_contract_ranges →
  j ∈ undec s i → remainingSmallerFinalsVec s !! j = Some x →
  (1 ≤ x)%Z ∧ has_emitted s j = false
  ∧ ∀ q, pcs s !! j = Some q → activated q = false.
Proof.
  intros Hsh Hci _ Hin Hx.
  assert (i < N) as Hi.
  { unfold undec, per_vertex in Hin.
    destruct (pcs s !! i) eqn:E; [|by apply elem_of_nil in Hin].
    rewrite <- (si_len_pcs _ Hsh). by eapply lookup_lt_Some. }
  assert (pending_count s j ≠ 0) as Hpos.
  { intros Hz. unfold pending_count in Hz.
    by eapply (proj1 (count_zero _ _) Hz i). }
  destruct (lookup_lt_is_Some_2 (pcs s) j) as [q Hq].
  { rewrite (si_len_pcs _ Hsh), <- (si_len_rem _ Hsh). by eapply lookup_lt_Some. }
  pose proof (ci_started _ Hci _ _ Hq) as Hst.
  pose proof (ci_rem _ Hci _ _ Hx) as Hr.
  destruct (has_emitted s j) eqn:He; [by destruct Hpos; auto|].
  split; [lia|]. split; [done|].
  intros q' Hq'. assert (q' = q) as -> by congruence.
  destruct (activated q) eqn:Ha; [|done].
  destruct Hpos; auto.
Qed.

(** What a step of iteration [i] does to the counters and to the views. *)
Lemma step_iter_effect i s s' :
  shape_inv s → count_inv s → index_contract_ranges →
  step_iter i s = Some s' →
  ∃ p p', pcs s !! i = Some p ∧ pcs s' = <[i:=p']> (pcs s) ∧
    match p with
    | DecWrite r =>
        remainingSmallerFinalsVec s' = <[i:=(r - 1)%Z]> (remainingSmallerFinalsVec s)
        ∧ p' = ReadCent
        ∧ (∀ k, undec s' k = undec s k)
        ∧ (∀ k, k ≠ i → has_emitted s' k = has_emitted s k)
        ∧ has_emitted s i = false ∧ has_emitted s' i = true
    | Faa isC j l =>
        ∃ x, remainingSmallerFinalsVec s !! j = Some x ∧ (1 ≤ x)%Z
        ∧ remainingSmallerFinalsVec s' = <[j:=(x - 1)%Z]> (remainingSmallerFinalsVec s)
        ∧ p' = Loop isC l
        ∧ undec s i = j :: l ∧ undec s' i = l
        ∧ (∀ k, k ≠ i → undec s' k = undec s k)
        ∧ (∀ k, has_emitted s' k = has_emitted s k)
    | _ =>
        remainingSmallerFinalsVec s' = remainingSmallerFinalsVec s
        ∧ (∀ k, undec s' k = undec s k)
        ∧ (∀ k, has_emitted s' k = has_emitted s k)
    end.
Proof.
  intros Hsh Hci Hic Hstep.
  assert (i < N) as Hi.
  { apply step_iter_pcs in Hstep as (p & _ & Hp & _).
    rewrite <- (si_len_pcs _ Hsh). by eapply lookup_lt_Some. }
  destruct (lookup_lt_is_Some_2 (remainingSmallerFinalsVec s) i) as [ri Hri];
    [by rewrite (si_len_rem _ Hsh)|].
  pose proof (si_len_pcs _ Hsh) as Hlp. pose proof (si_len_rem _ Hsh) as Hlr.
  step_iter_cases Hstep.
  all: eexists _, _; (split; [done|]); (split; [done|]).
  all: simplify_eq; bool_facts.
  (* the steps that store neither [rem] nor a neighbour list *)
  all: try (split; [done|]; split; intros k; unfold undec, has_emitted;
            rewrite pv_set_pc by (simpl; lia);
            rewrite ?pv_set_cp, ?pv_set_flag, ?pv_set_disc;
            (case_decide as Hk; [subst k|done]);
            rewrite ?Hri, ?Hrd; erewrite pv_lookup by done;
            repeat case_match; simplify_eq; bool_facts; simpl;
            repeat case_match; bool_facts; try done; try lia;
            unfold bigger_of; by simplify_option_eq).
  - (* the store of [--rem[i]] *)
    split; [done|]. split; [done|].
    unfold undec, has_emitted. split; [|split; [|split]].
    + intros k. rewrite pv_set_pc by (simpl; lia). simpl.
      rewrite list_lookup_insert_eq by lia. case_decide as Hk.
      * subst k. by erewrite pv_lookup by done.
      * by rewrite pv_set_rem, decide_False by (done || lia).
    + intros k Hk. rewrite pv_set_pc, decide_False by (done || simpl; lia).
      by rewrite pv_set_rem, decide_False by (done || lia).
    + by erewrite pv_lookup by done.
    + rewrite pv_set_pc, decide_True by (done || simpl; lia). simpl.
      by rewrite list_lookup_insert_eq by lia.
  - (* the fetch-and-add *)
    assert (undec s i = j :: l) as Hun by (unfold undec; by erewrite pv_lookup by done).
    destruct (undec_target_pending s i j x Hsh Hci Hic) as (Hx & Hej & Haj);
      [rewrite Hun; by left|done|].
    assert (i < j) as Hij.
    { apply Hic. eapply undec_subseteq; [done|]. rewrite Hun. by left. }
    assert (j < N) as Hj by (rewrite <- Hlr; by eapply lookup_lt_Some).
    destruct (lookup_lt_is_Some_2 (pcs s) j) as [q Hq]; [lia|].
    specialize (Haj _ Hq).
    exists x. split; [done|]. split; [done|]. split; [done|]. split; [done|].
    split; [done|]. unfold undec, has_emitted in *.
    assert (∀ {A} (f : list nat → Z → pc → A) d k,
              k ≠ i → (f (bigger_of j) (x - 1)%Z q = f (bigger_of j) x q) →
              per_vertex f d (set_pc i (Loop isC l) (set_rem j (x - 1)%Z s)) k
              = per_vertex f d s k) as Hother.
    { intros A f d k Hk Hf. rewrite pv_set_pc, decide_False by (done || simpl; lia).
      rewrite pv_set_rem by lia. case_decide; [|done]. subst k.
      rewrite Hq, Hf. by erewrite pv_lookup by done. }
    split; [|split].
    + rewrite pv_set_pc, decide_True by (done || simpl; lia). simpl.
      by rewrite list_lookup_insert_ne, Hri by lia.
    + intros k Hk. apply Hother; [done|].
      destruct q; simpl in *; try done; repeat case_match; bool_facts; try done; lia.
    + intros k. destruct (decide (k = i)) as [->|Hk].
      * rewrite pv_set_pc, decide_True by (done || simpl; lia). simpl.
        rewrite list_lookup_insert_ne, Hri by lia. by erewrite pv_lookup by done.
      * apply Hother; [done|].
        destruct q; simpl in *; try done; repeat case_match; bool_facts; try done; lia.
Qed.

Lemma pending_count_same s s' :
  (∀ k, undec s' k = undec s k) → ∀ j, pending_count s' j = pending_count s j.
Proof.
  intros Hsame j. unfold pending_count. apply count_ext. intros k _.
  by rewrite Hsame.
Qed.

Lemma pending_count_faa s s' i j l :
  i < N → undec s i = j :: l → undec s' i = l → j ∉ l →
  (∀ k, k ≠ i → undec s' k = undec s k) →
  pending_count s j = S (pending_count s' j)
  ∧ ∀ j', j' ≠ j → pending_count s' j' = pending_count s j'.
Proof.
  intros Hi Hun Hun' Hnin Hother. unfold pending_count. split.
  - apply (count_remove _ _ N i); [done| | |].
    + intros k _ Hk. by rewrite Hother.
    + rewrite Hun. by left.
    + by rewrite Hun'.
  - intros j' Hj'. apply count_ext. intros k _.
    destruct (decide (k = i)) as [->|Hk]; [|by rewrite Hother].
    rewrite Hun, Hun'. rewrite elem_of_cons. split; [by right|intros [?|?]; [congruence|done]].
Qed.

Lemma todo_nodup s i p :
  shape_inv s → index_contract_ranges → pcs s !! i = Some p → NoDup (todo_of p).
Proof.
  intros Hsh (_ & _ & Hnd) Hp.
  destruct (si_suffix _ Hsh _ _ Hp) as [k Hk].
  specialize (Hnd i). rewrite Hk in Hnd. by apply NoDup_app in Hnd as (_ & _ & ?).
Qed.

Lemma step_iter_flag_mono i s s' :
  step_iter i s = Some s' → should_continue s = true → should_continue s' = true.
Proof. intros H. step_iter_cases H; unfold_sets; try done. by intros ->. Qed.

(** The counters after a step, from the effect of the step. *)
Lemma count_inv_step_rem i s s' :
  shape_inv s → count_inv s → index_contract_ranges →
  step_iter i s = Some s' →
  (∀ j r, remainingSmallerFinalsVec s' !! j = Some r →
     r = if has_emitted s' j then (-1)%Z else Z.of_nat (pending_count s' j))
  ∧ (∀ j, pending_count s' j ≤ pending_count s j)
  ∧ (∀ j, has_emitted s' j = true →
       has_emitted s j = true ∨ (j = i ∧ ∃ r, pcs s !! i = Some (DecWrite r)))
  ∧ (∀ j, has_emitted s j = true → has_emitted s' j = true)
  ∧ (∀ k, undec s' k = undec s k
          ∨ (k = i ∧ ∃ isC j l, pcs s !! i = Some (Faa isC j l)
             ∧ undec s i = j :: l ∧ undec s' i = l)).
Proof.
  intros Hsh Hci Hic Hstep.
  destruct (step_iter_effect _ _ _ Hsh Hci Hic Hstep) as (p & p' & Hp & Hpcs & Heff).
  assert (i < N) as Hi by (rewrite <- (si_len_pcs _ Hsh); by eapply lookup_lt_Some).
  destruct p as [| | |r0| |isC|isC l|isC j0 l|isC e0 j0 l|isC j0 l|isC j0 l|].
  all: try (destruct Heff as (Hrem & Hun & Hem);
            pose proof (pending_count_same _ _ Hun) as Hpc;
            split; [|split; [|split; [|split]]];
            [intros j r'; rewrite Hrem, Hem, Hpc; by apply (ci_rem _ Hci)
            |intros j; by rewrite Hpc
            |intros j; rewrite Hem; by left
            |intros j; by rewrite Hem
            |intros k; by left]).
  - destruct Heff as (Hrem & _ & Hun & Hem & Hei & Hei').
    pose proof (pending_count_same _ _ Hun) as Hpc.
    pose proof (ci_decwrite _ Hci _ _ Hp) as ->.
    split; [|split; [|split; [|split]]].
    4:{ intros j Hj. destruct (decide (j = i)) as [->|]; [done|]. by rewrite Hem. }
    4:{ intros k. by left. }
    + intros j r'. rewrite Hrem, Hpc. intros Hj.
      apply list_lookup_insert_Some in Hj as [(<- & <- & _)|(Hne & Hj)].
      * by rewrite Hei'.
      * rewrite Hem by done. by apply (ci_rem _ Hci).
    + intros j. by rewrite Hpc.
    + intros j Hj. destruct (decide (j = i)) as [->|]; [right; eauto|].
      left. by rewrite <- Hem.
  - destruct Heff as (x & Hx & Hx1 & Hrem & _ & Hun & Hun' & Hother & Hem).
    assert (j0 ∉ l) as Hnin.
    { pose proof (todo_nodup _ _ _ Hsh Hic Hp) as Hnd. simpl in Hnd.
      by apply NoDup_cons in Hnd as [? _]. }
    destruct (pending_count_faa _ _ _ _ _ Hi Hun Hun' Hnin Hother) as [Hc1 Hc2].
    destruct (undec_target_pending s i j0 x Hsh Hci Hic) as (_ & Hej & _);
      [rewrite Hun; by left|done|].
    split; [|split; [|split; [|split]]].
    4:{ intros j. by rewrite Hem. }
    4:{ intros k. destruct (decide (k = i)) as [->|Hk]; [right|left; by apply Hother].
        split; [done|]. eauto 10. }
    + intros j r'. rewrite Hrem, Hem. intros Hj.
      apply list_lookup_insert_Some in Hj as [(<- & <- & _)|(Hne & Hj)].
      * rewrite Hej. pose proof (ci_rem _ Hci _ _ Hx) as Hxc. rewrite Hej in Hxc. lia.
      * rewrite Hc2 by done. by apply (ci_rem _ Hci).
    + intros j. destruct (decide (j = j0)) as [->|]; [lia|]. by rewrite Hc2.
    + intros j. rewrite Hem. by left.
Qed.

Lemma count_inv_step e s s' :
  shape_inv s → count_inv s → index_contract_ranges →
  step e s = Some s' → count_inv s'.
Proof.
  intros Hsh Hci Hic Hstep. destruct e as [i|]; simpl in Hstep.
  - destruct (count_inv_step_rem _ _ _ Hsh Hci Hic Hstep) as (Hrem & Hle & Hem & _).
    pose proof (step_iter_flag_mono _ _ _ Hstep) as Hflag.
    pose proof (si_len_pcs _ Hsh) as Hlp. pose proof (si_len_rem _ Hsh) as Hlr.
    split; [done|..].
    + (* started vertices have no pending smaller neighbour *)
      intros j q Hq Hst. specialize (Hle j).
      enough (pending_count s j = 0) by lia.
      destruct (step_iter_pcs _ _ _ _ _ _ Hstep) as (p & p' & Hp & _ & Hpcs & Hact & _).
      pose proof (lookup_lt_Some _ _ _ Hp) as Hi.
      rewrite Hpcs in Hq. apply list_lookup_insert_Some in Hq as [(<- & <- & _)|(Hne & Hq)].
      * destruct (activated p) eqn:Hap; [by eapply (ci_started _ Hci); eauto|].
        destruct Hst as [Hap'|He'].
        -- clear Hem Hrem Hflag.
           assert (pcs s' !! i = Some p') as Hq'.
           { rewrite Hpcs. apply list_lookup_insert_eq. by eapply lookup_lt_Some. }
           clear Hpcs.
           step_iter_cases Hstep; simplify_eq; try done.
           all: unfold_sets; rewrite list_lookup_insert_eq in Hq' by lia.
           all: repeat case_match; simplify_eq; bool_facts; try done.
           pose proof (ci_rem _ Hci _ _ Hrd) as Hr.
           destruct (has_emitted s i); lia.
        -- destruct (Hem _ He') as [He|(_ & r & Hr)].
           ++ eapply (ci_started _ Hci); eauto.
           ++ by simplify_eq.
      * destruct Hst as [Ha|He']; [by eapply (ci_started _ Hci); eauto|].
        destruct (Hem _ He') as [He|(? & _)]; [|done].
        eapply (ci_started _ Hci); eauto.
    + (* the value loaded by [--rem[i]] *)
      intros k r Hk. clear Hem Hrem Hflag.
      step_iter_cases Hstep; unfold_sets; inv_lookup;
        try (by eapply (ci_decwrite _ Hci)); repeat case_match; simplify_eq.
      pose proof (ci_rem _ Hci _ _ Hrd) as Hr.
      assert (has_emitted s k = false) as He
        by (unfold has_emitted; by erewrite pv_lookup by done).
      rewrite He in Hr. rewrite (ci_started _ Hci _ _ Hpc) in Hr; [done|by left].
    + (* the flag at the fetch-and-add *)
      intros k isC j l Hk. clear Hem Hrem.
      step_iter_cases Hstep; unfold_sets; inv_lookup;
        try (by eapply (ci_faa _ Hci)); repeat case_match; simplify_eq.
      * destruct (undec_target_pending s k j x Hsh Hci Hic) as (Hx & _); [|done|].
        { erewrite undec_activated by done. by left. }
        apply orb_true_iff. right. by apply Z.leb_le.
      * apply Hflag. by eapply (ci_faa _ Hci).
    + (* a vertex that was skipped with a counter that is now zero *)
      intros j Hj Hj0. clear Hem Hrem Hle.
      step_iter_cases Hstep; unfold_sets; inv_lookup;
        repeat case_match; simplify_eq; bool_facts; try lia.
      all: try (by eapply (ci_skip _ Hci)).
      all: try (apply Hflag; by eapply (ci_skip _ Hci)).
      all: try (by eapply (ci_faa _ Hci)).
  - unfold step_wave in Hstep. case_match eqn:Hfin; [|done]. simplify_eq.
    apply andb_true_iff in Hfin as [Hfin _].
    rewrite forallb_forall in Hfin.
    assert (∀ k, undec (begin_wave s) k = undec s k
                 ∧ has_emitted (begin_wave s) k = has_emitted s k) as Hview.
    { intros k. unfold undec, has_emitted, per_vertex. simpl.
      destruct (pcs s !! k) as [p|] eqn:Hp.
      - rewrite lookup_replicate_2 by by eapply lookup_lt_Some.
        destruct (remainingSmallerFinalsVec s !! k) as [r|] eqn:Hr; [|done].
        assert (finished p = true) as Hf.
        { apply Hfin. apply list_elem_of_In, list_elem_of_lookup. eauto. }
        pose proof (ci_rem _ Hci _ _ Hr) as Hrk.
        unfold has_emitted in Hrk. erewrite pv_lookup in Hrk by done.
        destruct p as [| | | | | |isC [|]| | | | |]; try done. simpl in *.
        subst r. done.
      - apply lookup_ge_None in Hp.
        by rewrite (proj1 (lookup_replicate_None _ Start k) Hp). }
    assert (∀ j, pending_count (begin_wave s) j = pending_count s j) as Hpc.
    { apply pending_count_same. intros k. apply Hview. }
    split.
    + intros j r Hr. rewrite (proj2 (Hview j)), Hpc. by apply (ci_rem _ Hci).
    + intros j p (-> & Hj)%lookup_replicate [?|He]; [done|].
      rewrite (proj2 (Hview j)) in He. rewrite Hpc.
      destruct (lookup_lt_is_Some_2 (pcs s) j Hj) as [q Hq].
      eapply (ci_started _ Hci); eauto.
    + intros i r (? & _)%lookup_replicate. done.
    + intros i isC j l (? & _)%lookup_replicate. done.
    + intros j (? & _)%lookup_replicate. done.
Qed.

(** The state in which the threads first reach the [while]. *)
Definition initial (rem0 : list Z) (s0 : state) : Prop :=
  cp_vec s0 = seq 0 N ∧ remainingSmallerFinalsVec s0 = rem0
  ∧ pcs s0 = replicate N Skip ∧ should_continue s0 = true.

Lemma contract_ranges rem0 : index_contract rem0 → index_contract_ranges.
Proof. intros [? ? ? ? ?]. done. Qed.

Lemma shape_inv_initial rem0 s0 :
  index_contract rem0 → initial rem0 s0 → shape_inv s0.
Proof.
  intros Hic (Hcp & Hrem & Hpcs & _). split.
  - by rewrite Hcp, length_seq.
  - rewrite Hrem. apply (ic_len_rem _ Hic).
  - by rewrite Hpcs, length_replicate.
  - rewrite Hpcs. intros i p (-> & _)%lookup_replicate. apply suffix_nil.
Qed.

Lemma count_inv_initial rem0 s0 :
  index_contract rem0 → initial rem0 s0 → count_inv s0.
Proof.
  intros Hic (Hcp & Hrem & Hpcs & Hflag).
  assert (∀ j r, remainingSmallerFinalsVec s0 !! j = Some r →
            r = Z.of_nat (length (filter (λ i, j ∈ bigger_of i) (seq 0 N)))) as Hr0.
  { intros j r Hr. rewrite Hrem in Hr.
    rewrite (ic_rem _ Hic) in Hr by (rewrite <- (ic_len_rem _ Hic); by eapply lookup_lt_Some).
    congruence. }
  assert (∀ j, j < N → undec s0 j = bigger_of j ∧ has_emitted s0 j = false) as Hview.
  { intros j Hj.
    destruct (lookup_lt_is_Some_2 (remainingSmallerFinalsVec s0) j) as [r Hr].
    { by rewrite Hrem, (ic_len_rem _ Hic). }
    pose proof (Hr0 _ _ Hr) as Hr'.
    unfold undec, has_emitted, per_vertex.
    rewrite Hpcs, lookup_replicate_2, Hr by done. simpl.
    assert ((r <? 0)%Z = false) as -> by (apply Z.ltb_ge; lia). done. }
  assert (∀ j, pending_count s0 j
               = length (filter (λ i, j ∈ bigger_of i) (seq 0 N))) as Hpc.
  { intros j. unfold pending_count. apply count_ext. intros k Hk.
    by rewrite (proj1 (Hview k Hk)). }
  split.
  - intros j r Hr. assert (j < N) as Hj.
    { rewrite <- (ic_len_rem _ Hic), <- Hrem. by eapply lookup_lt_Some. }
    rewrite (proj2 (Hview j Hj)), Hpc. by apply Hr0.
  - rewrite Hpcs. intros j p (-> & Hj)%lookup_replicate [?|He]; [done|].
    by rewrite (proj2 (Hview j Hj)) in He.
  - rewrite Hpcs. intros i r (? & _)%lookup_replicate. done.
  - rewrite Hpcs. intros i isC j l (? & _)%lookup_replicate. done.
  - done.
Qed.

(** The part of the invariant that says what the parent pointers are. *)
Definition pc_isC (p : pc) : option bool :=
  match p with
  | Count b | Loop b _ | CasRead b _ _ | CasTry b _ _ _ | Flag b _ _ | Faa b _ _ =>
      Some b
  | _ => None
  end.

Record parent_inv (s : state) : Prop := {
  pi_parent : ∀ j c, cp_vec s !! j = Some c → c ≠ j →
      c < j ∧ j ∈ bigger_of c ∧ cp_vec s !! c = Some c ∧ has_emitted s c = true;
  pi_isC : ∀ i p isC, pcs s !! i = Some p → pc_isC p = Some isC →
      ∃ c, cp_vec s !! i = Some c ∧ isC = bool_decide (c = i);
  pi_cas_isC : ∀ i p, pcs s !! i = Some p →
      match p with
      | CasRead isC _ _ | CasTry isC _ _ _ => isC = true
      | _ => True
      end;
  pi_done : ∀ i j, cp_vec s !! i = Some i → has_emitted s i = true →
      j ∈ bigger_of i → j ∉ cas_todo s i →
      ∃ c, cp_vec s !! j = Some c ∧ c ≤ i
}.

(** Entering the next wave changes none of the views. *)
Lemma begin_wave_views s k :
  count_inv s → forallb finished (pcs s) = true →
  undec (begin_wave s) k = undec s k
  ∧ has_emitted (begin_wave s) k = has_emitted s k
  ∧ cas_todo (begin_wave s) k = cas_todo s k.
Proof.
  intros Hci Hfin. rewrite forallb_forall in Hfin.
  unfold undec, has_emitted, cas_todo, per_vertex. simpl.
  destruct (pcs s !! k) as [p|] eqn:Hp.
  - rewrite lookup_replicate_2 by by eapply lookup_lt_Some.
    destruct (remainingSmallerFinalsVec s !! k) as [r|] eqn:Hr; [|done].
    assert (finished p = true) as Hf.
    { apply Hfin. apply list_elem_of_In, list_elem_of_lookup. eauto. }
    pose proof (ci_rem _ Hci _ _ Hr) as Hrk.
    unfold has_emitted in Hrk. erewrite pv_lookup in Hrk by done.
    destruct p as [| | | | | |isC [|]| | | | |]; try done. simpl in *.
    subst r. done.
  - apply lookup_ge_None in Hp.
    by rewrite (proj1 (lookup_replicate_None _ Start k) Hp).
Qed.

Lemma step_iter_cp i s s' :
  step_iter i s = Some s' →
  cp_vec s' = cp_vec s
  ∨ ∃ isC e j l, pcs s !! i = Some (CasTry isC e j l) ∧ cp_vec s !! j = Some e
      ∧ cp_vec s' = <[j:=i]> (cp_vec s).
Proof.
  intros H. step_iter_cases H; unfold_sets; eauto. bool_facts. subst. eauto 10.
Qed.

Lemma cas_todo_alt s k :
  shape_inv s →
  cas_todo s k = match pcs s !! k with
                 | Some (Flag _ _ l) | Some (Faa _ _ l) => l
                 | _ => undec s k
                 end.
Proof.
  intros Hsh. unfold cas_todo, undec, per_vertex.
  destruct (pcs s !! k) as [p|] eqn:Hp; [|done].
  destruct (lookup_lt_is_Some_2 (remainingSmallerFinalsVec s) k) as [r ->].
  { rewrite (si_len_rem _ Hsh), <- (si_len_pcs _ Hsh). by eapply lookup_lt_Some. }
  by destruct p.
Qed.

Lemma has_emitted_pcs s k :
  has_emitted s k = true → ∃ p r, pcs s !! k = Some p
    ∧ remainingSmallerFinalsVec s !! k = Some r ∧ has_emitted_pc r p = true.
Proof.
  unfold has_emitted, per_vertex.
  destruct (pcs s !! k) as [p|]; [|done].
  destruct (remainingSmallerFinalsVec s !! k) as [r|]; [|done]. eauto.
Qed.

Lemma step_iter_isC i s s' p p' b :
  step_iter i s = Some s' → pcs s !! i = Some p → pcs s' !! i = Some p' →
  pc_isC p' = Some b →
  (pc_isC p = Some b ∧ emitted p = true)
  ∨ (p = ReadCent ∧ cp_vec s' = cp_vec s
     ∧ ∃ c, cp_vec s !! i = Some c ∧ b = bool_decide (c = i)).
Proof.
  intros H Hp Hp'. pose proof (lookup_lt_Some _ _ _ Hp) as Hi.
  step_iter_cases H; unfold_sets; rewrite list_lookup_insert_eq in Hp' by done;
    simplify_eq; repeat case_match; simplify_eq; simpl; intros; simplify_eq;
    eauto 10.
Qed.

Lemma step_iter_cas_isC i s s' p p' :
  step_iter i s = Some s' → pcs s !! i = Some p → pcs s' !! i = Some p' →
  match p with CasRead isC _ _ | CasTry isC _ _ _ => isC = true | _ => True end →
  match p' with CasRead isC _ _ | CasTry isC _ _ _ => isC = true | _ => True end.
Proof.
  intros H Hp Hp'. pose proof (lookup_lt_Some _ _ _ Hp) as Hi.
  step_iter_cases H; unfold_sets; rewrite list_lookup_insert_eq in Hp' by done;
    simplify_eq; repeat case_match; simplify_eq; done.
Qed.

(** When a vertex leaves the compare-and-swap on a neighbour. *)
Lemma step_iter_cas_done i s s' p p' r r' :
  step_iter i s = Some s' → pcs s !! i = Some p → pcs s' !! i = Some p' →
  remainingSmallerFinalsVec s !! i = Some r →
  remainingSmallerFinalsVec s' !! i = Some r' →
  has_emitted_pc r' p' = true →
  ∀ j, j ∈ bigger_of i → j ∉ cas_todo_pc (bigger_of i) r' p' →
  (has_emitted_pc r p = true ∧ j ∉ cas_todo_pc (bigger_of i) r p)
  ∨ ∃ isC l, p' = Flag isC j l
      ∧ ((p = Loop isC (j :: l)
          ∧ (isC = false ∨ ∃ x, remainingSmallerFinalsVec s !! j = Some x ∧ (x ≤ 0)%Z))
         ∨ (∃ e, p = CasRead isC j l ∧ cp_vec s !! j = Some e ∧ e ≤ i)
         ∨ (∃ e, p = CasTry isC e j l ∧ cp_vec s' !! j = Some i)).
Proof.
  intros H Hp Hp' Hr Hr'. pose proof (lookup_lt_Some _ _ _ Hp) as Hi.
  step_iter_cases H; unfold_sets; rewrite list_lookup_insert_eq in Hp' by done.
  all: simplify_eq; repeat case_match; simplify_eq; bool_facts; simpl.
  all: intros He j' Hj Hnin; try done.
  all: try (left; split; [done|]; simpl; by auto).
  all: try (destruct (decide (j' = j)) as [->|Hne];
            [|left; split; [done|]; simpl; rewrite not_elem_of_cons; by auto]).
  all: try (right; eexists _, _; split; [done|]).
  - unfold bigger_of in Hj. rewrite Hrd0 in Hj. done.
  - unfold bigger_of in Hj. rewrite Hrd0 in Hj. done.
  - left. split; [done|]. right. eexists. split; [done|lia].
  - left. eauto.
  - right. left. eauto.
  - right. right. eexists. split; [done|].
    apply list_lookup_insert_eq. by eapply lookup_lt_Some.
Qed.

Lemma parent_inv_step e s s' :
  basic_inv s → shape_inv s → count_inv s → index_contract_ranges →
  parent_inv s → step e s = Some s' → parent_inv s'.
Proof.
  intros Hb Hsh Hci Hic Hpi Hstep. destruct e as [i|]; simpl in Hstep.
  - destruct (count_inv_step_rem _ _ _ Hsh Hci Hic Hstep)
      as (_ & _ & Hem1 & Hem2 & Hun).
    pose proof (step_iter_cp _ _ _ Hstep) as Hcp.
    destruct (step_iter_pcs _ _ _ _ _ _ Hstep) as (p & p' & Hp & _ & Hpcs & _ & _).
    pose proof (lookup_lt_Some _ _ _ Hp) as Hi.
    pose proof (si_len_pcs _ Hsh) as Hlp. pose proof (si_len_rem _ Hsh) as Hlr.
    pose proof (si_len_cp _ Hsh) as Hlc.
    pose proof (shape_inv_step (Iter i) _ _ Hsh Hstep) as Hsh'.
    (* the target of a compare-and-swap has not emitted, and is bigger *)
    assert (∀ isC e j l, pcs s !! i = Some (CasTry isC e j l) →
              i < j ∧ j < N ∧ has_emitted s j = false ∧ i < e
              ∧ cp_vec s !! i = Some i) as Hcas.
    { intros isC e j l Hq.
      assert (j ∈ undec s i) as Hin
        by (rewrite (undec_activated _ _ _ Hsh Hq eq_refl); by left).
      assert (j < N) as Hj by (apply (undec_subseteq _ _ _ Hsh), Hic in Hin; lia).
      destruct (lookup_lt_is_Some_2 (remainingSmallerFinalsVec s) j) as [x Hx]; [lia|].
      destruct (undec_target_pending s i j x Hsh Hci Hic Hin Hx) as (_ & He & _).
      apply (undec_subseteq _ _ _ Hsh), Hic in Hin.
      destruct (bi_cas _ Hb _ _ _ _ _ Hq) as (? & _).
      pose proof (pi_cas_isC _ Hpi _ _ Hq) as HisC. simpl in HisC. subst isC.
      destruct (pi_isC _ Hpi _ _ true Hq eq_refl) as (c & Hc & Hcc).
      symmetry in Hcc. apply bool_decide_eq_true in Hcc. subst c.
      repeat split; try done; lia. }
    (* parent pointers only decrease, and centroids were centroids *)
    assert (∀ j c, cp_vec s !! j = Some c →
              ∃ c', cp_vec s' !! j = Some c' ∧ c' ≤ c) as Hmono.
    { intros j c Hj. destruct Hcp as [->|(isC & e & j0 & l & Hq & He & ->)]; [eauto|].
      destruct (decide (j = j0)) as [->|].
      - exists i. rewrite list_lookup_insert_eq by by eapply lookup_lt_Some.
        destruct (Hcas _ _ _ _ Hq) as (_ & _ & _ & ? & _). simplify_eq. split; [done|lia].
      - exists c. by rewrite list_lookup_insert_ne. }
    assert (∀ k, cp_vec s' !! k = Some k → cp_vec s !! k = Some k) as Hcent.
    { intros k Hk. destruct Hcp as [<-|(isC & e & j0 & l & Hq & He & Hcp)]; [done|].
      rewrite Hcp in Hk. apply list_lookup_insert_Some in Hk as [(-> & -> & _)|(_ & ?)];
        [|done]. destruct (Hcas _ _ _ _ Hq). lia. }
    assert (∀ k, has_emitted s k = true → cp_vec s' !! k = cp_vec s !! k) as Hstable.
    { intros k Hk. destruct Hcp as [->|(isC & e & j0 & l & Hq & He & ->)]; [done|].
      destruct (Hcas _ _ _ _ Hq) as (_ & _ & Hej & _).
      rewrite list_lookup_insert_ne; [done|]. intros ->. congruence. }
    split.
    + (* parents *)
      intros j c Hj Hne.
      destruct Hcp as [Hcp|(isC & e & j0 & l & Hq & He & Hcp)].
      * rewrite Hcp in *. destruct (pi_parent _ Hpi _ _ Hj Hne) as (? & ? & ? & ?).
        repeat split; try done. by apply Hem2.
      * destruct (Hcas _ _ _ _ Hq) as (Hij & Hj0 & Hej & Hie & Hci').
        assert (p = CasTry isC e j0 l) as -> by congruence.
        rewrite Hcp in Hj. apply list_lookup_insert_Some in Hj as [(<- & <- & _)|(Hne' & Hj)].
        -- split; [done|]. split.
           { eapply (undec_subseteq _ _ _ Hsh).
             rewrite (undec_activated _ _ _ Hsh Hq eq_refl). by left. }
           assert (has_emitted s i = true) as Hei.
           { destruct (lookup_lt_is_Some_2 (remainingSmallerFinalsVec s) i) as [r Hr]; [lia|].
             unfold has_emitted. by erewrite pv_lookup by done. }
           split; [|by apply Hem2]. rewrite Hstable by done. done.
        -- destruct (pi_parent _ Hpi _ _ Hj Hne) as (? & ? & Hcc & Hec).
           repeat split; try done; [|by apply Hem2]. by rewrite Hstable.
    + (* the recorded [isCentroid] *)
      intros k q b Hk Hqb.
      assert (∀ q0, pcs s !! k = Some q0 → pc_isC q0 = Some b → emitted q0 = true →
                ∃ c, cp_vec s' !! k = Some c ∧ b = bool_decide (c = k)) as Hold.
      { intros q0 Hq0 Hb0 He0.
        destruct (pi_isC _ Hpi _ _ _ Hq0 Hb0) as (c & Hc & ->).
        exists c. split; [|done]. rewrite Hstable; [done|].
        destruct (lookup_lt_is_Some_2 (remainingSmallerFinalsVec s) k) as [r Hr].
        { rewrite Hlr, <- Hlp. by eapply lookup_lt_Some. }
        unfold has_emitted. erewrite pv_lookup by done. by destruct q0. }
      destruct (decide (k = i)) as [->|Hne].
      * destruct (step_iter_isC _ _ _ _ _ _ Hstep Hp Hk Hqb)
          as [[Hpb Hpe]|(-> & Hcp' & c & Hc & ->)]; [by eapply Hold|].
        exists c. by rewrite Hcp'.
      * rewrite Hpcs, list_lookup_insert_ne in Hk by done.
        eapply Hold; [done..|]. by destruct q.
    + (* the compare-and-swap loop is entered by centroids only *)
      intros k q Hk. destruct (decide (k = i)) as [->|Hne].
      * eapply step_iter_cas_isC; [done..|]. by apply (pi_cas_isC _ Hpi i).
      * rewrite Hpcs, list_lookup_insert_ne in Hk by done. by apply (pi_cas_isC _ Hpi k).
    + (* the neighbours that a centroid has dealt with *)
      intros k j Hck Hek Hjk Hnin. apply Hcent in Hck.
      assert (has_emitted s k = true → j ∉ cas_todo s k →
                ∃ c, cp_vec s' !! j = Some c ∧ c ≤ k) as Hold.
      { intros He Hn. destruct (pi_done _ Hpi _ _ Hck He Hjk Hn) as (c & Hc & ?).
        destruct (Hmono _ _ Hc) as (c' & ? & ?). exists c'. split; [done|lia]. }
      destruct (has_emitted_pcs _ _ Hek) as (q' & r' & Hq' & Hr' & He').
      destruct (decide (k = i)) as [->|Hne].
      * destruct (lookup_lt_is_Some_2 (remainingSmallerFinalsVec s) i) as [r Hr]; [lia|].
        unfold cas_todo in Hnin. erewrite pv_lookup in Hnin by done.
        destruct (step_iter_cas_done _ _ _ _ _ _ _ Hstep Hp Hq' Hr Hr' He' _ Hjk Hnin)
          as [[He Hn]|(isC & l & -> & Hcase)].
        -- apply Hold.
           ++ unfold has_emitted. by erewrite pv_lookup by done.
           ++ unfold cas_todo. by erewrite pv_lookup by done.
        -- destruct Hcase as [(-> & HisC)|[(e & -> & He & Hle)|(e & -> & He)]].
           ++ exfalso. destruct HisC as [->|(x & Hx & Hx0)].
              ** destruct (pi_isC _ Hpi _ _ false Hp eq_refl) as (c & Hc & Hcc).
                 symmetry in Hcc. apply bool_decide_eq_false in Hcc. congruence.
              ** destruct (undec_target_pending s i j x Hsh Hci Hic) as (? & _);
                   [|done|lia].
                 rewrite (undec_activated _ _ _ Hsh Hp eq_refl). by left.
           ++ destruct (Hmono _ _ He) as (c' & ? & ?). exists c'. split; [done|lia].
           ++ exists i. done.
      * apply Hold.
        -- destruct (Hem1 _ Hek) as [?|(? & _)]; done.
        -- rewrite (cas_todo_alt _ _ Hsh). rewrite (cas_todo_alt _ _ Hsh') in Hnin.
           rewrite Hpcs, list_lookup_insert_ne in Hnin by done.
           destruct (Hun k) as [Hu|(? & _)]; [|done]. by rewrite Hu in Hnin.
  - unfold step_wave in Hstep. case_match eqn:Hfin; [|done]. simplify_eq.
    apply andb_true_iff in Hfin as [Hfin _].
    pose proof (λ k, begin_wave_views s k Hci Hfin) as Hview.
    split.
    + intros j c Hj Hne. rewrite (proj1 (proj2 (Hview c))).
      by apply (pi_parent _ Hpi).
    + intros i p isC (-> & _)%lookup_replicate. done.
    + intros i p (-> & _)%lookup_replicate. done.
    + intros i j Hi He Hj Hn. rewrite (proj1 (proj2 (Hview i))) in He.
      rewrite (proj2 (proj2 (Hview i))) in Hn. by apply (pi_done _ Hpi).
Qed.

Lemma parent_inv_initial rem0 s0 :
  index_contract rem0 → initial rem0 s0 → parent_inv s0.
Proof.
  intros Hic (Hcp & Hrem & Hpcs & Hflag). split.
  - rewrite Hcp. intros j c (-> & _)%lookup_seq. done.
  - rewrite Hpcs. intros i p isC (-> & _)%lookup_replicate. done.
  - rewrite Hpcs. intros i p (-> & _)%lookup_replicate. done.
  - intros i j _ He. exfalso.
    destruct (has_emitted_pcs _ _ He) as (p & r & Hp & Hr & Hep).
    rewrite Hpcs in Hp. apply lookup_replicate in Hp as [-> Hi].
    rewrite Hrem, (ic_rem _ Hic) in Hr by done. simplify_eq. simpl in Hep.
    apply Z.ltb_lt in Hep. lia.
Qed.

(** All the invariants together, along every execution. *)
Definition wave_inv (s : state) : Prop :=
  basic_inv s ∧ shape_inv s ∧ count_inv s ∧ parent_inv s.

Lemma wave_inv_exec rem0 s0 sched s :
  index_contract rem0 → initial rem0 s0 → basic_inv s0 →
  exec sched s0 = Some s → wave_inv s.
Proof.
  intros Hic Hinit Hb0. revert sched s. apply exec_invariant.
  - split; [|split; [|split]];
      [done|by eapply shape_inv_initial|by eapply count_inv_initial
      |by eapply parent_inv_initial].
  - intros e s s' (Hb & Hsh & Hci & Hpi) Hstep.
    pose proof (contract_ranges _ Hic) as Hr.
    split; [|split; [|split]];
      [by eapply basic_inv_step|by eapply shape_inv_step
      |by eapply count_inv_step|by eapply parent_inv_step].
Qed.

(** *** When the loop is left *)

Lemma finished_emitted_views b r p :
  finished p = true → has_emitted_pc r p = true →
  undec_pc b r p = [] ∧ cas_todo_pc b r p = [].
Proof. destruct p as [| | | | | |isC [|]| | | | |]; simpl; try done; by intros _ ->. Qed.

(** Every vertex has emitted when the loop is left: the smallest vertex that
    has not would have a counter of zero, and the wave that skipped it raised
    the flag. *)
Lemma terminal_all_emitted s :
  wave_inv s → index_contract_ranges → terminal s = true →
  ∀ j, j < N → has_emitted s j = true.
Proof.
  intros (Hb & Hsh & Hci & Hpi) Hic Hterm.
  apply andb_true_iff in Hterm as [Hfin Hflag]. apply negb_true_iff in Hflag.
  rewrite forallb_forall in Hfin.
  intros j. induction j as [j IH] using lt_wf_ind. intros Hj.
  destruct (lookup_lt_is_Some_2 (pcs s) j) as [p Hp]; [by rewrite (si_len_pcs _ Hsh)|].
  destruct (lookup_lt_is_Some_2 (remainingSmallerFinalsVec s) j) as [r Hr];
    [by rewrite (si_len_rem _ Hsh)|].
  assert (finished p = true) as Hf.
  { apply Hfin. apply list_elem_of_In, list_elem_of_lookup. eauto. }
  destruct (has_emitted s j) eqn:He; [done|]. exfalso.
  assert (pending_count s j = 0) as Hz.
  { apply count_zero. intros i Hi Hin.
    pose proof (undec_subseteq _ _ _ Hsh Hin) as Hb'. apply Hic in Hb'.
    specialize (IH i ltac:(lia) ltac:(lia)).
    destruct (has_emitted_pcs _ _ IH) as (q & rq & Hq & Hrq & Heq).
    assert (finished q = true) as Hfq.
    { apply Hfin. apply list_elem_of_In, list_elem_of_lookup. eauto. }
    unfold undec in Hin. erewrite pv_lookup in Hin by done.
    rewrite (proj1 (finished_emitted_views _ _ _ Hfq Heq)) in Hin.
    by apply elem_of_nil in Hin. }
  pose proof (ci_rem _ Hci _ _ Hr) as Hrj. rewrite He, Hz in Hrj. subst r.
  unfold has_emitted in He. erewrite pv_lookup in He by done.
  destruct p as [| | | | | |isC [|]| | | | |]; try done.
  pose proof (ci_skip _ Hci _ Hp Hr). congruence.
Qed.

(** The parent array that the welders compute, described without reference
    to any execution: a vertex points to itself or to a smaller centroid that
    has it as a neighbour, and it points at or below every centroid that has
    it as a neighbour. *)
Record greedy_parents (cp : list nat) : Prop := {
  gp_len : length cp = N;
  gp_parent : ∀ j c, cp !! j = Some c → c ≠ j →
      c < j ∧ j ∈ bigger_of c ∧ cp !! c = Some c;
  gp_least : ∀ i j, cp !! i = Some i → j ∈ bigger_of i →
      ∃ c, cp !! j = Some c ∧ c ≤ i
}.

Lemma terminal_greedy s :
  wave_inv s → index_contract_ranges → terminal s = true →
  greedy_parents (cp_vec s).
Proof.
  intros Hw Hic Hterm. pose proof (terminal_all_emitted _ Hw Hic Hterm) as Hall.
  destruct Hw as (Hb & Hsh & Hci & Hpi).
  apply andb_true_iff in Hterm as [Hfin _]. rewrite forallb_forall in Hfin.
  split.
  - apply (si_len_cp _ Hsh).
  - intros j c Hj Hne. destruct (pi_parent _ Hpi _ _ Hj Hne) as (? & ? & ? & _). done.
  - intros i j Hi Hj. assert (i < N) as HiN.
    { rewrite <- (si_len_cp _ Hsh). by eapply lookup_lt_Some. }
    pose proof (Hall i HiN) as He.
    apply (pi_done _ Hpi); [done..|].
    destruct (has_emitted_pcs _ _ He) as (q & rq & Hq & Hrq & Heq).
    assert (finished q = true) as Hfq.
    { apply Hfin. apply list_elem_of_In, list_elem_of_lookup. eauto. }
    unfold cas_todo. erewrite pv_lookup by done.
    rewrite (proj2 (finished_emitted_views _ _ _ Hfq Heq)). apply not_elem_of_nil.
Qed.

Lemma greedy_parents_unique cp cp' :
  greedy_parents cp → greedy_parents cp' → cp = cp'.
Proof.
  intros [Hl Hp Hle] [Hl' Hp' Hle'].
  assert (∀ j, j < N → cp !! j = cp' !! j) as Heq.
  { intros j. induction j as [j IH] using lt_wf_ind. intros Hj.
    destruct (lookup_lt_is_Some_2 cp j) as [c Hc]; [lia|].
    destruct (lookup_lt_is_Some_2 cp' j) as [c' Hc']; [lia|].
    rewrite Hc, Hc'. f_equal.
    destruct (decide (c = j)) as [->|Hne], (decide (c' = j)) as [->|Hne']; [done| | |].
    - destruct (Hp' _ _ Hc' Hne') as (Hlt & Hin & Hcc).
      rewrite <- IH in Hcc by lia.
      destruct (Hle _ _ Hcc Hin) as (x & Hx & ?). simplify_eq. lia.
    - destruct (Hp _ _ Hc Hne) as (Hlt & Hin & Hcc).
      rewrite IH in Hcc by lia.
      destruct (Hle' _ _ Hcc Hin) as (x & Hx & ?). simplify_eq. lia.
    - destruct (Hp _ _ Hc Hne) as (Hlt & Hin & Hcc).
      destruct (Hp' _ _ Hc' Hne') as (Hlt' & Hin' & Hcc').
      pose proof Hcc as Hcc2. rewrite IH in Hcc2 by lia.
      pose proof Hcc' as Hcc2'. rewrite <- IH in Hcc2' by lia.
      destruct (Hle' _ _ Hcc2 Hin) as (x & Hx & ?).
      destruct (Hle _ _ Hcc2' Hin') as (x' & Hx' & ?). simplify_eq. lia. }
  apply list_eq. intros j. destruct (decide (j < N)); [by apply Heq|].
  rewrite !lookup_ge_None_2; [done|lia..].
Qed.

(** In the computed array every follower points directly at a centroid. *)
Lemma greedy_parents_depth cp j c :
  greedy_parents cp → cp !! j = Some c → cp !! c = Some c.
Proof.
  intros Hg Hj. destruct (decide (c = j)) as [->|Hne]; [done|].
  by destruct (gp_parent _ Hg _ _ Hj Hne) as (_ & _ & ?).
Qed.

(** *** A vertex without neighbours *)

Section Isolated.

Variable v : nat.
Hypothesis Hv : v < N.
Hypothesis Hno_bigger : bigger_of v = [].
Hypothesis Hno_smaller : ∀ k, v ∉ bigger_of k.

Lemma isolated_pending s : shape_inv s → pending_count s v = 0.
Proof.
  intros Hsh. apply count_zero. intros k _ Hin.
  by apply (undec_subseteq _ _ _ Hsh), Hno_smaller in Hin.
Qed.

Lemma isolated_rem s r :
  wave_inv s → remainingSmallerFinalsVec s !! v = Some r →
  r = if has_emitted s v then (-1)%Z else 0%Z.
Proof.
  intros (_ & Hsh & Hci & _) Hr. rewrite (ci_rem _ Hci _ _ Hr).
  by rewrite isolated_pending.
Qed.

Lemma isolated_parent s :
  wave_inv s →
  cp_vec s !! v = Some v ∧ ∀ j, j ≠ v → cp_vec s !! j ≠ Some v.
Proof.
  intros (_ & Hsh & _ & Hpi). split.
  - destruct (lookup_lt_is_Some_2 (cp_vec s) v) as [c Hc]; [by rewrite (si_len_cp _ Hsh)|].
    destruct (decide (c = v)) as [->|Hne]; [done|].
    destruct (pi_parent _ Hpi _ _ Hc Hne) as (_ & Hin & _).
    by apply Hno_smaller in Hin.
  - intros j Hne Hj.
    destruct (pi_parent _ Hpi _ _ Hj) as (_ & Hin & _); [done|].
    rewrite Hno_bigger in Hin. by apply elem_of_nil in Hin.
Qed.

(** From the first wave on the vertex is emitted or on its way to emit. *)
Definition isolated_inv (s : state) : Prop :=
  numIterations s = 0 ∨ has_emitted s v = true
  ∨ ∃ p, pcs s !! v = Some p ∧ p ≠ Skip ∧ emitted p = false.

Lemma isolated_inv_step e s s' :
  wave_inv s → index_contract_ranges →
  isolated_inv s → step e s = Some s' → isolated_inv s'.
Proof.
  intros Hw Hic HQ Hstep. pose proof Hw as (Hb & Hsh & Hci & Hpi).
  destruct e as [i|]; simpl in Hstep.
  - destruct (count_inv_step_rem _ _ _ Hsh Hci Hic Hstep) as (_ & _ & _ & Hem & _).
    destruct (step_iter_lengths _ _ _ _ _ _ Hstep) as (_ & _ & _ & _ & Hit).
    destruct HQ as [H0|[He|(p & Hp & Hne & Hep)]].
    + left. congruence.
    + right. left. by apply Hem.
    + destruct (decide (i = v)) as [->|Hiv].
      * destruct (has_emitted s v) eqn:He; [right; left; by apply Hem|].
        assert (remainingSmallerFinalsVec s !! v = Some 0%Z) as Hr0.
        { destruct (lookup_lt_is_Some_2 (remainingSmallerFinalsVec s) v) as [r Hr];
            [by rewrite (si_len_rem _ Hsh)|].
          pose proof (isolated_rem _ _ Hw Hr) as Hr'. rewrite He in Hr'. by subst. }
        pose proof (lookup_lt_Some _ _ _ Hp) as Hlt.
        destruct (step_iter_effect _ _ _ Hsh Hci Hic Hstep)
          as (q & q' & Hq & Hpcs & Heff).
        assert (q = p) as -> by congruence.
        assert (pcs s' !! v = Some q') as Hq'.
        { rewrite Hpcs. by apply list_lookup_insert_eq. }
        destruct p; try done.
        -- right. right. exists q'. split; [done|]. clear Heff.
           step_iter_cases Hstep; unfold_sets;
             rewrite list_lookup_insert_eq in Hq' by done; simplify_eq; done.
        -- right. right. exists q'. split; [done|]. clear Heff.
           step_iter_cases Hstep; unfold_sets;
             rewrite list_lookup_insert_eq in Hq' by done; simplify_eq; done.
        -- right. right. exists q'. split; [done|]. clear Heff.
           step_iter_cases Hstep; unfold_sets;
             rewrite list_lookup_insert_eq in Hq' by done; simplify_eq. done.
        -- right. left. by destruct Heff as (_ & _ & _ & _ & _ & ?).
      * right. right. exists p. rewrite (step_iter_other _ _ _ _ _ _ _ Hstep); done.
  - unfold step_wave in Hstep. case_match eqn:Hfin; [|done]. simplify_eq.
    right. right. exists Start. simpl.
    rewrite lookup_replicate_2; [done|]. by rewrite (si_len_pcs _ Hsh).
Qed.

Lemma isolated_inv_exec rem0 s0 sched s :
  index_contract rem0 → initial rem0 s0 → basic_inv s0 → numIterations s0 = 0 →
  exec sched s0 = Some s → wave_inv s ∧ isolated_inv s.
Proof.
  intros Hic Hinit Hb0 H0. revert sched s. apply exec_invariant.
  - split; [|by left]. by apply (wave_inv_exec rem0 s0 []).
  - intros e s s' [Hw HQ] Hstep. pose proof (contract_ranges _ Hic) as Hr.
    split; [|by eapply isolated_inv_step].
    destruct Hw as (Hb & Hsh & Hci & Hpi).
    split; [|split; [|split]];
      [by eapply basic_inv_step|by eapply shape_inv_step
      |by eapply count_inv_step|by eapply parent_inv_step].
Qed.

End Isolated.

End Contract.

(** ** The index built over the vertices of the mesh meets the contract *)

Section KDTreeFacts.
Local Open Scope Qc_scope.

Lemma dist2_sym p q : dist2 p q = dist2 q p.
Proof. unfold dist2. ring. Qed.

Lemma dist2_refl p : dist2 p p = 0.
Proof. unfold dist2. ring. Qed.

Lemma within_sym r p q : KDTree.within r p q = KDTree.within r q p.
Proof. unfold KDTree.within. by rewrite dist2_sym. Qed.

Lemma within_refl r p : 0 <= r → KDTree.within r p p = true.
Proof.
  intros Hr. unfold KDTree.within. rewrite dist2_refl.
  apply andb_true_iff. split; apply Qc_leb_le; [done|].
  by apply Qcmult_nonneg_nonneg.
Qed.

End KDTreeFacts.

(** Vertices [i] and [j] of the mesh are within [eps] of each other. *)
Definition near (vertices : list Vector3d) (eps : Qc) (i j : nat) : bool :=
  match vertices !! i, vertices !! j with
  | Some p, Some q => KDTree.within eps p q
  | _, _ => false
  end.

Lemma near_sym vertices eps i j : near vertices eps i j = near vertices eps j i.
Proof.
  unfold near. destruct (vertices !! i), (vertices !! j); try done.
  apply within_sym.
Qed.

Lemma near_refl vertices eps i :
  (0 <= eps)%Qc → i < length vertices → near vertices eps i i = true.
Proof.
  intros He Hi. unfold near.
  destruct (lookup_lt_is_Some_2 vertices i Hi) as [p ->]. by apply within_refl.
Qed.

Lemma elem_of_SearchRadius vertices eps i p j :
  vertices !! i = Some p →
  j ∈ KDTree.SearchRadius vertices p eps ↔ near vertices eps i j = true.
Proof.
  intros Hp. unfold KDTree.SearchRadius, near, KDTree.in_radius.
  rewrite list_elem_of_filter, elem_of_seq, Hp.
  destruct (vertices !! j) as [q|] eqn:Hq.
  - apply lookup_lt_Some in Hq. rewrite Is_true_true. split; [by intros [? _]|].
    intros ?. split; [done|lia].
  - split; [by intros [? _]|done].
Qed.

Lemma bigger_of_init vertices eps i j :
  j ∈ bigger_of (init_bigger vertices vertices eps) i
  ↔ i < j ∧ near vertices eps i j = true.
Proof.
  unfold bigger_of, init_bigger. rewrite list_lookup_imap.
  destruct (vertices !! i) as [p|] eqn:Hp; simpl.
  - rewrite list_elem_of_filter, (elem_of_SearchRadius _ _ i) by done. done.
  - unfold near. rewrite Hp. split; [by intros ?%elem_of_nil|by intros [_ ?]].
Qed.

Lemma index_contract_init vertices eps :
  (0 <= eps)%Qc →
  index_contract (init_bigger vertices vertices eps) (length vertices)
    (init_rem vertices vertices eps).
Proof.
  intros He. split.
  - apply length_init_bigger.
  - apply length_init_rem.
  - intros i j [Hij Hn]%bigger_of_init. split; [done|].
    unfold near in Hn. destruct (vertices !! i); [|done].
    destruct (vertices !! j) eqn:Hj; [|done]. by eapply lookup_lt_Some.
  - intros i. unfold bigger_of, init_bigger. rewrite list_lookup_imap.
    destruct (vertices !! i) as [p|]; simpl; [|constructor].
    apply NoDup_filter, NoDup_filter, NoDup_seq.
  - intros j Hj. unfold init_rem. rewrite list_lookup_imap.
    destruct (lookup_lt_is_Some_2 vertices j Hj) as [p Hp]. rewrite Hp. simpl.
    f_equal. unfold KDTree.SearchRadius. rewrite list_filter_filter.
    rewrite (count_remove _ (λ i, j ∈ bigger_of (init_bigger vertices vertices eps) i)
               (length vertices) j); [lia|done| | |].
    + intros k Hk Hne. rewrite bigger_of_init, near_sym.
      unfold near, KDTree.in_radius. rewrite Hp.
      destruct (vertices !! k); simpl; rewrite ?Is_true_true;
        [|split; [by intros [_ ?]|by intros [_ ?]]].
      split; [intros [? ?]; split; [lia|done]|intros [? ?]; split; [lia|done]].
    + split; [lia|]. unfold KDTree.in_radius. rewrite Hp.
      apply Is_true_true. by apply within_refl.
    + rewrite bigger_of_init. lia.
Qed.

(** ** The welders on the index of their own mesh *)

Lemma initial_init_state vertices eps num_threads :
  initial (length vertices) (init_rem vertices vertices eps)
    (init_state vertices vertices eps num_threads).
Proof. done. Qed.

Lemma weld_wave_inv version thread_of num_threads vertices eps sched s :
  (0 <= eps)%Qc →
  exec version (init_bigger vertices vertices eps) thread_of sched
    (init_state vertices vertices eps num_threads) = Some s →
  wave_inv (init_bigger vertices vertices eps) (length vertices) s.
Proof.
  intros He. eapply wave_inv_exec.
  - by apply index_contract_init.
  - apply initial_init_state.
  - apply basic_inv_init.
Qed.

(** Before the first wave nothing has been touched. *)
Lemma before_first_wave version bigger thread_of sched s0 s :
  numIterations s0 = 0 → forallb finished (pcs s0) = true →
  exec version bigger thread_of sched s0 = Some s →
  numIterations s = 0 → s = s0.
Proof.
  intros H0 Hfin. revert sched s.
  apply (exec_invariant version bigger thread_of
           (λ s, numIterations s = 0 → s = s0)); [done|].
  intros e s s' IH Hstep Hs'. destruct e as [i|]; simpl in Hstep.
  - destruct (step_iter_lengths _ _ _ _ _ _ Hstep) as (_ & _ & _ & _ & Hit).
    rewrite Hit in Hs'. specialize (IH Hs'). subst s.
    destruct (step_iter_pcs _ _ _ _ _ _ Hstep) as (p & _ & Hp & Hf & _).
    rewrite forallb_forall in Hfin.
    rewrite Hfin in Hf; [done|]. apply list_elem_of_In, list_elem_of_lookup. eauto.
  - unfold step_wave in Hstep. case_match; [|done]. by simplify_eq.
Qed.

Lemma finish_forward_inv m cp m' pid2ccid :
  length cp = length (vertices_ m) →
  (∀ i c, cp !! i = Some c → c ≤ i) →
  finish_forward m cp = Some (m', pid2ccid) →
  ∃ st, reduce_inv (vertices_ m) cp (length (vertices_ m)) (length (vertices_ m)) st
        ∧ pid2ccid = r_pid2ccid st
        ∧ vertices_ m' = r_new_vertices st
        ∧ mapM (rewrite_triangle (λ t, pid2ccid !! t)) (triangles_ m)
          = Some (triangles_ m')
        ∧ vertex_normals_ m' = vertex_normals_ m
        ∧ vertex_colors_ m' = vertex_colors_ m
        ∧ triangle_normals_ m' = triangle_normals_ m
        ∧ adjacency_list_ m' = adjacency_list_ m.
Proof.
  intros Hlen Hpar Hfin.
  destruct (reduce_Some (vertices_ m) cp _ eq_refl Hlen Hpar
              (replicate (length (vertices_ m)) 0)) as (st & Hred & Hri);
    [by rewrite length_replicate|].
  unfold finish_forward in Hfin. rewrite Hred in Hfin. simpl in Hfin.
  destruct (mapM _ _) as [ts|] eqn:Hts; simpl in Hfin; [|done].
  simplify_eq. exists st. simpl. done.
Qed.

Lemma NoDup_singleton_eq {A : Type} (l : list A) (x : A) :
  NoDup l → (∀ y, y ∈ l ↔ y = x) → l = [x].
Proof.
  intros Hnd Hx. apply Permutation_singleton_r.
  apply NoDup_Permutation; [done|apply NoDup_singleton|].
  intros y. rewrite Hx. by rewrite list_elem_of_singleton.
Qed.

Lemma members_below_nodup pid k c : NoDup (members_below pid k c).
Proof. apply NoDup_filter, NoDup_seq. Qed.

(** A centroid that nobody points to is alone in its cluster. *)
Lemma reduce_singleton vertices cp N st v :
  length vertices = N → length cp = N →
  (∀ i c, cp !! i = Some c → c ≤ i) →
  reduce_inv vertices cp N N st →
  cp !! v = Some v → (∀ j, j ≠ v → cp !! j ≠ Some v) →
  ∃ k, r_pid2ccid st !! v = Some k
       ∧ (∀ j, r_pid2ccid st !! j = Some k → j = v)
       ∧ r_new_vertices st !! k = vertices !! v.
Proof.
  intros Hlv Hlc Hpar Hri Hv Hnone.
  assert (v < N) as HvN by (rewrite <- Hlc; by eapply lookup_lt_Some).
  destruct (ri_pid _ _ _ _ _ Hri v HvN) as (k & Hk & HkK).
  assert (∀ j, r_pid2ccid st !! j = Some k → j = v) as Huniq.
  { intros j. induction j as [j IH] using lt_wf_ind. intros Hj.
    assert (j < N) as HjN.
    { rewrite <- (ri_len_pid _ _ _ _ _ Hri). by eapply lookup_lt_Some. }
    destruct (lookup_lt_is_Some_2 cp j) as [c Hc]; [lia|].
    destruct (decide (c = j)) as [->|Hne].
    - eapply (ri_unique _ _ _ _ _ Hri); eauto.
    - pose proof (Hpar _ _ Hc) as Hle.
      rewrite (ri_follow _ _ _ _ _ Hri _ _ HjN Hc) in Hj.
      apply IH in Hj; [|lia]. subst c. destruct (Hnone j); [congruence|done]. }
  exists k. split; [done|]. split; [done|].
  destruct (ri_mean _ _ _ _ _ Hri k HkK) as (_ & _ & ->).
  assert (members_below (r_pid2ccid st) N k = [v]) as ->.
  { apply NoDup_singleton_eq; [apply members_below_nodup|].
    intros j. rewrite members_below_pid. split; [intros [_ ?]; by apply Huniq|].
    intros ->. done. }
  destruct (lookup_lt_is_Some_2 vertices v) as [x Hx]; [lia|].
  unfold positions. simpl. rewrite Hx. simpl. by rewrite vmean_singleton.
Qed.

Lemma isolated_setup vertices eps v :
  v < length vertices →
  (∀ j, j < length vertices → (near vertices eps v j = true ↔ j = v)) →
  (0 <= eps)%Qc
  ∧ bigger_of (init_bigger vertices vertices eps) v = []
  ∧ ∀ k, v ∉ bigger_of (init_bigger vertices vertices eps) k.
Proof.
  intros Hv Hiso.
  assert (0 <= eps)%Qc as Heps.
  { pose proof (proj2 (Hiso v Hv) eq_refl) as Hn. unfold near in Hn.
    destruct (vertices !! v); [|done]. unfold KDTree.within in Hn.
    apply andb_true_iff in Hn as [Hn _]. by apply Qc_leb_le. }
  pose proof (index_contract_init vertices eps Heps) as Hic.
  split; [done|]. split.
  - destruct (bigger_of _ v) as [|j l] eqn:E; [done|].
    assert (j ∈ bigger_of (init_bigger vertices vertices eps) v) as Hin
      by (rewrite E; by left).
    pose proof (ic_bigger _ _ _ Hic _ _ Hin) as Hr.
    apply bigger_of_init in Hin as [? Hn]. apply Hiso in Hn; lia.
  - intros k Hin. pose proof (ic_bigger _ _ _ Hic _ _ Hin) as Hr.
    apply bigger_of_init in Hin as [? Hn]. rewrite near_sym in Hn.
    apply Hiso in Hn; lia.
Qed.

Lemma isolated_parent_weld version thread_of num_threads vertices eps v sched s :
  v < length vertices →
  (∀ j, j < length vertices → (near vertices eps v j = true ↔ j = v)) →
  exec version (init_bigger vertices vertices eps) thread_of sched
    (init_state vertices vertices eps num_threads) = Some s →
  cp_vec s !! v = Some v ∧ ∀ j, j ≠ v → cp_vec s !! j ≠ Some v.
Proof.
  intros Hv Hiso Hexec. destruct (isolated_setup _ _ _ Hv Hiso) as (Heps & Hnb & Hns).
  eapply isolated_parent; [done..|]. by eapply weld_wave_inv.
Qed.


(** ** Welding at epsilon = 0 *)

Lemma Qc_sq_sum_zero (a b c : Qc) :
  (a * a + b * b + c * c <= 0)%Qc → a = Q2Qc 0 ∧ b = Q2Qc 0 ∧ c = Q2Qc 0.
Proof.
  intros H. unfold Qcle in H. simpl in H.
  assert (this a * this a + this b * this b + this c * this c <= 0)%Q as H'.
  { revert H. rewrite !Qred_correct. done. }
  assert (this a == 0 ∧ this b == 0 ∧ this c == 0)%Q as (Ha & Hb & Hc).
  { generalize dependent (this a). generalize dependent (this b). generalize dependent (this c).
    intros. repeat split; nra. }
  repeat split; apply Qc_is_canon; simpl; done.
Qed.

Lemma Qc_minus_zero (a b : Qc) : (a - b = Q2Qc 0)%Qc → a = b.
Proof. intros H. assert (a = a - b + b)%Qc as -> by ring. rewrite H. ring. Qed.

Lemma dist2_zero p q : (dist2 p q <= 0)%Qc → p = q.
Proof.
  intros (Hx & Hy & Hz)%Qc_sq_sum_zero.
  apply Qc_minus_zero in Hx, Hy, Hz. destruct p, q. simpl in *. congruence.
Qed.

Lemma near_zero vertices i j :
  near vertices (Q2Qc 0) i j = true → vertices !! i = vertices !! j.
Proof.
  unfold near. destruct (vertices !! i) as [p|]; [|done].
  destruct (vertices !! j) as [q|]; [|done].
  unfold KDTree.within. intros [_ H]%andb_true_iff. apply Qc_leb_le in H.
  f_equal. apply dist2_zero.
  by replace (Q2Qc 0 * Q2Qc 0)%Qc with (Q2Qc 0) in H by ring.
Qed.

Lemma centroids_below_seq N k :
  k ≤ N → centroids_below (seq 0 N) k = seq 0 k.
Proof.
  intros Hk. induction k as [|k IH]; [done|].
  rewrite centroids_below_S, IH, seq_S by lia. simpl.
  by rewrite decide_True by (apply lookup_seq; lia).
Qed.

(** On the identity parent array the reducer changes nothing. *)
Lemma reduce_identity vertices st :
  reduce_inv vertices (seq 0 (length vertices)) (length vertices)
    (length vertices) st →
  r_pid2ccid st = seq 0 (length vertices) ∧ r_new_vertices st = vertices.
Proof.
  intros Hri. set (N := length vertices) in *.
  assert (r_pid2ccid st = seq 0 N) as Hpid.
  { apply list_eq. intros i. destruct (decide (i < N)) as [Hi|Hi].
    - rewrite (ri_rank _ _ _ _ _ Hri i Hi) by (apply lookup_seq; lia).
      rewrite centroids_below_seq, length_seq by lia.
      symmetry. apply lookup_seq. lia.
    - rewrite !lookup_ge_None_2; [done|rewrite length_seq; lia|].
      rewrite (ri_len_pid _ _ _ _ _ Hri). lia. }
  split; [done|].
  assert (r_n_clusters st = N) as HK.
  { rewrite (ri_count _ _ _ _ _ Hri), centroids_below_seq, length_seq by lia. done. }
  apply list_eq. intros k. destruct (decide (k < N)) as [Hk|Hk].
  - destruct (ri_mean _ _ _ _ _ Hri k) as (_ & _ & ->); [lia|].
    assert (members_below (r_pid2ccid st) N k = [k]) as ->.
    { apply NoDup_singleton_eq; [apply members_below_nodup|].
      intros j. rewrite members_below_pid, Hpid. rewrite lookup_seq.
      split; [intros [_ [? _]]; lia|intros ->; split; [done|split; [done|lia]]]. }
    destruct (lookup_lt_is_Some_2 vertices k Hk) as [x Hx].
    unfold positions. simpl. rewrite Hx. simpl. by rewrite vmean_singleton.
  - rewrite !lookup_ge_None_2; [done|fold N; lia|].
    rewrite (ri_len_new _ _ _ _ _ Hri). lia.
Qed.

Lemma rewrite_triangles_identity N ts :
  Forall (valid_triangle N) ts →
  mapM (rewrite_triangle (λ t, seq 0 N !! t)) ts = Some ts.
Proof.
  induction 1 as [|[[a b] c] ts (Ha & Hb & Hc) _ IH]; [done|].
  simpl. rewrite !lookup_seq_lt by done. simpl. by rewrite IH.
Qed.

Definition coincident_pair : TriangleMesh :=
  bare_mesh [point 0 0 0; point 0 0 0] [(0, 1, 1)].

(** C6, as stated, fails: the radius test is closed, so at epsilon = 0 two
    vertices with the same position are neighbours and are welded.  The
    two-vertex mesh below comes back with one vertex and with its triangle
    rewritten. *)
Lemma eps0_merges_coincident_vertices :
  (λ m', (length (vertices_ m'), triangles_ m'))
    <$> merge_vertices_forward coincident_pair (KDTreeFlann coincident_pair)
          (Q2Qc 0) (one_thread_forward coincident_pair (Q2Qc 0) 100)
  = Some (1, [(0, 0, 0)])
  ∧ length (vertices_ coincident_pair) = 2
  ∧ triangles_ coincident_pair = [(0, 1, 1)].
Proof. vm_compute. done. Qed.

(** C6, amended.  On a mesh whose vertex positions are pairwise distinct,
    welding with epsilon = 0 returns the very same mesh: every complete run of
    the wave loop ends with the identity parent array, [pid2ccid] is the
    identity (all clusters have size 1), and the vertex list and the triangles
    are unchanged. *)
Theorem eps0_distinct_vertices_unchanged (m : TriangleMesh)
    (sched : list event) (s : state) :
  valid_mesh m →
  NoDup (vertices_ m) →
  exec Forward (init_bigger (KDTreeFlann m) (vertices_ m) (Q2Qc 0)) (λ _, 0) sched
    (init_state (KDTreeFlann m) (vertices_ m) (Q2Qc 0) 0) = Some s →
  terminal s = true →
  merge_vertices_forward_run m (KDTreeFlann m) (Q2Qc 0) sched
  = Some (m, seq 0 (length (vertices_ m))).
Proof.
  intros Hvalid Hnd Hexec Hterm. unfold KDTreeFlann in *.
  set (vs := vertices_ m) in *.
  assert (∀ v j, v < length vs → j < length vs →
            (near vs (Q2Qc 0) v j = true ↔ j = v)) as Hiso.
  { intros v j Hv Hj. split.
    - intros Hn%near_zero.
      destruct (lookup_lt_is_Some_2 vs v Hv) as [x Hx]. rewrite Hx in Hn.
      symmetry. by eapply NoDup_lookup.
    - intros ->. by apply near_refl. }
  assert (cp_vec s = seq 0 (length vs)) as Hcp.
  { apply list_eq. intros v.
    destruct (basic_inv_reachable _ _ _ _ _ _ _ _ Hexec) as [_ Hlen].
    destruct (decide (v < length vs)) as [Hv|Hv].
    - destruct (isolated_parent_weld Forward (λ _, 0) 0 vs (Q2Qc 0) v sched s Hv)
        as (-> & _); [by intros; apply Hiso|done|].
      symmetry. by apply lookup_seq.
    - rewrite !lookup_ge_None_2; [done|rewrite length_seq; lia|lia]. }
  unfold merge_vertices_forward_run. fold vs. rewrite Hexec. simpl. rewrite Hterm, Hcp.
  unfold finish_forward. fold vs.
  destruct (reduce_Some vs (seq 0 (length vs)) (length vs) eq_refl)
    with (pid2ccid := replicate (length vs) 0) as (st & -> & Hri);
    [by rewrite length_seq|by intros i c [-> _]%lookup_seq|by rewrite length_replicate|].
  destruct (reduce_identity _ _ Hri) as [-> ->]. simpl.
  rewrite rewrite_triangles_identity by done. simpl. by destruct m.
Qed.

(** ** The number of new vertices *)

Lemma elem_of_positions vertices ids x :
  x ∈ positions vertices ids ↔ ∃ i, i ∈ ids ∧ vertices !! i = Some x.
Proof. unfold positions. apply list_elem_of_omap. Qed.

Lemma NoDup_positions vertices ids :
  NoDup ids →
  (∀ i j, i ∈ ids → j ∈ ids → is_Some (vertices !! i) →
          vertices !! i = vertices !! j → i = j) →
  NoDup (positions vertices ids).
Proof.
  induction 1 as [|i ids Hi Hnd IH]; intros Hinj; [constructor|].
  unfold positions in *. simpl. destruct (vertices !! i) as [x|] eqn:Hx; simpl.
  - constructor.
    + intros (j & Hj & Hjx)%elem_of_positions.
      assert (i = j) as ->; [|done].
      apply Hinj; [by left|by right|by rewrite Hx|congruence].
    + apply IH. intros a b Ha Hb. apply Hinj; by right.
  - apply IH. intros a b Ha Hb. apply Hinj; by right.
Qed.

Lemma length_centroids_below cp k : length (centroids_below cp k) ≤ k.
Proof.
  unfold centroids_below. etrans; [apply length_filter|]. by rewrite length_seq.
Qed.

(** The centroids of the array computed at [eps] have pairwise different
    positions ... *)
Lemma centroid_positions_nodup vertices eps cp :
  (0 <= eps)%Qc →
  greedy_parents (init_bigger vertices vertices eps) (length vertices) cp →
  NoDup (positions vertices (centroids_below cp (length vertices))).
Proof.
  intros Heps Hg. apply NoDup_positions; [apply NoDup_filter, NoDup_seq|].
  assert (∀ i j, i < j → cp !! i = Some i → cp !! j = Some j →
            is_Some (vertices !! i) → vertices !! i = vertices !! j → False) as Hlt.
  { intros i j Hij Hi Hj [x Hx] Heq.
    assert (j ∈ bigger_of (init_bigger vertices vertices eps) i) as Hin.
    { apply bigger_of_init. split; [done|]. unfold near.
      rewrite <- Heq, Hx. by apply within_refl. }
    destruct (gp_least _ _ _ Hg _ _ Hi Hin) as (c & Hc & ?). simplify_eq. lia. }
  intros i j [_ Hi]%elem_of_centroids_below [_ Hj]%elem_of_centroids_below Hx Heq.
  destruct (Nat.lt_total i j) as [?|[?|?]]; [|done|].
  - by destruct (Hlt i j).
  - destruct (Hlt j i); try done; by rewrite <- Heq.
Qed.

(** ... and at epsilon = 0 the centroids carry every position of the mesh. *)
Lemma centroid_positions_cover vertices cp i x :
  greedy_parents (init_bigger vertices vertices (Q2Qc 0)) (length vertices) cp →
  vertices !! i = Some x →
  x ∈ positions vertices (centroids_below cp (length vertices)).
Proof.
  intros Hg Hx. pose proof (lookup_lt_Some _ _ _ Hx) as Hi.
  destruct (lookup_lt_is_Some_2 cp i) as [c Hc]; [by rewrite (gp_len _ _ _ Hg)|].
  apply elem_of_positions. destruct (decide (c = i)) as [->|Hne].
  - exists i. split; [|done]. by apply elem_of_centroids_below.
  - destruct (gp_parent _ _ _ Hg _ _ Hc Hne) as (Hlt & Hin & Hcc).
    apply bigger_of_init in Hin as [_ Hn%near_zero].
    exists c. split; [|congruence]. apply elem_of_centroids_below. split; [lia|done].
Qed.

Lemma centroids_eps_le_zero vertices eps cp cp0 :
  (0 <= eps)%Qc →
  greedy_parents (init_bigger vertices vertices eps) (length vertices) cp →
  greedy_parents (init_bigger vertices vertices (Q2Qc 0)) (length vertices) cp0 →
  length (centroids_below cp (length vertices))
  ≤ length (centroids_below cp0 (length vertices)).
Proof.
  intros Heps Hg Hg0.
  rewrite <- (length_positions vertices (centroids_below cp _)),
          <- (length_positions vertices (centroids_below cp0 _)).
  - apply submseteq_length, NoDup_submseteq; [by eapply centroid_positions_nodup|].
    intros x (i & _ & Hx)%elem_of_positions. by eapply centroid_positions_cover.
  - by intros i [? _]%elem_of_centroids_below.
  - by intros i [? _]%elem_of_centroids_below.
Qed.

(** The synchronous welder returns for every complete run of its wave loop,
    with as many vertices as the parent array has centroids. *)
Lemma forward_run_count m kdtree eps sched s :
  valid_mesh m →
  exec Forward (init_bigger kdtree (vertices_ m) eps) (λ _, 0) sched
    (init_state kdtree (vertices_ m) eps 0) = Some s →
  terminal s = true →
  ∃ m', merge_vertices_forward m kdtree eps sched = Some m'
        ∧ length (vertices_ m')
          = length (centroids_below (cp_vec s) (length (vertices_ m))).
Proof.
  intros Hvalid Hexec Hterm.
  destruct (basic_inv_reachable _ _ _ _ _ _ _ _ Hexec) as [Hinv Hlen].
  pose proof (bi_parent _ Hinv) as Hpar.
  destruct (reduce_Some (vertices_ m) (cp_vec s) (length (vertices_ m))
              eq_refl Hlen Hpar (replicate (length (vertices_ m)) 0))
    as (st & Hred & Hri); [by rewrite length_replicate|].
  assert (∀ i, i < length (vertices_ m) →
            ∃ c, r_pid2ccid st !! i = Some c ∧ c < length (r_new_vertices st))
    as Hpid.
  { intros i Hi. rewrite (ri_len_new _ _ _ _ _ Hri). by apply (ri_pid _ _ _ _ _ Hri). }
  destruct (rewrite_triangles_Some (λ t, r_pid2ccid st !! t) _ _ _ Hpid Hvalid)
    as (ts' & Hts & Hv' & Hl').
  eexists. unfold merge_vertices_forward, merge_vertices_forward_run.
  rewrite Hexec. simpl. rewrite Hterm.
  unfold finish_forward. rewrite Hred. simpl. rewrite Hts. simpl.
  split; [done|]. simpl.
  by rewrite (ri_len_new _ _ _ _ _ Hri), (ri_count _ _ _ _ _ Hri).
Qed.

Definition kite : TriangleMesh :=
  bare_mesh [mkV (Q2Qc 0) (Q2Qc (3 # 2)) (Q2Qc 0);
             point 0 0 0; point 1 0 0; point (-1) 0 0]
            [(0, 1, 2); (1, 2, 3)].

(** C7, as stated, fails: the clusters are claimed greedily, smallest id
    first, and a larger radius lets vertex 0 claim vertex 1, which then no
    longer claims vertices 2 and 3.  At epsilon = 11/10 the mesh below is
    welded to 2 vertices, at epsilon = 8/5 to 3.  No two vertices of the mesh
    are at distance 11/10 or 8/5 of each other. *)
Lemma vertex_count_not_monotone :
  (Q2Qc (11 # 10) < Q2Qc (8 # 5))%Qc
  ∧ (λ m', length (vertices_ m'))
      <$> merge_vertices_forward kite (KDTreeFlann kite) (Q2Qc (11 # 10))
            (one_thread_forward kite (Q2Qc (11 # 10)) 200) = Some 2
  ∧ (λ m', length (vertices_ m'))
      <$> merge_vertices_forward kite (KDTreeFlann kite) (Q2Qc (8 # 5))
            (one_thread_forward kite (Q2Qc (8 # 5)) 200) = Some 3.
Proof. vm_compute. done. Qed.

(** C7, amended.  The new vertex count is not monotone in epsilon, but for
    every mesh and every epsilon >= 0 it is at most the count after welding
    at epsilon = 0, which is at most the original vertex count. *)
Theorem vertex_count_at_most_eps0 (m : TriangleMesh) (eps : Qc)
    (sched sched0 : list event) (s s0 : state) :
  valid_mesh m →
  (0 <= eps)%Qc →
  exec Forward (init_bigger (KDTreeFlann m) (vertices_ m) eps) (λ _, 0) sched
    (init_state (KDTreeFlann m) (vertices_ m) eps 0) = Some s →
  terminal s = true →
  exec Forward (init_bigger (KDTreeFlann m) (vertices_ m) (Q2Qc 0)) (λ _, 0) sched0
    (init_state (KDTreeFlann m) (vertices_ m) (Q2Qc 0) 0) = Some s0 →
  terminal s0 = true →
  ∃ m' m0,
    merge_vertices_forward m (KDTreeFlann m) eps sched = Some m'
    ∧ merge_vertices_forward m (KDTreeFlann m) (Q2Qc 0) sched0 = Some m0
    ∧ length (vertices_ m') ≤ length (vertices_ m0)
    ∧ length (vertices_ m0) ≤ length (vertices_ m).
Proof.
  intros Hvalid Heps Hexec Hterm Hexec0 Hterm0. unfold KDTreeFlann in *.
  destruct (forward_run_count _ _ _ _ _ Hvalid Hexec Hterm) as (m' & Hm' & Hlen').
  destruct (forward_run_count _ _ _ _ _ Hvalid Hexec0 Hterm0) as (m0 & Hm0 & Hlen0).
  exists m', m0. split; [done|]. split; [done|]. rewrite Hlen', Hlen0.
  split; [|apply length_centroids_below].
  assert (0 <= Q2Qc 0)%Qc as H0 by done.
  apply (centroids_eps_le_zero _ eps); [done|..].
  - eapply terminal_greedy; [by eapply weld_wave_inv| |done].
    eapply contract_ranges. by apply index_contract_init.
  - eapply terminal_greedy; [by eapply weld_wave_inv| |done].
    eapply contract_ranges. by apply index_contract_init.
Qed.

(** ** Concrete runs *)

(** The state in which the single-threaded wave loop ends. *)
Definition final_state (version : variant) (thread_of : nat → nat)
    (num_threads : nat) (m : TriangleMesh) (eps : Qc) (sched : list event)
  : state :=
  default (init_state (KDTreeFlann m) (vertices_ m) eps num_threads)
    (exec version (init_bigger (KDTreeFlann m) (vertices_ m) eps) thread_of sched
       (init_state (KDTreeFlann m) (vertices_ m) eps num_threads)).

Definition half : Qc := Q2Qc (1 # 2).

Lemma valid_collinear3 : valid_mesh collinear3.
Proof. repeat constructor. Qed.

Lemma valid_kite : valid_mesh kite.
Proof. repeat constructor. Qed.

Lemma forward_triangle_ids_valid_witness :
  let sched := one_thread_forward collinear3 (Q2Qc 1) 100 in
  let s := final_state Forward (λ _, 0) 0 collinear3 (Q2Qc 1) sched in
  ∃ m' pid2ccid,
    merge_vertices_forward_run collinear3 (KDTreeFlann collinear3) (Q2Qc 1) sched
    = Some (m', pid2ccid)
    ∧ valid_mesh m'
    ∧ length (triangles_ m') = length (triangles_ collinear3)
    ∧ (∀ i, i < length (vertices_ collinear3) →
         ∃ c, pid2ccid !! i = Some c ∧ c < length (vertices_ m'))
    ∧ (∀ pid0, length pid0 = length (vertices_ collinear3) →
         reduce (vertices_ collinear3) pid0 [] (cp_vec s)
           (length (vertices_ collinear3))
         = Some (pid2ccid, vertices_ m')).
Proof.
  apply (forward_triangle_ids_valid collinear3 (KDTreeFlann collinear3) (Q2Qc 1)
           (one_thread_forward collinear3 (Q2Qc 1) 100)
           (final_state Forward (λ _, 0) 0 collinear3 (Q2Qc 1)
              (one_thread_forward collinear3 (Q2Qc 1) 100))).
  - exact valid_collinear3.
  - vm_compute. reflexivity.
  - vm_compute. reflexivity.
Defined.

Lemma eps0_distinct_vertices_unchanged_witness :
  let sched := one_thread_forward collinear3 (Q2Qc 0) 100 in
  merge_vertices_forward_run collinear3 (KDTreeFlann collinear3) (Q2Qc 0) sched
  = Some (collinear3, seq 0 (length (vertices_ collinear3))).
Proof.
  apply (eps0_distinct_vertices_unchanged collinear3
           (one_thread_forward collinear3 (Q2Qc 0) 100)
           (final_state Forward (λ _, 0) 0 collinear3 (Q2Qc 0)
              (one_thread_forward collinear3 (Q2Qc 0) 100))).
  - exact valid_collinear3.
  - apply (bool_decide_unpack (NoDup (vertices_ collinear3))). vm_compute. exact I.
  - vm_compute. reflexivity.
  - vm_compute. reflexivity.
Defined.

Lemma vertex_count_at_most_eps0_witness :
  let sched := one_thread_forward kite (Q2Qc 1) 200 in
  let sched0 := one_thread_forward kite (Q2Qc 0) 200 in
  ∃ m' m0,
    merge_vertices_forward kite (KDTreeFlann kite) (Q2Qc 1) sched = Some m'
    ∧ merge_vertices_forward kite (KDTreeFlann kite) (Q2Qc 0) sched0 = Some m0
    ∧ length (vertices_ m') ≤ length (vertices_ m0)
    ∧ length (vertices_ m0) ≤ length (vertices_ kite).
Proof.
  apply (vertex_count_at_most_eps0 kite (Q2Qc 1)
           (one_thread_forward kite (Q2Qc 1) 200)
           (one_thread_forward kite (Q2Qc 0) 200)
           (final_state Forward (λ _, 0) 0 kite (Q2Qc 1)
              (one_thread_forward kite (Q2Qc 1) 200))
           (final_state Forward (λ _, 0) 0 kite (Q2Qc 0)
              (one_thread_forward kite (Q2Qc 0) 200))).
  - exact valid_kite.
  - vm_compute. discriminate.
  - vm_compute. reflexivity.
  - vm_compute. reflexivity.
  - vm_compute. reflexivity.
  - vm_compute. reflexivity.
Defined.


(** ** Termination of the wave loop *)

Lemma sum_seq_S (f : nat → nat) n :
  sum_list_with f (seq 0 (S n)) = sum_list_with f (seq 0 n) + f n.
Proof. rewrite seq_S, sum_list_with_app. simpl. lia. Qed.

Lemma sum_seq_le (f g : nat → nat) n :
  (∀ k, k < n → f k ≤ g k) →
  sum_list_with f (seq 0 n) ≤ sum_list_with g (seq 0 n).
Proof.
  induction n as [|n IH]; intros Hle; [done|].
  rewrite !sum_seq_S.
  specialize (IH ltac:(intros; apply Hle; lia)). specialize (Hle n). lia.
Qed.

Lemma sum_seq_lt (f g : nat → nat) n i :
  i < n → (∀ k, k < n → f k ≤ g k) → f i < g i →
  sum_list_with f (seq 0 n) < sum_list_with g (seq 0 n).
Proof.
  induction n as [|n IH]; intros Hi Hle Hlt; [lia|].
  rewrite !sum_seq_S.
  destruct (decide (i = n)) as [->|].
  - pose proof (sum_seq_le f g n ltac:(intros; apply Hle; lia)). lia.
  - specialize (IH ltac:(lia) ltac:(intros; apply Hle; lia) Hlt).
    specialize (Hle n). lia.
Qed.

Section Termination.

Variable version : variant.
Variable pid2nnBigger : list (list nat).
Variable thread_of : nat → nat.
Variable N : nat.

Local Abbreviation step := (step version pid2nnBigger thread_of).
Local Abbreviation exec := (exec version pid2nnBigger thread_of).
Local Abbreviation step_iter := (step_iter version pid2nnBigger thread_of).

(** The number of steps that one neighbour can still cost: the
    compare-and-swap loop is retried only after [cp_vec[j]] has dropped. *)
Definition nb_cost (cp : list nat) (j : nat) : nat := 2 * default 0 (cp !! j) + 6.

Definition loop_cost (cp : list nat) (l : list nat) : nat :=
  sum_list_with (nb_cost cp) l.

Definition pc_cost (cp : list nat) (b : list nat) (p : pc) : nat :=
  match p with
  | Start => 6 + loop_cost cp b
  | Chk2 => 5 + loop_cost cp b
  | DecRead => 4 + loop_cost cp b
  | DecWrite _ => 3 + loop_cost cp b
  | ReadCent => 2 + loop_cost cp b
  | Count _ => 1 + loop_cost cp b
  | Loop _ l => loop_cost cp l
  | CasRead _ j l => 2 * default 0 (cp !! j) + 4 + loop_cost cp l
  | CasTry _ e j l => 2 * e + 3 + loop_cost cp l
  | Flag _ j l => 2 + loop_cost cp l
  | Faa _ j l => 1 + loop_cost cp l
  | Skip => 0
  end.

(** Steps left in the current wave. *)
Definition vertex_cost (s : state) (i : nat) : nat :=
  match pcs s !! i with
  | Some p => pc_cost (cp_vec s) (bigger_of pid2nnBigger i) p
  | None => 0
  end.

Definition wave_cost (s : state) : nat := sum_list_with (vertex_cost s) (seq 0 N).

(** 2 for a vertex that may still become an active source, 1 for one that
    became one in this wave, 0 for one that emitted in an earlier wave. *)
Definition vertex_rank (s : state) (i : nat) : nat :=
  match pcs s !! i, remainingSmallerFinalsVec s !! i with
  | Some p, Some r =>
      if activated p then 1 else if (r <? 0)%Z then 0 else 2
  | _, _ => 0
  end.

Definition waves_left (s : state) : nat :=
  (if decide (numIterations s = 0) then 1 else 0)
  + sum_list_with (vertex_rank s) (seq 0 N).

(** A bound on the cost of a whole wave. *)
Definition wave_bound : nat :=
  1 + sum_list_with (λ i, 6 + length (bigger_of pid2nnBigger i) * (2 * N + 6)) (seq 0 N).

Definition measure (s : state) : nat := waves_left s * wave_bound + wave_cost s.

Definition cp_le (cp' cp : list nat) : Prop :=
  ∀ j, default 0 (cp' !! j) ≤ default 0 (cp !! j).

Lemma loop_cost_mono cp' cp l : cp_le cp' cp → loop_cost cp' l ≤ loop_cost cp l.
Proof.
  intros Hle. unfold loop_cost. induction l as [|j l IH]; simpl; [done|].
  unfold nb_cost at 1 3. specialize (Hle j). lia.
Qed.

Lemma pc_cost_mono cp' cp b p :
  cp_le cp' cp → pc_cost cp' b p ≤ pc_cost cp b p.
Proof.
  intros Hle. pose proof (loop_cost_mono _ _ b Hle).
  destruct p; simpl; try lia.
  all: pose proof (loop_cost_mono _ _ l Hle); try lia.
  specialize (Hle j). lia.
Qed.

Lemma step_iter_cp_le i s s' :
  basic_inv s → step_iter i s = Some s' → cp_le (cp_vec s') (cp_vec s).
Proof.
  intros Hb Hstep j.
  destruct (step_iter_cp _ _ _ _ _ _ Hstep) as [->|(isC & e & j0 & l & Hq & He & ->)];
    [done|].
  destruct (bi_cas _ Hb _ _ _ _ _ Hq) as (Hie & _).
  destruct (decide (j = j0)) as [->|].
  - rewrite list_lookup_insert_eq by by eapply lookup_lt_Some. rewrite He. simpl. lia.
  - by rewrite list_lookup_insert_ne.
Qed.

(** Every step of an iteration uses up some of its cost. *)
Lemma vertex_cost_step i s s' :
  basic_inv s → step_iter i s = Some s' →
  vertex_cost s' i < vertex_cost s i.
Proof.
  intros Hb Hstep. pose proof (step_iter_cp_le _ _ _ Hb Hstep) as Hle.
  unfold vertex_cost.
  destruct (step_iter_pcs _ _ _ _ _ _ Hstep) as (p & p' & Hp & _ & Hpcs & _).
  rewrite Hpcs, Hp, list_lookup_insert_eq by by eapply lookup_lt_Some.
  eapply Nat.le_lt_trans; [apply pc_cost_mono, Hle|]. clear Hle.
  assert (pcs s' !! i = Some p') as Hp'.
  { rewrite Hpcs. apply list_lookup_insert_eq. by eapply lookup_lt_Some. }
  clear Hpcs. pose proof (lookup_lt_Some _ _ _ Hp) as Hi.
  step_iter_cases Hstep; unfold_sets; rewrite list_lookup_insert_eq in Hp' by done;
    simplify_eq; repeat case_match; simplify_eq; bool_facts; simpl;
    unfold loop_cost; simpl; unfold nb_cost; rewrite ?Hrd; simpl; try lia.
  all: try (unfold bigger_of; simplify_option_eq; lia).
  destruct (bi_cas _ Hb _ _ _ _ _ Hpc) as (_ & c & Hc & Hce). simplify_eq. lia.
Qed.

Lemma vertex_cost_other i k s s' :
  basic_inv s → step_iter i s = Some s' → k ≠ i →
  vertex_cost s' k ≤ vertex_cost s k.
Proof.
  intros Hb Hstep Hk. unfold vertex_cost.
  rewrite (step_iter_other _ _ _ _ _ _ _ Hstep Hk).
  destruct (pcs s !! k); [|done]. apply pc_cost_mono. by eapply step_iter_cp_le.
Qed.

Lemma wave_cost_step i s s' :
  basic_inv s → length (pcs s) = N → step_iter i s = Some s' →
  wave_cost s' < wave_cost s.
Proof.
  intros Hb Hlen Hstep. unfold wave_cost. apply (sum_seq_lt _ _ N i).
  - destruct (step_iter_pcs _ _ _ _ _ _ Hstep) as (p & _ & Hp & _).
    rewrite <- Hlen. by eapply lookup_lt_Some.
  - intros k _. destruct (decide (k = i)) as [->|Hk].
    + apply Nat.lt_le_incl. by apply vertex_cost_step.
    + by apply (vertex_cost_other i).
  - by apply vertex_cost_step.
Qed.

Lemma vertex_rank_step i k s s' :
  step_iter i s = Some s' → vertex_rank s' k ≤ vertex_rank s k.
Proof.
  intros Hstep. unfold vertex_rank.
  step_iter_cases Hstep; unfold_sets.
  all: pose proof (lookup_lt_Some _ _ _ Hpc) as Hi.
  all: rewrite ?list_lookup_insert; repeat case_decide; destruct_and?; simplify_eq.
  all: rewrite ?Hpc, ?Hrd; simpl.
  all: repeat case_match; simplify_eq; bool_facts; simpl in *; try lia.
  match goal with H : _ !! _ = None |- _ => apply lookup_ge_None in H; lia end.
Qed.

Lemma waves_left_step i s s' :
  step_iter i s = Some s' → waves_left s' ≤ waves_left s.
Proof.
  intros Hstep. unfold waves_left.
  destruct (step_iter_lengths _ _ _ _ _ _ Hstep) as (_ & _ & _ & _ & ->).
  apply Nat.add_le_mono_l, sum_seq_le. intros k _. by eapply vertex_rank_step.
Qed.

(** The wave that is entered costs less than [wave_bound] ... *)
Lemma wave_cost_begin s :
  basic_inv s → length (cp_vec s) = N → wave_cost (begin_wave s) < wave_bound.
Proof.
  intros Hb Hlen. unfold wave_bound, wave_cost.
  apply Nat.lt_succ_r, sum_seq_le. intros i _. unfold vertex_cost. simpl.
  destruct (replicate _ _ !! i) as [p|] eqn:Hp; [|lia].
  apply lookup_replicate in Hp as [-> _].
  enough (loop_cost (cp_vec s) (bigger_of pid2nnBigger i)
          ≤ length (bigger_of pid2nnBigger i) * (2 * N + 6)) by (simpl; lia).
  unfold loop_cost.
  induction (bigger_of pid2nnBigger i) as [|j l IH]; [done|].
  assert (nb_cost (cp_vec s) j ≤ 2 * N + 6).
  { unfold nb_cost. destruct (cp_vec s !! j) as [c|] eqn:Hc; simpl; [|lia].
    pose proof (bi_parent _ Hb _ _ Hc). apply lookup_lt_Some in Hc. lia. }
  change (nb_cost (cp_vec s) j + sum_list_with (nb_cost (cp_vec s)) l
          ≤ (2 * N + 6) + length l * (2 * N + 6)). lia.
Qed.

(** ... and it is entered with fewer waves left: the flag was raised by a
    vertex that became an active source, and that vertex has emitted. *)
Lemma waves_left_begin s :
  basic_inv s → length (pcs s) = N →
  forallb finished (pcs s) = true → should_continue s = true →
  waves_left (begin_wave s) < waves_left s.
Proof.
  intros Hb Hlen Hfin Hflag. rewrite forallb_forall in Hfin.
  assert (∀ k, vertex_rank (begin_wave s) k ≤ vertex_rank s k) as Hle.
  { intros k. unfold vertex_rank. simpl.
    destruct (pcs s !! k) as [p|] eqn:Hp.
    - rewrite lookup_replicate_2 by by eapply lookup_lt_Some.
      destruct (remainingSmallerFinalsVec s !! k) as [r|] eqn:Hr; [|done]. simpl.
      destruct (activated p) eqn:Ha; [|done].
      assert (finished p = true) as Hf.
      { apply Hfin. apply list_elem_of_In, list_elem_of_lookup. eauto. }
      assert (emitted p = true) as He by (by destruct p as [| | | | | |? [|]| | | | |]).
      pose proof (bi_emitted _ Hb _ _ _ Hp He Hr). case_match; bool_facts; lia.
    - apply lookup_ge_None in Hp.
      by rewrite (proj1 (lookup_replicate_None _ Start k) Hp). }
  unfold waves_left. simpl.
  destruct (bi_flag _ Hb Hflag) as [H0|(k & p & Hp & Ha)].
  - rewrite H0. simpl. pose proof (sum_seq_le _ _ N (λ k _, Hle k)). lia.
  - enough (sum_list_with (vertex_rank (begin_wave s)) (seq 0 N)
            < sum_list_with (vertex_rank s) (seq 0 N)) by (case_decide; lia).
    apply (sum_seq_lt _ _ N k); [rewrite <- Hlen; by eapply lookup_lt_Some|done|].
    unfold vertex_rank. simpl.
    rewrite lookup_replicate_2 by by eapply lookup_lt_Some. rewrite Hp.
    destruct (remainingSmallerFinalsVec s !! k) as [r|] eqn:Hr.
    + simpl. rewrite Ha.
      assert (finished p = true) as Hf.
      { apply Hfin. apply list_elem_of_In, list_elem_of_lookup. eauto. }
      assert (emitted p = true) as He by (by destruct p as [| | | | | |? [|]| | | | |]).
      pose proof (bi_emitted _ Hb _ _ _ Hp He Hr). case_match; bool_facts; lia.
    + apply lookup_ge_None in Hr. apply lookup_lt_Some in Hp.
      rewrite (bi_len_rem _ Hb), <- (bi_len_pcs _ Hb) in Hr. lia.
Qed.

(** Every step of the wave loop decreases the measure. *)
Lemma measure_step e s s' :
  basic_inv s → length (cp_vec s) = N → step e s = Some s' →
  measure s' < measure s.
Proof.
  intros Hb Hlen Hstep. unfold measure.
  assert (length (pcs s) = N) as Hlp by (by rewrite (bi_len_pcs _ Hb)).
  destruct e as [i|]; simpl in Hstep.
  - pose proof (waves_left_step _ _ _ Hstep).
    pose proof (wave_cost_step _ _ _ Hb Hlp Hstep).
    assert (waves_left s' * wave_bound ≤ waves_left s * wave_bound)
      by (by apply Nat.mul_le_mono_r). lia.
  - unfold step_wave in Hstep. case_match eqn:Hc; [|done]. simplify_eq.
    apply andb_true_iff in Hc as [Hfin Hflag].
    pose proof (waves_left_begin _ Hb Hlp Hfin Hflag).
    pose proof (wave_cost_begin _ Hb Hlen).
    assert (S (waves_left (begin_wave s)) * wave_bound ≤ waves_left s * wave_bound)
      by (apply Nat.mul_le_mono_r; lia). lia.
Qed.

Lemma exec_length_measure s0 sched s :
  basic_inv s0 → length (cp_vec s0) = N →
  exec sched s0 = Some s → length sched + measure s ≤ measure s0.
Proof.
  intros Hb0 Hlen0. revert s. induction sched as [|e sched IH] using rev_ind.
  - intros s [= <-]. simpl. lia.
  - intros s (s1 & H1 & H2)%exec_snoc. specialize (IH _ H1).
    assert (basic_inv s1 ∧ length (cp_vec s1) = N) as [Hb1 Hl1].
    { revert H1. generalize s1 sched. clear -Hb0 Hlen0.
      intros s1 sched. revert sched s1. apply exec_invariant; [done|].
      intros e s s' [Hb Hl] Hstep. split; [by eapply basic_inv_step|].
      destruct e as [i|]; simpl in Hstep.
      - by destruct (step_iter_lengths _ _ _ _ _ _ Hstep) as (-> & _).
      - unfold step_wave in Hstep. case_match; [|done]. by simplify_eq. }
    pose proof (measure_step _ _ _ Hb1 Hl1 H2).
    rewrite length_app. simpl. lia.
Qed.

End Termination.

(** ** Progress of the wave loop *)

(** Vertex [i] goes from READY to EMITTED in the step from [s] to [s']. *)
Definition emits (i : nat) (s s' : state) : bool :=
  bool_decide (remainingSmallerFinalsVec s !! i = Some 0%Z
               ∧ remainingSmallerFinalsVec s' !! i = Some (-1)%Z).

Lemma forallb_false_lookup {A : Type} (f : A → bool) (l : list A) :
  forallb f l = false → ∃ i x, l !! i = Some x ∧ f x = false.
Proof.
  induction l as [|a l IH]; simpl; [done|].
  destruct (f a) eqn:Ha; simpl.
  - intros (i & x & Hx & Hf)%IH. by exists (S i), x.
  - intros _. by exists 0, a.
Qed.

Lemma least_witness (P : nat → Prop) `{!∀ n, Decision (P n)} n :
  P n → ∃ m, P m ∧ ∀ k, k < m → ¬ P k.
Proof.
  intros Hn.
  assert ((∀ k, k < n → ¬ P k) ∨ ∃ m, P m ∧ ∀ k, k < m → ¬ P k) as [Hno|?];
    [|by exists n|done].
  clear Hn. induction n as [|n [IH|IH]]; [left; lia| |by right].
  destruct (decide (P n)) as [HP|HP].
  - right. by exists n.
  - left. intros k Hk. destruct (decide (k = n)) as [->|]; [done|]. apply IH. lia.
Qed.

Section Progress.

Variable version : variant.
Variable pid2nnBigger : list (list nat).
Variable thread_of : nat → nat.
Variable N : nat.

Local Abbreviation step := (step version pid2nnBigger thread_of).
Local Abbreviation exec := (exec version pid2nnBigger thread_of).
Local Abbreviation step_iter := (step_iter version pid2nnBigger thread_of).
Local Abbreviation bigger_of := (bigger_of pid2nnBigger).
Local Abbreviation basic_inv := (basic_inv).
Local Abbreviation shape_inv := (shape_inv pid2nnBigger N).
Local Abbreviation measure := (measure pid2nnBigger N).

(** The number of READY to EMITTED transitions of vertex [i] along a run. *)
Fixpoint emissions (i : nat) (sched : list event) (s : state) : nat :=
  match sched with
  | [] => 0
  | e :: sched' =>
      match step e s with
      | Some s' => (if emits i s s' then 1 else 0) + emissions i sched' s'
      | None => 0
      end
  end.

(** A counter only moves down, except that the store of [--rem[i]] may
    overwrite a negative value by [-1]. *)
Lemma rem_step e s s' j r :
  basic_inv s → step e s = Some s' →
  remainingSmallerFinalsVec s !! j = Some r →
  ∃ r', remainingSmallerFinalsVec s' !! j = Some r' ∧ ((r' ≤ r)%Z ∨ (r' < 0)%Z).
Proof.
  intros Hb Hstep Hr. destruct e as [i|]; simpl in Hstep.
  - pose proof (bi_decwrite _ Hb i) as Hdw.
    pose proof (lookup_lt_Some _ _ _ Hr) as Hj.
    step_iter_cases Hstep; unfold_sets; try (exists r; split; [done|lia]).
    + destruct (decide (j = i)) as [->|Hne].
      * rewrite list_lookup_insert_eq by done. eexists. split; [done|].
        specialize (Hdw _ eq_refl). lia.
      * rewrite list_lookup_insert_ne by done. exists r. split; [done|lia].
    + destruct (decide (j = j0)) as [->|Hne].
      * rewrite list_lookup_insert_eq by done. eexists. split; [done|].
        simplify_eq. lia.
      * rewrite list_lookup_insert_ne by done. exists r. split; [done|lia].
  - unfold step_wave in Hstep. case_match; [|done]. simplify_eq.
    exists r. split; [done|lia].
Qed.

Lemma rem_neg_step e s s' j r :
  basic_inv s → step e s = Some s' →
  remainingSmallerFinalsVec s !! j = Some r → (r < 0)%Z →
  ∃ r', remainingSmallerFinalsVec s' !! j = Some r' ∧ (r' < 0)%Z.
Proof.
  intros Hb Hstep Hr Hneg.
  destruct (rem_step _ _ _ _ _ Hb Hstep Hr) as (r' & Hr' & Hle).
  exists r'. split; [done|lia].
Qed.

(** Once a vertex is EMITTED it stays so: it emits at most once. *)
Lemma emissions_emitted i sched s r :
  basic_inv s → remainingSmallerFinalsVec s !! i = Some r → (r < 0)%Z →
  emissions i sched s = 0.
Proof.
  revert s r. induction sched as [|e sched IH]; intros s r Hb Hr Hneg; [done|].
  simpl. destruct (step e s) as [s'|] eqn:Hstep; [|done].
  destruct (rem_neg_step _ _ _ _ _ Hb Hstep Hr Hneg) as (r' & Hr' & Hneg').
  rewrite (IH s' r') by (done || by eapply basic_inv_step).
  unfold emits. rewrite bool_decide_eq_false_2; [done|].
  intros [? _]. simplify_eq. lia.
Qed.

Lemma emissions_at_most_once i sched s :
  basic_inv s → emissions i sched s ≤ 1.
Proof.
  revert s. induction sched as [|e sched IH]; intros s Hb; simpl; [lia|].
  destruct (step e s) as [s'|] eqn:Hstep; [|lia].
  assert (basic_inv s') as Hb' by by eapply basic_inv_step.
  unfold emits. case_bool_decide as He.
  - destruct He as [_ He]. rewrite (emissions_emitted _ _ _ _ Hb' He); lia.
  - specialize (IH _ Hb'). lia.
Qed.

(** *** No iteration gets stuck *)

(** The counter slot of the thread that runs an iteration exists. *)
Variable D : nat.
Hypothesis Hthreads :
  version = ForwardAsync → ∀ i, thread_of i * ints_per_cache_line < D.

Definition disc_inv (s : state) : Prop :=
  length (num_discovered_centroids s) = D
  ∧ ∀ i isC, pcs s !! i = Some (Count isC) → version = ForwardAsync.

Lemma disc_inv_step e s s' : disc_inv s → step e s = Some s' → disc_inv s'.
Proof.
  intros [Hlen Hcount] Hstep. destruct e as [i|]; simpl in Hstep.
  - split.
    + destruct (step_iter_lengths _ _ _ _ _ _ Hstep) as (_ & _ & _ & -> & _). done.
    + step_iter_cases Hstep; unfold_sets.
      all: intros k b Hk; inv_lookup; eauto.
      all: repeat case_match; simplify_eq; done.
  - unfold step_wave in Hstep. case_match; [|done]. simplify_eq.
    split; [done|]. simpl. intros i isC (? & _)%lookup_replicate. done.
Qed.

Lemma step_iter_enabled s i p :
  index_contract_ranges pid2nnBigger N → shape_inv s → disc_inv s →
  pcs s !! i = Some p → finished p = false → is_Some (step_iter i s).
Proof.
  intros (Hlb & Hrange & _) Hsh [Hlen Hcount] Hp Hf.
  pose proof (lookup_lt_Some _ _ _ Hp) as Hi. rewrite (si_len_pcs _ _ _ Hsh) in Hi.
  destruct (lookup_lt_is_Some_2 (remainingSmallerFinalsVec s) i) as [r Hr];
    [by rewrite (si_len_rem _ _ _ Hsh)|].
  destruct (lookup_lt_is_Some_2 (cp_vec s) i) as [c Hc];
    [by rewrite (si_len_cp _ _ _ Hsh)|].
  destruct (lookup_lt_is_Some_2 pid2nnBigger i) as [b Hb]; [by rewrite Hlb|].
  assert (∀ j l, todo_of p = j :: l →
            (∃ rj, remainingSmallerFinalsVec s !! j = Some rj)
            ∧ ∃ cj, cp_vec s !! j = Some cj) as Hnb.
  { intros j l Htodo. pose proof (si_suffix _ _ _ Hsh _ _ Hp) as Hsuf.
    rewrite Htodo in Hsuf.
    assert (j ∈ bigger_of i) as Hj.
    { destruct Hsuf as [k ->]. apply elem_of_app. right. by left. }
    apply Hrange in Hj. split; apply lookup_lt_is_Some_2.
    - rewrite (si_len_rem _ _ _ Hsh). lia.
    - rewrite (si_len_cp _ _ _ Hsh). lia. }
  unfold step_iter. rewrite Hp. simpl.
  destruct p as [| | |r0| |isC|isC [|j l]|isC j l|isC e j l|isC j l|isC j l|];
    try done; rewrite ?Hr, ?Hc, ?Hb; simpl; try done.
  - destruct (lookup_lt_is_Some_2 (num_discovered_centroids s)
                (thread_of i * ints_per_cache_line)) as [d ->]; [|done].
    rewrite Hlen. apply Hthreads. by eapply Hcount.
  - destruct (Hnb j l eq_refl) as [[rj ->] _]. simpl. by destruct isC.
  - destruct (Hnb j l eq_refl) as [_ [cj ->]]. done.
  - destruct (Hnb j l eq_refl) as [_ [cj ->]]. simpl. by case_bool_decide.
  - destruct (Hnb j l eq_refl) as [[rj ->] _]. done.
  - destruct (Hnb j l eq_refl) as [[rj ->] _]. done.
Qed.

(** A state in which the loop has not been left has a next step. *)
Lemma step_enabled s :
  index_contract_ranges pid2nnBigger N → shape_inv s → disc_inv s →
  terminal s = false → ∃ e s', step e s = Some s'.
Proof.
  intros Hic Hsh Hd Hterm. unfold terminal in Hterm.
  destruct (forallb finished (pcs s)) eqn:Hfin.
  - exists NextWave. simpl. unfold step_wave. rewrite Hfin.
    destruct (should_continue s); [eauto|done].
  - destruct (forallb_false_lookup _ _ Hfin) as (i & p & Hp & Hf).
    destruct (step_iter_enabled _ _ _ Hic Hsh Hd Hp Hf) as [s' Hs'].
    by exists (Iter i), s'.
Qed.

(** From every state of a run the loop can be left, and whatever the threads
    do they leave it within [measure s] steps. *)
Lemma reaches_terminal s :
  index_contract_ranges pid2nnBigger N → basic_inv s → shape_inv s → disc_inv s →
  ∃ sched s', exec sched s = Some s' ∧ terminal s' = true.
Proof.
  intros Hic. remember (measure s) as n eqn:Hn. revert s Hn.
  induction n as [n IH] using lt_wf_ind. intros s -> Hb Hsh Hd.
  destruct (terminal s) eqn:Hterm; [by exists [], s|].
  destruct (step_enabled _ Hic Hsh Hd Hterm) as (e & s' & Hstep).
  pose proof (measure_step _ _ _ _ _ _ _ Hb (si_len_cp _ _ _ Hsh) Hstep) as Hlt.
  destruct (IH _ Hlt s' eq_refl) as (sched & s'' & Hexec & Ht);
    [by eapply basic_inv_step|by eapply shape_inv_step|by eapply disc_inv_step|].
  exists (e :: sched), s''. simpl. rewrite Hstep. done.
Qed.

End Progress.

(** *** Every wave emits the smallest vertex that has not emitted *)

Section WaveProgress.

Variable version : variant.
Variable pid2nnBigger : list (list nat).
Variable thread_of : nat → nat.
Variable N : nat.

Local Abbreviation step := (step version pid2nnBigger thread_of).
Local Abbreviation exec := (exec version pid2nnBigger thread_of).
Local Abbreviation bigger_of := (bigger_of pid2nnBigger).
Local Abbreviation wave_inv := (wave_inv pid2nnBigger N).

(** Between two waves the smallest vertex that has not emitted is READY: all
    its smaller neighbours have emitted and have decremented its counter. *)
Lemma minimum_pending_ready s m r :
  wave_inv s → index_contract_ranges pid2nnBigger N →
  forallb finished (pcs s) = true →
  (∀ k, k < m → ∃ rk, remainingSmallerFinalsVec s !! k = Some rk ∧ (rk < 0)%Z) →
  remainingSmallerFinalsVec s !! m = Some r → (0 ≤ r)%Z → r = 0%Z.
Proof.
  intros (Hb & Hsh & Hci & Hpi) Hic Hfin Hmin Hr Hpos.
  rewrite forallb_forall in Hfin.
  assert (m < N) as Hm.
  { rewrite <- (si_len_rem _ _ _ Hsh). by eapply lookup_lt_Some. }
  destruct (lookup_lt_is_Some_2 (pcs s) m) as [p Hp];
    [by rewrite (si_len_pcs _ _ _ Hsh)|].
  assert (finished p = true) as Hf.
  { apply Hfin. apply list_elem_of_In, list_elem_of_lookup. eauto. }
  assert (has_emitted pid2nnBigger s m = false) as He.
  { unfold has_emitted. erewrite pv_lookup by done.
    destruct p as [| | | | | |isC [|]| | | | |]; try done.
    - pose proof (bi_emitted _ Hb _ _ _ Hp eq_refl Hr). lia.
    - simpl. apply Z.ltb_ge. lia. }
  pose proof (ci_rem _ _ _ Hci _ _ Hr) as Hrm. rewrite He in Hrm.
  unfold pending_count in Hrm.
  rewrite (proj2 (count_zero (λ i, m ∈ undec pid2nnBigger s i) N)) in Hrm; [done|].
  intros i Hi Hin.
  pose proof (undec_subseteq _ _ _ _ _ Hsh Hin) as Hbig.
  apply Hic in Hbig. destruct (Hmin i) as (ri & Hri & Hneg); [lia|].
  destruct (lookup_lt_is_Some_2 (pcs s) i) as [q Hq];
    [by rewrite (si_len_pcs _ _ _ Hsh)|].
  assert (finished q = true) as Hfq.
  { apply Hfin. apply list_elem_of_In, list_elem_of_lookup. eauto. }
  unfold undec in Hin. erewrite pv_lookup in Hin by done.
  destruct q as [| | | | | |isC [|]| | | | |]; try done; simpl in Hin.
  - by apply elem_of_nil in Hin.
  - assert ((ri <? 0)%Z = true) as Hlt by (apply Z.ltb_lt; lia).
    rewrite Hlt in Hin. by apply elem_of_nil in Hin.
Qed.

(** A READY vertex does not take the [continue] branch. *)
Definition ready_inv (m : nat) (s : state) : Prop :=
  ∃ p r, pcs s !! m = Some p ∧ remainingSmallerFinalsVec s !! m = Some r
         ∧ (r ≤ 0)%Z ∧ (p = Skip → (r < 0)%Z).

Lemma ready_inv_step m e s s' :
  basic_inv s → ready_inv m s → step e s = Some s' → ready_inv m s'.
Proof.
  intros Hb (p & r & Hp & Hr & Hle & Hskip) Hstep.
  destruct (rem_step _ _ _ _ _ _ _ _ Hb Hstep Hr) as (r' & Hr' & Hle').
  destruct e as [i|]; simpl in Hstep.
  - destruct (decide (m = i)) as [->|Hne].
    + exists (default Skip (pcs s' !! i)), r'.
      pose proof (lookup_lt_Some _ _ _ Hp) as Hi.
      step_iter_cases Hstep; unfold_sets; simplify_eq.
      all: rewrite ?list_lookup_insert_eq in * by done; simpl.
      all: split; [done|]; split; [done|]; split; [lia|].
      all: simplify_eq; repeat case_match; bool_facts; try done; try lia.
      all: intros _; specialize (Hskip eq_refl); lia.
    + exists p, r'. rewrite (step_iter_other _ _ _ _ _ _ _ Hstep Hne).
      split; [done|]. split; [done|]. split; [lia|]. intros Hs.
      specialize (Hskip Hs). lia.
  - unfold step_wave in Hstep. case_match; [|done]. simplify_eq.
    exists Start, r'. simpl. rewrite lookup_replicate_2 by by eapply lookup_lt_Some.
    split; [done|]. split; [done|]. split; [lia|done].
Qed.

Lemma wave_emits_minimum s1 sched s2 m :
  wave_inv s1 → wave_inv s2 → index_contract_ranges pid2nnBigger N →
  exec (NextWave :: sched) s1 = Some s2 →
  forallb finished (pcs s2) = true →
  (∀ k, k < m → ∃ rk, remainingSmallerFinalsVec s1 !! k = Some rk ∧ (rk < 0)%Z) →
  ∀ r, remainingSmallerFinalsVec s1 !! m = Some r → (0 ≤ r)%Z →
  r = 0%Z ∧ remainingSmallerFinalsVec s2 !! m = Some (-1)%Z.
Proof.
  intros Hw1 Hw2 Hic Hexec Hfin2 Hmin r Hr Hpos.
  simpl in Hexec. destruct (step_wave s1) as [s1'|] eqn:Hwave; [|done].
  simpl in Hexec. pose proof Hwave as Hwave'.
  unfold step_wave in Hwave. case_match eqn:Hc; [|done]. simplify_eq.
  apply andb_true_iff in Hc as [Hfin1 _].
  pose proof (minimum_pending_ready _ _ _ Hw1 Hic Hfin1 Hmin Hr Hpos) as ->.
  split; [done|].
  destruct Hw1 as (Hb1 & Hsh1 & _). destruct Hw2 as (Hb2 & Hsh2 & Hci2 & _).
  assert (basic_inv s2 ∧ ready_inv m s2) as [_ (p & r2 & Hp & Hr2 & Hle & Hskip)].
  { clear Hfin2 Hb2 Hsh2 Hci2. revert sched s2 Hexec. apply exec_invariant.
    - split; [by eapply (basic_inv_step version pid2nnBigger thread_of NextWave)|].
      exists Start, 0%Z. simpl. rewrite lookup_replicate_2; [done|].
      rewrite (si_len_pcs _ _ _ Hsh1), <- (si_len_rem _ _ _ Hsh1).
      by eapply lookup_lt_Some.
    - intros e s s' [Hb Hri] Hstep.
      split; [by eapply basic_inv_step|by eapply ready_inv_step]. }
  rewrite forallb_forall in Hfin2.
  assert (finished p = true) as Hf.
  { apply Hfin2. apply list_elem_of_In, list_elem_of_lookup. eauto. }
  assert (r2 < 0)%Z as Hneg.
  { destruct p as [| | | | | |isC [|]| | | | |]; try done.
    - by apply (bi_emitted _ Hb2 _ _ _ Hp eq_refl Hr2).
    - by apply Hskip. }
  pose proof (ci_rem _ _ _ Hci2 _ _ Hr2) as Hrm.
  destruct (has_emitted pid2nnBigger s2 m); [by subst|lia].
Qed.

End WaveProgress.

(** *** The wave loop of the welders *)

Lemma index_ranges_init vertices eps :
  index_contract_ranges (init_bigger vertices vertices eps) (length vertices).
Proof.
  split; [apply length_init_bigger|]. split.
  - intros i j [Hij Hn]%bigger_of_init. split; [done|].
    unfold near in Hn. destruct (vertices !! i); [|done].
    destruct (vertices !! j) eqn:Hj; [|done]. by eapply lookup_lt_Some.
  - intros i. unfold bigger_of, init_bigger. rewrite list_lookup_imap.
    destruct (vertices !! i) as [p|]; simpl; [|constructor].
    apply NoDup_filter, NoDup_filter, NoDup_seq.
Qed.

Lemma shape_inv_init vertices eps num_threads :
  shape_inv (init_bigger vertices vertices eps) (length vertices)
    (init_state vertices vertices eps num_threads).
Proof.
  split; simpl.
  - apply length_seq.
  - apply length_init_rem.
  - apply length_replicate.
  - intros i p (-> & _)%lookup_replicate. apply suffix_nil.
Qed.

Lemma disc_inv_init version vertices eps num_threads :
  disc_inv version (ints_per_cache_line * num_threads + 1)
    (init_state vertices vertices eps num_threads).
Proof.
  split; simpl; [apply length_replicate|].
  intros i isC (? & _)%lookup_replicate. done.
Qed.

(** With a negative radius the index returns nothing, not even the query
    vertex: every counter starts at [-1]. *)
Lemma init_rem_negative_eps vertices eps j r :
  ¬ (0 <= eps)%Qc → init_rem vertices vertices eps !! j = Some r → (r < 0)%Z.
Proof.
  intros He. unfold init_rem. rewrite list_lookup_imap.
  destruct (vertices !! j) as [p|]; simpl; [|done]. intros [= <-].
  unfold KDTree.SearchRadius. rewrite list_filter_filter.
  rewrite (proj2 (count_zero _ (length vertices))); [simpl; lia|].
  intros k _ [_ Hk]. unfold KDTree.in_radius, KDTree.within in Hk.
  destruct (Qc_leb 0 eps) eqn:Hle; [by apply Qc_leb_le in Hle|].
  by destruct (vertices !! k).
Qed.

Lemma rem_negative_exec version bigger thread_of s0 sched s :
  basic_inv s0 →
  (∀ j r, remainingSmallerFinalsVec s0 !! j = Some r → (r < 0)%Z) →
  exec version bigger thread_of sched s0 = Some s →
  ∀ j r, remainingSmallerFinalsVec s !! j = Some r → (r < 0)%Z.
Proof.
  intros Hb0 Hneg0 Hexec.
  enough (basic_inv s
          ∧ ∀ j r, remainingSmallerFinalsVec s !! j = Some r → (r < 0)%Z) as [_ ?];
    [done|].
  revert sched s Hexec. apply exec_invariant; [done|].
  intros e s s' [Hb Hneg] Hstep. split; [by eapply basic_inv_step|].
  intros j r' Hr'.
  destruct (lookup_lt_is_Some_2 (remainingSmallerFinalsVec s) j) as [r Hr].
  { apply lookup_lt_Some in Hr'. destruct e as [i|]; simpl in Hstep.
    - destruct (step_iter_lengths _ _ _ _ _ _ Hstep) as (_ & <- & _). done.
    - unfold step_wave in Hstep. case_match; [|done]. by simplify_eq. }
  destruct (rem_neg_step _ _ _ _ _ _ _ _ Hb Hstep Hr (Hneg _ _ Hr))
    as (r'' & Hr'' & ?). congruence.
Qed.

(** C4.  The wave loop of both welders, run on the index of the mesh with any
    radius and under any interleaving of the iterations: every run is at
    most [measure] steps long and can be continued until the loop is left (no
    iteration blocks or reads out of bounds); along a run a vertex goes from
    [rem = 0] to [rem = -1] at most once; and a wave that starts while some
    vertex has not emitted finds the smallest such vertex with [rem = 0],
    every smaller vertex having emitted, and leaves it with [rem = -1]; when
    the loop is left every vertex has emitted. *)
Theorem wave_loop_terminates (version : variant) (thread_of : nat → nat)
    (num_threads : nat) (vertices : list Vector3d) (eps : Qc) :
  (version = ForwardAsync → ∀ i, thread_of i < num_threads) →
  let bigger := init_bigger vertices vertices eps in
  let s0 := init_state vertices vertices eps num_threads in
  let run := exec version bigger thread_of in
  (∀ sched s, run sched s0 = Some s →
     length sched ≤ measure bigger (length vertices) s0
     ∧ ∃ sched' s', run (sched ++ sched') s0 = Some s' ∧ terminal s' = true)
  ∧ (∀ i sched, emissions version bigger thread_of i sched s0 ≤ 1)
  ∧ (∀ sched s1 iters s2,
       run sched s0 = Some s1 →
       run (NextWave :: map Iter iters) s1 = Some s2 →
       forallb finished (pcs s2) = true →
       (∃ i r, remainingSmallerFinalsVec s1 !! i = Some r ∧ (0 ≤ r)%Z) →
       ∃ m, remainingSmallerFinalsVec s1 !! m = Some 0%Z
            ∧ remainingSmallerFinalsVec s2 !! m = Some (-1)%Z
            ∧ ∀ k, k < m →
                ∃ r, remainingSmallerFinalsVec s1 !! k = Some r ∧ (r < 0)%Z)
  ∧ (∀ sched s, run sched s0 = Some s → terminal s = true →
       ∀ j, j < length vertices →
         ∃ r, remainingSmallerFinalsVec s !! j = Some r ∧ (r < 0)%Z).
Proof.
  intros Hthr bigger s0 run.
  pose proof (basic_inv_init vertices vertices eps num_threads) as Hb0.
  pose proof (shape_inv_init vertices eps num_threads) as Hsh0.
  pose proof (index_ranges_init vertices eps) as Hic.
  assert (version = ForwardAsync →
          ∀ i, thread_of i * ints_per_cache_line
               < ints_per_cache_line * num_threads + 1) as Hthr'.
  { intros Hv i. specialize (Hthr Hv i). unfold ints_per_cache_line. lia. }
  split; [|split; [|split]].
  4:{ intros sched s Hexec Hterm j Hj.
      pose proof (shape_inv_exec _ _ _ _ _ _ _ Hsh0 Hexec) as Hsh.
      destruct (lookup_lt_is_Some_2 (remainingSmallerFinalsVec s) j) as [r Hr];
        [by rewrite (si_len_rem _ _ _ Hsh)|].
      exists r. split; [done|].
      destruct (decide (0 <= eps)%Qc) as [He|He].
      - pose proof (weld_wave_inv _ _ _ _ _ _ _ He Hexec) as Hw.
        pose proof (terminal_all_emitted _ _ _ Hw Hic Hterm j Hj) as Hem.
        destruct Hw as (_ & _ & Hci & _).
        pose proof (ci_rem _ _ _ Hci _ _ Hr) as Hrj. rewrite Hem in Hrj. lia.
      - by eapply (rem_negative_exec _ _ _ _ _ _ Hb0
                     (λ j r, init_rem_negative_eps vertices eps j r He) Hexec). }
  - intros sched s Hexec. split.
    + pose proof (exec_length_measure version bigger thread_of (length vertices)
                    s0 sched s Hb0 (si_len_cp _ _ _ Hsh0) Hexec). lia.
    + destruct (reaches_terminal version bigger thread_of (length vertices)
                  (ints_per_cache_line * num_threads + 1) Hthr' s Hic)
        as (sched' & s' & Hexec' & Hterm).
      * by eapply basic_inv_exec.
      * by eapply shape_inv_exec.
      * revert Hexec. revert sched s. apply exec_invariant;
          [apply disc_inv_init|]. intros e s1 s2. by apply disc_inv_step.
      * exists sched', s'. split; [|done]. unfold run. rewrite exec_app.
        fold run. rewrite Hexec. done.
  - intros i sched. by apply emissions_at_most_once.
  - intros sched s1 iters s2 Hexec1 Hexec2 Hfin2 (i & r & Hr & Hpos).
    destruct (decide (0 <= eps)%Qc) as [He|He].
    + pose proof (weld_wave_inv _ _ _ _ _ _ _ He Hexec1) as Hw1.
      assert (run (sched ++ NextWave :: map Iter iters) s0 = Some s2) as Hexec.
      { unfold run. rewrite exec_app. fold run. by rewrite Hexec1. }
      pose proof (weld_wave_inv _ _ _ _ _ _ _ He Hexec) as Hw2.
      assert (∀ k, Decision (∃ rk, remainingSmallerFinalsVec s1 !! k = Some rk
                                   ∧ (0 ≤ rk)%Z)) as Hdec.
      { intros k. destruct (remainingSmallerFinalsVec s1 !! k) as [rk|].
        - destruct (decide (0 ≤ rk)%Z); [left; by exists rk|right].
          intros (? & ? & ?). simplify_eq. lia.
        - right. by intros (? & ? & ?). }
      destruct (least_witness
                  (λ k, ∃ rk, remainingSmallerFinalsVec s1 !! k = Some rk
                              ∧ (0 ≤ rk)%Z) i) as (m & (rm & Hrm & Hpm) & Hmin).
      { by exists r. }
      assert (∀ k, k < m →
                ∃ rk, remainingSmallerFinalsVec s1 !! k = Some rk ∧ (rk < 0)%Z)
        as Hmin'.
      { intros k Hk.
        destruct (lookup_lt_is_Some_2 (remainingSmallerFinalsVec s1) k) as [rk Hrk].
        { apply lookup_lt_Some in Hrm. lia. }
        exists rk. split; [done|].
        destruct (decide (rk < 0)%Z); [done|]. destruct (Hmin k Hk).
        exists rk. split; [done|lia]. }
      destruct (wave_emits_minimum _ _ _ _ _ _ _ _ Hw1 Hw2 Hic Hexec2 Hfin2
                  Hmin' _ Hrm Hpm) as [-> Hr2].
      by exists m.
    + pose proof (rem_negative_exec _ _ _ _ _ _ Hb0
                    (λ j r, init_rem_negative_eps vertices eps j r He) Hexec1
                    _ _ Hr). lia.
Qed.

(** The first wave of the asynchronous welder on three collinear points:
    vertices 1 and 2 look at their counters and skip, vertex 0 emits. *)
Lemma wave_loop_terminates_witness :
  let vertices := vertices_ collinear3 in
  let bigger := init_bigger vertices vertices (Q2Qc 1) in
  let s0 := init_state vertices vertices (Q2Qc 1) 1 in
  let run := exec ForwardAsync bigger (λ _, 0) in
  let wave := NextWave :: map Iter ([1; 1; 2; 2] ++ replicate 11 0) in
  let s2 := default s0 (run wave s0) in
  (length wave ≤ measure bigger (length vertices) s0
   ∧ ∃ sched' s', run (wave ++ sched') s0 = Some s' ∧ terminal s' = true)
  ∧ emissions ForwardAsync bigger (λ _, 0) 0 wave s0 ≤ 1
  ∧ ∃ m, remainingSmallerFinalsVec s0 !! m = Some 0%Z
         ∧ remainingSmallerFinalsVec s2 !! m = Some (-1)%Z
         ∧ ∀ k, k < m →
             ∃ r, remainingSmallerFinalsVec s0 !! k = Some r ∧ (r < 0)%Z.
Proof.
  intros vertices bigger s0 run wave s2.
  destruct (wave_loop_terminates ForwardAsync (λ _, 0) 1 vertices (Q2Qc 1))
    as (Hbound & Honce & Hwave & _).
  { intros _ i. lia. }
  split; [|split].
  - apply (Hbound wave s2). vm_compute. reflexivity.
  - apply Honce.
  - apply (Hwave [] s0 ([1; 1; 2; 2] ++ replicate 11 0) s2).
    + reflexivity.
    + vm_compute. reflexivity.
    + vm_compute. reflexivity.
    + exists 0, 0%Z. split; [vm_compute; reflexivity|lia].
Defined.

(** ** What the welder leaves alone *)

(** Two vertices one unit apart, with normals, colours, a triangle normal
    and an adjacency list. *)
Definition dressed_pair : TriangleMesh :=
  mkMesh [point 0 0 0; point 1 0 0]
         [point 0 0 1; point 0 1 0]
         [point 1 0 0; point 0 0 1]
         [(0, 1, 1)]
         [point 0 0 1]
         [[1]; [0]].

(** C10.  [merge_vertices_forward] assigns to [triangles_] and swaps
    [vertices_] only: the normals, the colours, the triangle normals and the
    adjacency list of the mesh after the call are those of the mesh before
    it.  When vertices have been merged, per-vertex normals and colours that
    matched the vertex list before the call no longer match it. *)
Theorem forward_frame (m : TriangleMesh) (kdtree : list Vector3d) (eps : Qc)
    (sched : list event) (m' : TriangleMesh) :
  merge_vertices_forward m kdtree eps sched = Some m' →
  vertex_normals_ m' = vertex_normals_ m
  ∧ vertex_colors_ m' = vertex_colors_ m
  ∧ triangle_normals_ m' = triangle_normals_ m
  ∧ adjacency_list_ m' = adjacency_list_ m
  ∧ (length (vertices_ m') < length (vertices_ m) →
     (length (vertex_normals_ m) = length (vertices_ m) →
      length (vertex_normals_ m') ≠ length (vertices_ m'))
     ∧ (length (vertex_colors_ m) = length (vertices_ m) →
        length (vertex_colors_ m') ≠ length (vertices_ m'))
     ∧ (length (adjacency_list_ m) = length (vertices_ m) →
        length (adjacency_list_ m') ≠ length (vertices_ m'))).
Proof.
  unfold merge_vertices_forward, merge_vertices_forward_run. intros Hrun.
  destruct (exec _ _ _ _ _) as [s|]; simpl in Hrun; [|done].
  destruct (terminal s); [|done]. unfold finish_forward in Hrun.
  destruct (reduce _ _ _ _ _) as [[pid2ccid new_vertices]|]; simpl in Hrun; [|done].
  destruct (mapM _ _) as [ts|]; simpl in Hrun; [|done].
  injection Hrun as <-. simpl. repeat split; lia.
Qed.

Lemma forward_frame_witness :
  let m' := default dressed_pair
              (merge_vertices_forward dressed_pair (KDTreeFlann dressed_pair)
                 (Q2Qc 1) (one_thread_forward dressed_pair (Q2Qc 1) 100)) in
  length (vertices_ m') = 1
  ∧ vertex_normals_ m' = vertex_normals_ dressed_pair
  ∧ vertex_colors_ m' = vertex_colors_ dressed_pair
  ∧ triangle_normals_ m' = triangle_normals_ dressed_pair
  ∧ adjacency_list_ m' = adjacency_list_ dressed_pair
  ∧ (length (vertices_ m') < length (vertices_ dressed_pair) →
     (length (vertex_normals_ dressed_pair) = length (vertices_ dressed_pair) →
      length (vertex_normals_ m') ≠ length (vertices_ m'))
     ∧ (length (vertex_colors_ dressed_pair) = length (vertices_ dressed_pair) →
        length (vertex_colors_ m') ≠ length (vertices_ m'))
     ∧ (length (adjacency_list_ dressed_pair) = length (vertices_ dressed_pair) →
        length (adjacency_list_ m') ≠ length (vertices_ m'))).
Proof.
  split; [vm_compute; reflexivity|].
  apply (forward_frame dressed_pair (KDTreeFlann dressed_pair) (Q2Qc 1)
           (one_thread_forward dressed_pair (Q2Qc 1) 100)).
  vm_compute. reflexivity.
Defined.

(** ** The asynchronous welder after the wave loop *)

(** *** The per-thread counters of discovered centroids *)

(** Iteration [i] stands between its [--rem[i]] and its
    [num_discovered_centroids[..] += isCentroid]. *)
Definition at_count (p : option pc) : bool :=
  match p with
  | Some ReadCent | Some (Count _) => true
  | _ => false
  end.

Section AsyncCounters.

Variable pid2nnBigger : list (list nat).
Variable thread_of : nat → nat.
Variable N : nat.
Variable num_threads : nat.
Hypothesis Hthread : ∀ i, thread_of i < num_threads.

Local Abbreviation step := (step ForwardAsync pid2nnBigger thread_of).
Local Abbreviation exec := (exec ForwardAsync pid2nnBigger thread_of).
Local Abbreviation step_iter := (step_iter ForwardAsync pid2nnBigger thread_of).
Local Abbreviation wave_inv := (wave_inv pid2nnBigger N).
Local Abbreviation ranges := (index_contract_ranges pid2nnBigger N).

(** Vertex [i] has added its [isCentroid] to the counter of its thread. *)
Definition counted (s : state) (i : nat) : bool :=
  has_emitted pid2nnBigger s i && negb (at_count (pcs s !! i)).

(** What the counter of thread [t] holds. *)
Definition discovered (s : state) (t : nat) : nat :=
  length (filter (λ i, thread_of i = t ∧ counted s i = true
                       ∧ cp_vec s !! i = Some i) (seq 0 N)).

Record counter_inv (s : state) : Prop := {
  dc_len : length (num_discovered_centroids s)
           = ints_per_cache_line * num_threads + 1;
  dc_slot : ∀ t, t < num_threads →
            num_discovered_centroids s !! (t * ints_per_cache_line)
            = Some (discovered s t);
  dc_pad : ∀ k d, num_discovered_centroids s !! k = Some d →
            (∀ t, t < num_threads → k ≠ t * ints_per_cache_line) → d = 0
}.

(** The parent of a vertex that has emitted is final. *)
Lemma cp_stable_emitted i s s' k :
  wave_inv s → ranges → step_iter i s = Some s' →
  has_emitted pid2nnBigger s k = true → cp_vec s' !! k = cp_vec s !! k.
Proof.
  intros (Hb & Hsh & Hci & Hpi) Hic Hstep Hk.
  destruct (step_iter_cp _ _ _ _ _ _ Hstep) as [->|(isC & e & j & l & Hq & He & ->)];
    [done|].
  rewrite list_lookup_insert_ne; [done|]. intros ->.
  assert (k ∈ undec pid2nnBigger s i) as Hin.
  { rewrite (undec_activated _ _ _ _ _ Hsh Hq eq_refl). by left. }
  assert (k < N) as HkN.
  { apply (undec_subseteq _ _ _ _ _ Hsh), Hic in Hin. lia. }
  destruct (lookup_lt_is_Some_2 (remainingSmallerFinalsVec s) k) as [x Hx];
    [by rewrite (si_len_rem _ _ _ Hsh)|].
  destruct (undec_target_pending _ _ _ _ _ _ Hsh Hci Hic Hin Hx) as (_ & He' & _).
  congruence.
Qed.

(** What a step does to the control point and to the counters. *)
Lemma step_iter_count i s s' p :
  step_iter i s = Some s' → pcs s !! i = Some p →
  ∃ p', pcs s' = <[i:=p']> (pcs s) ∧
    match p with
    | Count b =>
        ∃ d, num_discovered_centroids s !! (thread_of i * ints_per_cache_line) = Some d
             ∧ num_discovered_centroids s'
               = <[thread_of i * ints_per_cache_line := d + (if b then 1 else 0)]>
                   (num_discovered_centroids s)
             ∧ cp_vec s' = cp_vec s
             ∧ at_count (Some p') = false
    | ReadCent | DecWrite _ =>
        num_discovered_centroids s' = num_discovered_centroids s
        ∧ at_count (Some p') = true
    | _ =>
        num_discovered_centroids s' = num_discovered_centroids s
        ∧ at_count (Some p') = false
    end.
Proof.
  intros H Hp. step_iter_cases H; unfold_sets; simplify_eq; eexists; (split; [done|]);
    repeat case_match; simplify_eq; eauto.
Qed.

Lemma counted_step i s s' :
  wave_inv s → ranges → step_iter i s = Some s' →
  (∀ k, k ≠ i → counted s' k = counted s k)
  ∧ match pcs s !! i with
    | Some (Count _) => counted s i = false ∧ counted s' i = true
    | _ => counted s' i = counted s i
    end.
Proof.
  intros (Hb & Hsh & Hci & Hpi) Hic Hstep.
  destruct (step_iter_effect _ _ _ _ _ _ _ Hsh Hci Hic Hstep)
    as (p & p' & Hp & Hpcs & Heff).
  destruct (step_iter_count _ _ _ _ Hstep Hp) as (p'' & Hpcs' & Hcnt).
  pose proof (lookup_lt_Some _ _ _ Hp) as Hi.
  assert (p'' = p') as ->.
  { assert (<[i:=p'']> (pcs s) !! i = <[i:=p']> (pcs s) !! i) as E by congruence.
    rewrite !list_lookup_insert_eq in E by done. congruence. }
  unfold counted. split.
  - intros k Hne. rewrite Hpcs, list_lookup_insert_ne by done. f_equal.
    destruct p as [| | |r0| |isC|isC l|isC j0 l|isC e0 j0 l|isC j0 l|isC j0 l|].
    all: try (destruct Heff as (_ & _ & Hem); by rewrite Hem).
    + destruct Heff as (_ & _ & _ & Hem & _). by apply Hem.
    + destruct Heff as (x & _ & _ & _ & _ & _ & _ & _ & Hem). by rewrite Hem.
  - rewrite Hpcs, list_lookup_insert_eq, Hp by done.
    destruct (lookup_lt_is_Some_2 (remainingSmallerFinalsVec s) i) as [r Hr].
    { by rewrite (si_len_rem _ _ _ Hsh), <- (si_len_pcs _ _ _ Hsh). }
    destruct p as [| | |r0| |isC|isC l|isC j0 l|isC e0 j0 l|isC j0 l|isC j0 l|].
    all: try (destruct Heff as (_ & _ & Hem); destruct Hcnt as [_ Hat];
              by rewrite Hem, Hat).
    + destruct Heff as (_ & _ & _ & _ & He & He'). destruct Hcnt as [_ Hat].
      by rewrite He, He', Hat.
    + destruct Heff as (_ & _ & Hem). destruct Hcnt as (d & _ & _ & _ & Hat).
      rewrite Hem, Hat. simpl.
      rewrite andb_false_r, andb_true_r. split; [done|].
      unfold has_emitted. by erewrite pv_lookup by done.
    + destruct Heff as (x & _ & _ & _ & _ & _ & _ & _ & Hem). destruct Hcnt as [_ Hat].
      by rewrite Hem, Hat.
Qed.

Lemma discovered_same s s' :
  (∀ k, k < N → counted s' k = counted s k) →
  (∀ k, k < N → counted s k = true → cp_vec s' !! k = cp_vec s !! k) →
  ∀ t, discovered s' t = discovered s t.
Proof.
  intros Hc Hcp t. unfold discovered. apply count_ext. intros k Hk.
  rewrite Hc by done. split; intros (? & Hck & ?); (split; [done|]); (split; [done|]).
  - by rewrite <- Hcp.
  - by rewrite Hcp.
Qed.

Lemma counter_inv_step e s s' :
  wave_inv s → ranges → counter_inv s → step e s = Some s' → counter_inv s'.
Proof.
  intros Hw Hic [Hlen Hslot Hpad] Hstep. pose proof Hw as (Hb & Hsh & Hci & Hpi).
  destruct e as [i|]; simpl in Hstep.
  - assert (∀ k, counted s k = true → cp_vec s' !! k = cp_vec s !! k) as Hcp.
    { intros k Hk. eapply cp_stable_emitted; [done..|].
      unfold counted in Hk. by apply andb_true_iff in Hk as [? _]. }
    destruct (step_iter_pcs _ _ _ _ _ _ Hstep) as (p & _ & Hp & _).
    destruct (step_iter_count _ _ _ _ Hstep Hp) as (p' & Hpcs & Hcnt).
    assert (i < N) as Hi.
    { rewrite <- (si_len_pcs _ _ _ Hsh). by eapply lookup_lt_Some. }
    destruct (counted_step i s s' Hw Hic Hstep) as [Hother Hself].
    rewrite Hp in Hself.
    assert ((∃ b, p = Count b) ∨ ¬ (∃ b, p = Count b)) as [[b ->]|Hnc].
    { destruct p; try (right; by intros [? ?]). left. eauto. }
    + destruct Hcnt as (d & Hd & Hdisc & Hcpeq & _).
      destruct (pi_isC _ _ Hpi _ _ _ Hp eq_refl) as (c & Hc & Hbc).
      destruct Hself as [Hci0 Hci1].
      split.
      * rewrite Hdisc, length_insert. done.
      * intros t Ht. rewrite Hdisc.
        destruct (decide (t = thread_of i)) as [->|Hne].
        -- rewrite list_lookup_insert_eq by by eapply lookup_lt_Some.
           f_equal. rewrite Hslot in Hd by done. simplify_eq.
           unfold discovered. rewrite Hcpeq. destruct (decide (c = i)) as [->|Hci'].
           ++ rewrite bool_decide_eq_true_2 by done. rewrite Nat.add_1_r.
              symmetry. apply (count_remove _ _ N i); [done| | |].
              ** intros k _ Hk. by rewrite Hother.
              ** done.
              ** intros (_ & ? & _). congruence.
           ++ rewrite bool_decide_eq_false_2 by done. rewrite Nat.add_0_r.
              apply count_ext. intros k _. destruct (decide (k = i)) as [->|Hk].
              ** split; intros (_ & _ & ?); congruence.
              ** by rewrite Hother.
        -- rewrite list_lookup_insert_ne
             by (unfold ints_per_cache_line; lia).
           rewrite Hslot by done. f_equal. unfold discovered. rewrite Hcpeq.
           apply count_ext. intros k _. destruct (decide (k = i)) as [->|Hk].
           ++ split; intros (? & _); congruence.
           ++ by rewrite Hother.
      * intros k d' Hk Hnot. rewrite Hdisc in Hk.
        rewrite list_lookup_insert_ne in Hk; [by eapply Hpad|].
        intros <-. by apply (Hnot (thread_of i)).
    + assert (num_discovered_centroids s' = num_discovered_centroids s) as Hdisc.
      { destruct p; try (by destruct Hcnt). destruct Hnc. eauto. }
      assert (∀ k, counted s' k = counted s k) as Hsame.
      { intros k. destruct (decide (k = i)) as [->|Hk]; [|by apply Hother].
        destruct p; try done. destruct Hnc. eauto. }
      pose proof (discovered_same s s' (λ k _, Hsame k) (λ k _, Hcp k)) as Hd.
      split; rewrite Hdisc; [done| |done].
      intros t Ht. rewrite Hd. by apply Hslot.
  - unfold step_wave in Hstep. case_match eqn:Hfin; [|done]. simplify_eq.
    apply andb_true_iff in Hfin as [Hfin _].
    pose proof (λ k, begin_wave_views _ _ s k Hci Hfin) as Hview.
    rewrite forallb_forall in Hfin.
    assert (∀ k, k < N → counted (begin_wave s) k = counted s k) as Hsame.
    { intros k Hk. unfold counted. rewrite (proj1 (proj2 (Hview k))). f_equal.
      destruct (lookup_lt_is_Some_2 (pcs s) k) as [p Hp];
        [by rewrite (si_len_pcs _ _ _ Hsh)|].
      simpl. rewrite lookup_replicate_2 by by rewrite (si_len_pcs _ _ _ Hsh).
      rewrite Hp.
      assert (finished p = true) as Hf.
      { apply Hfin. apply list_elem_of_In, list_elem_of_lookup. eauto. }
      by destruct p as [| | | | | |isC [|]| | | | |]. }
    pose proof (discovered_same s (begin_wave s) Hsame (λ _ _ _, eq_refl)) as Hd.
    split; simpl; [done| |done].
    intros t Ht. rewrite Hd. by apply Hslot.
Qed.

Lemma counter_inv_initial rem0 s0 :
  index_contract pid2nnBigger N rem0 → initial N rem0 s0 →
  num_discovered_centroids s0
  = replicate (ints_per_cache_line * num_threads + 1) 0 →
  counter_inv s0.
Proof.
  intros Hic Hinit Hdisc. pose proof Hinit as (Hcp & Hrem & Hpcs & Hflag).
  assert (∀ t, discovered s0 t = 0) as Hz.
  { intros t. apply count_zero. intros k Hk (_ & Hc & _).
    unfold counted in Hc. apply andb_true_iff in Hc as [He _].
    destruct (has_emitted_pcs _ _ _ He) as (p & r & Hp & Hr & Hep).
    rewrite Hpcs in Hp. apply lookup_replicate in Hp as [-> _].
    rewrite Hrem, (ic_rem _ _ _ Hic) in Hr by done. simplify_eq. simpl in Hep.
    apply Z.ltb_lt in Hep. lia. }
  split; rewrite Hdisc.
  - apply length_replicate.
  - intros t Ht. rewrite Hz. apply lookup_replicate_2.
    unfold ints_per_cache_line. lia.
  - by intros k d (-> & _)%lookup_replicate.
Qed.

(** When the loop is left every centroid has been counted by its thread. *)
Lemma counter_inv_terminal s t :
  wave_inv s → ranges → counter_inv s → terminal s = true → t < num_threads →
  num_discovered_centroids s !! (t * ints_per_cache_line)
  = Some (length (filter (λ i, thread_of i = t ∧ cp_vec s !! i = Some i)
                    (seq 0 N))).
Proof.
  intros Hw Hic Hdc Hterm Ht. rewrite (dc_slot _ Hdc) by done. f_equal.
  pose proof (terminal_all_emitted _ _ _ Hw Hic Hterm) as Hall.
  destruct Hw as (Hb & Hsh & Hci & Hpi).
  apply andb_true_iff in Hterm as [Hfin _]. rewrite forallb_forall in Hfin.
  unfold discovered. apply count_ext. intros k Hk.
  assert (counted s k = true) as Hc.
  { unfold counted. rewrite Hall by done. simpl.
    destruct (lookup_lt_is_Some_2 (pcs s) k) as [p Hp];
      [by rewrite (si_len_pcs _ _ _ Hsh)|].
    rewrite Hp.
    assert (finished p = true) as Hf.
    { apply Hfin. apply list_elem_of_In, list_elem_of_lookup. eauto. }
    by destruct p as [| | | | | |isC [|]| | | | |]. }
  rewrite Hc. split; [intros (? & _ & ?)|intros (? & ?)]; done.
Qed.

End AsyncCounters.

(** *** The prefix sums *)

Lemma exclusive_scan_from_lookup l acc k :
  k < length l →
  exclusive_scan_from acc l !! k = Some (acc + sum_list_with id (take k l)).
Proof.
  revert acc k. induction l as [|x l IH]; intros acc k Hk; simpl in Hk; [lia|].
  destruct k as [|k]; simpl; [by rewrite Nat.add_0_r|].
  rewrite IH by lia. by rewrite Nat.add_assoc.
Qed.

Lemma exclusive_scan_lookup l k :
  k < length l → exclusive_scan l !! k = Some (sum_list_with id (take k l)).
Proof. intros Hk. unfold exclusive_scan. by rewrite exclusive_scan_from_lookup. Qed.

Lemma length_exclusive_scan_from l acc :
  length (exclusive_scan_from acc l) = length l.
Proof. revert acc. induction l as [|x l IH]; intros acc; simpl; [done|]. by rewrite IH. Qed.

Lemma sum_take_S l k x :
  l !! k = Some x →
  sum_list_with id (take (S k) l) = sum_list_with id (take k l) + x.
Proof.
  intros Hx. rewrite (take_S_r _ _ _ Hx), sum_list_with_app. simpl.
  by rewrite Nat.add_0_r.
Qed.

Section AsyncEpilogue.

Variable thread_of : nat → nat.
Variable num_threads : nat.
Variable vertices : list Vector3d.
Variable cp : list nat.
Variable N : nat.
Variable disc : list nat.

(** The centroids below [k] that thread [t] owns. *)
Definition owned (t k : nat) : nat :=
  length (filter (λ i, thread_of i = t ∧ cp !! i = Some i) (seq 0 k)).

(** The centroids of the threads before [t]. *)
Definition before (t : nat) : nat :=
  sum_list_with (λ t', owned t' N) (seq 0 t).

(** The new id of centroid [i]: the offset of its thread plus its rank among
    the centroids of that thread. *)
Definition async_ccid (i : nat) : nat :=
  before (thread_of i) + owned (thread_of i) i.

Hypothesis Hthread : ∀ i, thread_of i < num_threads.

Lemma owned_S t k :
  owned t (S k)
  = owned t k + (if decide (thread_of k = t ∧ cp !! k = Some k) then 1 else 0).
Proof. unfold owned. apply count_S. Qed.

Lemma owned_mono t k k' : k ≤ k' → owned t k ≤ owned t k'.
Proof.
  induction 1 as [|k' _ IH]; [done|]. rewrite owned_S. lia.
Qed.

Lemma owned_lt i :
  i < N → cp !! i = Some i → owned (thread_of i) i < owned (thread_of i) N.
Proof.
  intros Hi Hc. pose proof (owned_mono (thread_of i) (S i) N ltac:(lia)) as Hle.
  rewrite owned_S, decide_True in Hle by done. lia.
Qed.

Lemma before_S t : before (S t) = before t + owned t N.
Proof. unfold before. by rewrite sum_seq_S. Qed.

Lemma before_mono t t' : t ≤ t' → before t ≤ before t'.
Proof. induction 1 as [|t' _ IH]; [done|]. rewrite before_S. lia. Qed.

Lemma async_ccid_lt i :
  i < N → cp !! i = Some i → async_ccid i < before num_threads.
Proof.
  intros Hi Hc. unfold async_ccid. pose proof (owned_lt i Hi Hc).
  pose proof (before_mono (S (thread_of i)) num_threads (Hthread i)) as Hle.
  rewrite before_S in Hle. lia.
Qed.

Lemma async_ccid_range i :
  i < N → cp !! i = Some i →
  before (thread_of i) ≤ async_ccid i < before (S (thread_of i)).
Proof.
  intros Hi Hc. unfold async_ccid. pose proof (owned_lt i Hi Hc).
  rewrite before_S. lia.
Qed.

Lemma owned_inj i i' :
  i < i' → cp !! i = Some i → thread_of i = thread_of i' →
  owned (thread_of i) i < owned (thread_of i') i'.
Proof.
  intros Hlt Hc Ht. rewrite <- Ht.
  pose proof (owned_mono (thread_of i) (S i) i' ltac:(lia)) as Hle.
  rewrite owned_S, decide_True in Hle by done. lia.
Qed.

Lemma async_ccid_inj i i' :
  i < N → i' < N → cp !! i = Some i → cp !! i' = Some i' →
  async_ccid i = async_ccid i' → i = i'.
Proof.
  intros Hi Hi' Hc Hc' Heq.
  pose proof (async_ccid_range i Hi Hc) as Hr.
  pose proof (async_ccid_range i' Hi' Hc') as Hr'.
  destruct (decide (thread_of i = thread_of i')) as [Ht|Ht].
  - unfold async_ccid in Heq. rewrite Ht in Heq.
    destruct (Nat.lt_trichotomy i i') as [Hlt|[?|Hlt]]; [|done|].
    + pose proof (owned_inj i i' Hlt Hc Ht). rewrite Ht in *. lia.
    + pose proof (owned_inj i' i Hlt Hc' (eq_sym Ht)). rewrite Ht in *. lia.
  - destruct (Nat.lt_trichotomy (thread_of i) (thread_of i')) as [Hlt|[?|Hlt]];
      [|done|].
    + pose proof (before_mono (S (thread_of i)) (thread_of i') Hlt). lia.
    + pose proof (before_mono (S (thread_of i')) (thread_of i) Hlt). lia.
Qed.

(** All centroids are owned by some thread. *)
Lemma before_all k :
  sum_list_with (λ t, owned t k) (seq 0 num_threads)
  = length (centroids_below cp k).
Proof.
  induction k as [|k IH].
  - unfold owned, centroids_below. simpl.
    induction (seq 0 num_threads) as [|t l IHl]; simpl; [done|]. by rewrite IHl.
  - rewrite centroids_below_S, length_app, <- IH.
    assert (∀ T', sum_list_with (λ t, owned t (S k)) (seq 0 T')
                  = sum_list_with (λ t, owned t k) (seq 0 T')
                    + (if decide (thread_of k < T' ∧ cp !! k = Some k)
                       then 1 else 0)) as Hsum.
    { induction T' as [|T' IHT]; [done|].
      rewrite !sum_seq_S, IHT, owned_S.
      destruct (decide (cp !! k = Some k)) as [Hc|Hc];
        destruct (Nat.lt_trichotomy (thread_of k) T') as [?|[?|?]];
        repeat case_decide; destruct_and?; try lia; exfalso;
        try done;
        match goal with
        | H : ¬ (_ ∧ _) |- _ => apply H; split; [lia|done]
        end. }
    rewrite Hsum. f_equal.
    destruct (decide (cp !! k = Some k)) as [Hc|Hc].
    + rewrite decide_True by (split; [apply Hthread|done]). done.
    + rewrite decide_False by (by intros [_ ?]). done.
Qed.

Lemma before_total : before num_threads = length (centroids_below cp N).
Proof. apply before_all. Qed.

(** The parent array and the counters at the end of the wave loop. *)
Hypothesis Hlen_vertices : length vertices = N.
Hypothesis Hlen_cp : length cp = N.
Hypothesis Hparent : ∀ i c, cp !! i = Some c → c ≤ i.
Hypothesis Hdepth : ∀ i c, cp !! i = Some c → cp !! c = Some c.
Hypothesis Hdisc_len : length disc = ints_per_cache_line * num_threads + 1.
Hypothesis Hdisc_slot : ∀ t, t < num_threads →
  disc !! (t * ints_per_cache_line) = Some (owned t N).
Hypothesis Hdisc_pad : ∀ k d, disc !! k = Some d →
  (∀ t, t < num_threads → k ≠ t * ints_per_cache_line) → d = 0.

(** The prefix sums at the slots of the threads. *)
Lemma scan_block t j :
  t < num_threads → j ≤ ints_per_cache_line →
  sum_list_with id (take (t * ints_per_cache_line + j) disc)
  = sum_list_with id (take (t * ints_per_cache_line) disc)
    + (if decide (j = 0) then 0 else owned t N).
Proof.
  intros Ht. induction j as [|j IH]; intros Hj.
  - rewrite Nat.add_0_r. simpl. lia.
  - rewrite Nat.add_succ_r.
    destruct (lookup_lt_is_Some_2 disc (t * ints_per_cache_line + j)) as [d Hd].
    { rewrite Hdisc_len. unfold ints_per_cache_line in *. lia. }
    rewrite (sum_take_S _ _ _ Hd), IH by lia. simpl.
    destruct (decide (j = 0)) as [->|Hj0].
    + rewrite Nat.add_0_r, Hdisc_slot in Hd by done. simplify_eq. lia.
    + rewrite (Hdisc_pad _ _ Hd); [lia|].
      intros t' _. unfold ints_per_cache_line in *. lia.
Qed.

Lemma scan_slot t :
  t ≤ num_threads →
  exclusive_scan disc !! (t * ints_per_cache_line) = Some (before t).
Proof.
  intros Ht. rewrite exclusive_scan_lookup
    by (rewrite Hdisc_len; unfold ints_per_cache_line; lia).
  f_equal. induction t as [|t IH]; [done|].
  rewrite before_S, <- IH by lia.
  replace (S t * ints_per_cache_line)
    with (t * ints_per_cache_line + ints_per_cache_line) by lia.
  rewrite scan_block by (done || lia). by rewrite decide_False.
Qed.

(** *** The parallel walk that numbers the centroids (lines 270-286) *)

Record assign_inv (k : nat) (a : assign_state) : Prop := {
  ai_len_pid : length (a_pid2ccid a) = N;
  ai_len_new : length (a_new_vertices a) = before num_threads;
  ai_len_cur : length (a_current_vertex_id a) = num_threads;
  ai_cur : ∀ t, t < num_threads → a_current_vertex_id a !! t = Some (owned t k);
  ai_pid : ∀ i, i < k → cp !! i = Some i →
           a_pid2ccid a !! i = Some (async_ccid i);
  ai_new : ∀ i, i < k → cp !! i = Some i →
           a_new_vertices a !! async_ccid i = vertices !! i
}.

Lemma assign_inv_step k a :
  k < N → assign_inv k a →
  ∃ a', assign_body thread_of vertices cp (exclusive_scan disc) k a = Some a'
        ∧ assign_inv (S k) a'.
Proof.
  intros Hk [Hlp Hln Hlc Hcur Hpid Hnew]. unfold assign_body.
  destruct (lookup_lt_is_Some_2 cp k) as [c Hc]; [lia|]. rewrite Hc. simpl.
  case_bool_decide as Hck.
  - subst c. pose proof (Hthread k) as Ht.
    rewrite scan_slot by lia. simpl. rewrite Hcur by done. simpl.
    destruct (lookup_lt_is_Some_2 vertices k) as [v Hv]; [lia|]. rewrite Hv. simpl.
    fold (async_ccid k). pose proof (async_ccid_lt k Hk Hc) as Hlt.
    unfold store. rewrite !bool_decide_eq_true_2 by lia. simpl.
    eexists. split; [done|]. split; simpl; rewrite ?length_insert; try done.
    + intros t Ht'. rewrite owned_S. destruct (decide (t = thread_of k)) as [->|Hne].
      * rewrite list_lookup_insert_eq by lia. rewrite decide_True by done.
        f_equal. lia.
      * rewrite list_lookup_insert_ne by done. rewrite Hcur by done.
        rewrite decide_False by (intros [? _]; congruence). f_equal. lia.
    + intros i Hi Hci. destruct (decide (i = k)) as [->|Hne].
      * by rewrite list_lookup_insert_eq by lia.
      * rewrite list_lookup_insert_ne by done. apply Hpid; [lia|done].
    + intros i Hi Hci. destruct (decide (i = k)) as [->|Hne].
      * by rewrite list_lookup_insert_eq by lia.
      * rewrite list_lookup_insert_ne; [apply Hnew; [lia|done]|].
        intros Heq. apply Hne. symmetry. apply async_ccid_inj; try done; lia.
  - exists a. split; [done|]. split; try done.
    + intros t Ht. rewrite owned_S, decide_False by (intros [_ ?]; congruence).
      rewrite Nat.add_0_r. by apply Hcur.
    + intros i Hi Hci. apply Hpid; [|done].
      destruct (decide (i = k)) as [->|]; [congruence|lia].
    + intros i Hi Hci. apply Hnew; [|done].
      destruct (decide (i = k)) as [->|]; [congruence|lia].
Qed.

Lemma assign_loop :
  ∃ a, for_loop N (assign_body thread_of vertices cp (exclusive_scan disc))
         (mkAssign (replicate N 0) (replicate (before num_threads) vzero)
                   (replicate num_threads 0)) = Some a
       ∧ assign_inv N a.
Proof.
  apply for_loop_invariant.
  - split; simpl; rewrite ?length_replicate; try done; try (intros; lia).
    intros t Ht. by rewrite lookup_replicate_2.
  - apply assign_inv_step.
Qed.

(** *** The serial pass over the followers (lines 293-303) *)

(** The members of the cluster of centroid [c] that have been averaged when
    the pass is in front of vertex [k]. *)
Definition cluster (c k : nat) : list nat :=
  if decide (c < k) then members_below cp k c else [c].

Lemma cluster_lt c k i : c < N → k ≤ N → i ∈ cluster c k → i < N.
Proof.
  intros Hc Hk. unfold cluster. case_decide.
  - intros ?%members_below_lt. lia.
  - intros ->%list_elem_of_singleton. done.
Qed.

Lemma cluster_nonempty c k : cp !! c = Some c → cluster c k ≠ [].
Proof.
  intros Hc. unfold cluster. case_decide; [|done].
  intros Hnil. assert (c ∈ members_below cp k c) as Hin
    by (by apply members_below_pid).
  rewrite Hnil in Hin. by apply elem_of_nil in Hin.
Qed.

Lemma cluster_S c k :
  cp !! c = Some c →
  cluster c (S k)
  = if decide (cp !! k = Some c ∧ k ≠ c) then cluster c k ++ [k] else cluster c k.
Proof.
  intros Hc. unfold cluster.
  destruct (decide (c < k)) as [Hlt|Hge].
  - rewrite decide_True by lia. rewrite members_below_S.
    destruct (decide (cp !! k = Some c)) as [Hk|Hk].
    + rewrite decide_True by (split; [done|lia]). done.
    + rewrite decide_False by (by intros [? _]). by rewrite app_nil_r.
  - rewrite (decide_False (P := _ ∧ _)).
    2:{ intros [Hk Hne]. apply Hparent in Hk. lia. }
    destruct (decide (c < S k)) as [Hlt|]; [|done].
    assert (c = k) as -> by lia. rewrite members_below_S, decide_True by done.
    rewrite members_below_nil; [done|]. intros i Hi Hik. apply Hparent in Hik. lia.
Qed.

Record follower_inv (pid2ccid : list nat) (k : nat)
    (st : list Vector3d * list nat) : Prop := {
  fi_len_new : length st.1 = before num_threads;
  fi_len_mem : length st.2 = before num_threads;
  fi_mean : ∀ c, c < N → cp !! c = Some c →
            st.2 !! async_ccid c = Some (length (cluster c k))
            ∧ st.1 !! async_ccid c
              = Some (vmean (positions vertices (cluster c k)))
}.

Lemma follower_inv_step pid2ccid k st :
  (∀ i, i < N → cp !! i = Some i → pid2ccid !! i = Some (async_ccid i)) →
  k < N → follower_inv pid2ccid k st →
  ∃ st', follower_body vertices cp pid2ccid k st = Some st'
         ∧ follower_inv pid2ccid (S k) st'.
Proof.
  intros Hpid Hk [Hln Hlm Hmean]. destruct st as [new members]. simpl in *.
  destruct (lookup_lt_is_Some_2 cp k) as [c Hc]; [lia|]. rewrite Hc. simpl.
  case_bool_decide as Hck.
  - pose proof (Hparent _ _ Hc) as Hle. pose proof (Hdepth _ _ Hc) as Hcc.
    assert (c < N) as HcN by lia.
    rewrite (Hpid c HcN Hcc). simpl.
    destruct (Hmean c HcN Hcc) as [Hm Hn]. rewrite Hn, Hm. simpl.
    destruct (lookup_lt_is_Some_2 vertices k) as [v Hv]; [lia|]. rewrite Hv. simpl.
    eexists. split; [done|]. split; simpl; rewrite ?length_insert; try done.
    intros c' Hc'N Hc'. rewrite (cluster_S c' k Hc').
    pose proof (async_ccid_lt c HcN Hcc) as Hlt.
    destruct (decide (c' = c)) as [->|Hne].
    + rewrite decide_True by done.
      rewrite !list_lookup_insert_eq by lia.
      rewrite length_app. simpl. split; [f_equal; lia|]. f_equal.
      rewrite (positions_snoc _ _ _ _ Hv).
      rewrite <- running_mean_async.
      * rewrite length_positions; [done|].
        intros i Hi. rewrite Hlen_vertices. eapply cluster_lt; [| |done]; lia.
      * intros Hnil. apply (cluster_nonempty c k Hcc).
        apply (f_equal length) in Hnil.
        rewrite length_positions in Hnil.
        -- by apply length_zero_iff_nil.
        -- intros i Hi. rewrite Hlen_vertices. eapply cluster_lt; [| |done]; lia.
    + rewrite decide_False by (intros [? _]; congruence).
      rewrite !list_lookup_insert_ne; [by apply Hmean|..];
        intros Heq; apply Hne; apply async_ccid_inj; done.
  - exists (new, members). split; [done|]. split; try done. simpl.
    intros c' Hc'N Hc'. rewrite (cluster_S c' k Hc').
    rewrite decide_False; [by apply Hmean|].
    intros [Hkc Hne]. congruence.
Qed.

Lemma follower_loop a :
  assign_inv N a →
  ∃ st, for_loop N (follower_body vertices cp (a_pid2ccid a))
          (a_new_vertices a, replicate (before num_threads) 1) = Some st
        ∧ follower_inv (a_pid2ccid a) N st.
Proof.
  intros Ha. apply for_loop_invariant.
  - split; simpl; rewrite ?length_replicate; [apply (ai_len_new _ _ Ha)|done|].
    intros c Hc Hcc.
    rewrite lookup_replicate_2 by by apply async_ccid_lt.
    split; [done|]. rewrite (ai_new _ _ Ha) by done.
    destruct (lookup_lt_is_Some_2 vertices c) as [v Hv]; [lia|].
    rewrite Hv. by rewrite vmean_singleton.
  - intros k st Hk. apply follower_inv_step; [|done].
    intros i Hi. by apply (ai_pid _ _ Ha).
Qed.

(** *** The whole epilogue *)

Lemma finish_forward_async_spec m s :
  vertices_ m = vertices → cp_vec s = cp → num_discovered_centroids s = disc →
  valid_mesh m →
  ∃ m' pid2ccid,
    finish_forward_async thread_of num_threads m s = Some (m', pid2ccid)
    ∧ length (vertices_ m') = length (centroids_below cp N)
    ∧ (∀ c, c < N → cp !! c = Some c →
         pid2ccid !! c = Some (async_ccid c)
         ∧ async_ccid c < length (vertices_ m')
         ∧ vertices_ m' !! async_ccid c
           = Some (vmean (positions vertices (members_below cp N c))))
    ∧ mapM (rewrite_triangle (λ t, cp !! t ≫= λ c, pid2ccid !! c)) (triangles_ m)
      = Some (triangles_ m')
    ∧ valid_mesh m'
    ∧ length (triangles_ m') = length (triangles_ m).
Proof.
  intros Hv Hcp Hd Hvalid. unfold finish_forward_async.
  rewrite Hv, Hcp, Hd, Hlen_vertices.
  rewrite scan_slot by lia. simpl.
  destruct assign_loop as (a & -> & Ha). simpl.
  destruct (follower_loop a Ha) as ([new members] & -> & [Hln Hlm Hmean]). simpl in *.
  assert (∀ i, i < N →
            ∃ c, (cp !! i ≫= λ c, a_pid2ccid a !! c) = Some c ∧ c < length new)
    as Hpid.
  { intros i Hi. destruct (lookup_lt_is_Some_2 cp i) as [c Hc]; [lia|].
    pose proof (Hparent _ _ Hc). pose proof (Hdepth _ _ Hc) as Hcc.
    exists (async_ccid c). rewrite Hc. simpl.
    rewrite (ai_pid _ _ Ha) by (done || lia). split; [done|].
    rewrite Hln. apply async_ccid_lt; [lia|done]. }
  unfold valid_mesh in Hvalid. rewrite Hv, Hlen_vertices in Hvalid.
  destruct (rewrite_triangles_Some _ _ _ _ Hpid Hvalid) as (ts' & Hts & Hv' & Hl').
  rewrite Hts. simpl. eexists _, _. split; [done|]. simpl.
  split; [by rewrite Hln, before_total|].
  split; [|done].
  intros c Hc Hcc. destruct (Hmean c Hc Hcc) as [_ Hn].
  split; [by apply (ai_pid _ _ Ha)|]. split; [rewrite Hln; by apply async_ccid_lt|].
  rewrite Hn. unfold cluster. by rewrite decide_True.
Qed.

End AsyncEpilogue.

(** ** The two welders compared *)

Lemma centroids_below_rank cp N r :
  r < N → cp !! r = Some r →
  centroids_below cp N !! length (centroids_below cp r) = Some r.
Proof.
  intros Hr Hc. unfold centroids_below.
  replace N with (r + S (N - S r)) by lia.
  rewrite seq_app, filter_app, lookup_app_r by lia.
  rewrite Nat.sub_diag. simpl. rewrite filter_cons, decide_True by done. done.
Qed.

Lemma NoDup_centroids_below cp N : NoDup (centroids_below cp N).
Proof. apply NoDup_filter, NoDup_seq. Qed.

(** The clusters of the reducer when every follower points at a centroid:
    vertex [i] goes to the rank of its parent among the centroids, and the
    members of that cluster are the vertices with the same parent. *)
Lemma reduce_clusters vertices cp N st :
  length vertices = N → length cp = N →
  (∀ i c, cp !! i = Some c → c ≤ i) →
  (∀ i c, cp !! i = Some c → cp !! c = Some c) →
  reduce_inv vertices cp N N st →
  (∀ i c, cp !! i = Some c →
     r_pid2ccid st !! i = Some (length (centroids_below cp c)))
  ∧ (∀ c, cp !! c = Some c →
       members_below (r_pid2ccid st) N (length (centroids_below cp c))
       = members_below cp N c).
Proof.
  intros Hlv Hlc Hpar Hdepth Hri.
  assert (∀ i c, cp !! i = Some c →
            r_pid2ccid st !! i = Some (length (centroids_below cp c))) as Hpid.
  { intros i c Hc. pose proof (lookup_lt_Some _ _ _ Hc) as Hi.
    pose proof (Hpar _ _ Hc).
    rewrite (ri_follow _ _ _ _ _ Hri i c) by (done || lia).
    apply (ri_rank _ _ _ _ _ Hri); [lia|]. by eapply Hdepth. }
  split; [done|]. intros c Hc. unfold members_below. apply filter_ext_elem.
  intros i (_ & Hi)%elem_of_seq. simpl in Hi. split.
  - intros Hk. destruct (lookup_lt_is_Some_2 cp i) as [c0 Hc0]; [lia|].
    rewrite (Hpid _ _ Hc0) in Hk. pose proof (Hdepth _ _ Hc0) as Hcc0.
    rewrite Hc0. f_equal.
    apply (ri_unique _ _ _ _ _ Hri c0 c (length (centroids_below cp c)));
      try done.
    + rewrite <- Hlc. by eapply lookup_lt_Some.
    + rewrite <- Hlc. by eapply lookup_lt_Some.
    + rewrite (Hpid _ _ Hcc0). done.
    + by apply Hpid.
  - by apply Hpid.
Qed.

Lemma rewrite_triangles_compose (f g : nat → option nat) (π : nat → nat)
    n (ts ts1 ts2 : list Vector3i) :
  Forall (valid_triangle n) ts →
  (∀ a, a < n → ∃ k, f a = Some k ∧ g a = Some (π k)) →
  mapM (rewrite_triangle f) ts = Some ts1 →
  mapM (rewrite_triangle g) ts = Some ts2 →
  ts2 = (λ t : Vector3i, let '(a, b, c) := t in (π a, π b, π c)) <$> ts1.
Proof.
  intros Hvalid Hfg. revert ts1 ts2.
  induction Hvalid as [|[[a b] c] ts (Ha & Hb & Hc) _ IH]; intros ts1 ts2 H1 H2.
  - injection H1 as <-. by injection H2 as <-.
  - simpl in H1, H2.
    destruct (Hfg a Ha) as (a' & Ea & Ea2), (Hfg b Hb) as (b' & Eb & Eb2),
      (Hfg c Hc) as (c' & Ec & Ec2).
    rewrite Ea, Eb, Ec in H1. rewrite Ea2, Eb2, Ec2 in H2. simpl in H1, H2.
    destruct (mapM (rewrite_triangle f) ts) as [l1|]; simpl in H1; [|done].
    destruct (mapM (rewrite_triangle g) ts) as [l2|]; simpl in H2; [|done].
    injection H1 as <-. injection H2 as <-. rewrite fmap_cons. f_equal.
    by apply IH.
Qed.

Lemma counter_inv_exec thread_of num_threads vertices eps sched s :
  (0 <= eps)%Qc → (∀ i, thread_of i < num_threads) →
  exec ForwardAsync (init_bigger vertices vertices eps) thread_of sched
    (init_state vertices vertices eps num_threads) = Some s →
  counter_inv (init_bigger vertices vertices eps) thread_of (length vertices)
    num_threads s.
Proof.
  intros He Hthr Hexec.
  pose proof (index_contract_init vertices eps He) as Hic.
  enough (wave_inv (init_bigger vertices vertices eps) (length vertices) s
          ∧ counter_inv (init_bigger vertices vertices eps) thread_of
              (length vertices) num_threads s) as [_ ?]; [done|].
  revert sched s Hexec. apply exec_invariant.
  - split; [by apply (weld_wave_inv ForwardAsync thread_of num_threads _ _ [])|].
    eapply counter_inv_initial; [done|apply initial_init_state|done].
  - intros e s s' [Hw Hc] Hstep.
    pose proof (contract_ranges _ _ _ Hic) as Hr.
    destruct Hw as (Hb & Hsh & Hci & Hpi). split.
    + split; [|split; [|split]];
        [by eapply basic_inv_step|by eapply shape_inv_step
        |by eapply count_inv_step|by eapply parent_inv_step].
    + eapply counter_inv_step; [done| |done..]. done.
Qed.

Lemma finish_forward_async_frame thread_of num_threads m s m' pid2ccid :
  finish_forward_async thread_of num_threads m s = Some (m', pid2ccid) →
  vertex_normals_ m' = vertex_normals_ m
  ∧ vertex_colors_ m' = vertex_colors_ m
  ∧ triangle_normals_ m' = triangle_normals_ m
  ∧ adjacency_list_ m' = adjacency_list_ m.
Proof.
  unfold finish_forward_async. intros H.
  destruct (exclusive_scan _ !! _) as [K|]; simpl in H; [|done].
  destruct (for_loop _ _ _) as [a|]; simpl in H; [|done].
  destruct (for_loop _ _ _) as [[new mem]|]; simpl in H; [|done].
  destruct (mapM _ _) as [ts|]; simpl in H; [|done].
  by injection H as <- <-.
Qed.

(** What the asynchronous welder returns at the end of a complete run of its
    wave loop. *)
Lemma async_run_spec thread_of num_threads m eps sched s :
  valid_mesh m → (0 <= eps)%Qc → (∀ i, thread_of i < num_threads) →
  exec ForwardAsync (init_bigger (vertices_ m) (vertices_ m) eps) thread_of sched
    (init_state (vertices_ m) (vertices_ m) eps num_threads) = Some s →
  terminal s = true →
  let cp := cp_vec s in
  let N := length (vertices_ m) in
  greedy_parents (init_bigger (vertices_ m) (vertices_ m) eps) N cp
  ∧ (∀ i i', i < N → i' < N → cp !! i = Some i → cp !! i' = Some i' →
       async_ccid thread_of cp N i = async_ccid thread_of cp N i' → i = i')
  ∧ ∃ m' pid2ccid,
      merge_vertices_forward_async_run thread_of num_threads m (KDTreeFlann m)
        eps sched = Some (m', pid2ccid)
      ∧ length (vertices_ m') = length (centroids_below cp N)
      ∧ (∀ c, c < N → cp !! c = Some c →
           pid2ccid !! c = Some (async_ccid thread_of cp N c)
           ∧ async_ccid thread_of cp N c < length (vertices_ m')
           ∧ vertices_ m' !! async_ccid thread_of cp N c
             = Some (vmean (positions (vertices_ m) (members_below cp N c))))
      ∧ mapM (rewrite_triangle (λ t, cp !! t ≫= λ c, pid2ccid !! c)) (triangles_ m)
        = Some (triangles_ m')
      ∧ valid_mesh m'
      ∧ length (triangles_ m') = length (triangles_ m)
      ∧ vertex_normals_ m' = vertex_normals_ m
      ∧ vertex_colors_ m' = vertex_colors_ m.
Proof.
  intros Hvalid He Hthr Hexec Hterm cp N.
  pose proof (index_contract_init (vertices_ m) eps He) as Hic.
  pose proof (contract_ranges _ _ _ Hic) as Hicr.
  pose proof (weld_wave_inv _ _ _ _ _ _ _ He Hexec) as Hw.
  pose proof (counter_inv_exec _ _ _ _ _ _ He Hthr Hexec) as Hc.
  pose proof (terminal_greedy _ _ _ Hw Hicr Hterm) as Hg.
  pose proof Hw as (Hb & Hsh & _).
  pose proof (si_len_cp _ _ _ Hsh) as Hlc.
  pose proof (dc_len _ _ _ _ _ Hc) as Hdl.
  split; [done|]. split.
  { intros i i'. by apply async_ccid_inj. }
  destruct (finish_forward_async_spec thread_of num_threads (vertices_ m) cp N
              (num_discovered_centroids s) Hthr eq_refl Hlc (bi_parent _ Hb)
              (λ j c, greedy_parents_depth _ _ _ j c Hg) Hdl
              (λ t Ht, counter_inv_terminal _ _ _ _ _ _ Hw Hicr Hc Hterm Ht)
              (dc_pad _ _ _ _ _ Hc) m s eq_refl eq_refl eq_refl Hvalid)
    as (m' & pid & Hfin & Hrest).
  exists m', pid. unfold merge_vertices_forward_async_run.
  change (KDTreeFlann m) with (vertices_ m). rewrite Hexec. simpl. rewrite Hterm.
  split; [done|]. destruct Hrest as (? & ? & ? & ? & ?).
  repeat (split; [done|]).
  by destruct (finish_forward_async_frame _ _ _ _ _ _ Hfin) as (? & ? & _).
Qed.

(** What the synchronous welder returns at the end of a complete run of its
    wave loop on the index of its mesh. *)
Lemma forward_run_spec m eps sched s :
  valid_mesh m → (0 <= eps)%Qc →
  exec Forward (init_bigger (vertices_ m) (vertices_ m) eps) (λ _, 0) sched
    (init_state (vertices_ m) (vertices_ m) eps 0) = Some s →
  terminal s = true →
  let cp := cp_vec s in
  let N := length (vertices_ m) in
  greedy_parents (init_bigger (vertices_ m) (vertices_ m) eps) N cp
  ∧ ∃ m' pid2ccid,
      merge_vertices_forward_run m (KDTreeFlann m) eps sched = Some (m', pid2ccid)
      ∧ length (vertices_ m') = length (centroids_below cp N)
      ∧ (∀ i c, cp !! i = Some c →
           pid2ccid !! i = Some (length (centroids_below cp c)))
      ∧ (∀ c, cp !! c = Some c →
           vertices_ m' !! length (centroids_below cp c)
           = Some (vmean (positions (vertices_ m) (members_below cp N c))))
      ∧ mapM (rewrite_triangle (λ t, pid2ccid !! t)) (triangles_ m)
        = Some (triangles_ m').
Proof.
  intros Hvalid He Hexec Hterm cp N.
  pose proof (index_contract_init (vertices_ m) eps He) as Hic.
  pose proof (contract_ranges _ _ _ Hic) as Hicr.
  pose proof (weld_wave_inv _ _ _ _ _ _ _ He Hexec) as Hw.
  pose proof (terminal_greedy _ _ _ Hw Hicr Hterm) as Hg.
  pose proof Hw as (Hb & Hsh & _).
  pose proof (si_len_cp _ _ _ Hsh) as Hlc.
  pose proof (bi_parent _ Hb) as Hpar.
  split; [done|].
  destruct (reduce_Some (vertices_ m) cp N eq_refl Hlc Hpar (replicate N 0))
    as (st & Hred & Hri); [by rewrite length_replicate|].
  destruct (reduce_clusters (vertices_ m) cp N st eq_refl Hlc Hpar
              (λ j c, greedy_parents_depth _ _ _ j c Hg) Hri) as [Hpid Hmem].
  assert (∀ i, i < N →
            ∃ c, r_pid2ccid st !! i = Some c ∧ c < length (r_new_vertices st))
    as Hpid'.
  { intros i Hi. rewrite (ri_len_new _ _ _ _ _ Hri). by apply (ri_pid _ _ _ _ _ Hri). }
  destruct (rewrite_triangles_Some (λ t, r_pid2ccid st !! t) _ _ _ Hpid' Hvalid)
    as (ts' & Hts & Hv' & Hl').
  eexists _, (r_pid2ccid st). unfold merge_vertices_forward_run.
  change (KDTreeFlann m) with (vertices_ m). rewrite Hexec. simpl. rewrite Hterm.
  unfold finish_forward. fold N. fold cp. rewrite Hred. simpl. rewrite Hts. simpl.
  split; [done|]. simpl.
  split; [by rewrite (ri_len_new _ _ _ _ _ Hri), (ri_count _ _ _ _ _ Hri)|].
  split; [done|]. split; [|done].
  intros c Hc. assert (c < N) as HcN.
  { unfold N. rewrite <- Hlc. by eapply lookup_lt_Some. }
  destruct (ri_pid _ _ _ _ _ Hri c HcN) as (k & Hk & HkK).
  rewrite (Hpid _ _ Hc) in Hk. simplify_eq.
  destruct (ri_mean _ _ _ _ _ Hri _ HkK) as (_ & _ & ->). by rewrite Hmem.
Qed.


(** ** The parent array *)


Definition odd_first (i : nat) : nat := if Nat.even i then 1 else 0.



(** ** The sequential welder and the parallel one *)

Lemma bind_Some {A B : Type} (f : A → option B) (x : A) : Some x ≫= f = f x.
Proof. done. Qed.

Lemma for_each_nil {A B : Type} (body : B → A → option A) a :
  for_each [] body a = Some a.
Proof. done. Qed.

Lemma for_each_cons {A B : Type} (body : B → A → option A) x l a :
  for_each (x :: l) body a = body x a ≫= for_each l body.
Proof.
  unfold for_each. simpl. destruct (body x a) as [a'|]; [done|]. simpl.
  induction l as [|y l IH]; [done|]. simpl. done.
Qed.

Lemma vsum_Permutation l l' : l ≡ₚ l' → vsum l = vsum l'.
Proof.
  induction 1 as [|x l l' _ IH|x y l|l l' l'' _ IH1 _ IH2]; simpl.
  - done.
  - unfold vsum in *. simpl. by rewrite IH.
  - unfold vsum. simpl. rewrite !vadd_assoc. f_equal. apply vadd_comm.
  - congruence.
Qed.

Lemma vmean_Permutation l l' : l ≡ₚ l' → vmean l = vmean l'.
Proof.
  intros H. unfold vmean. by rewrite (vsum_Permutation _ _ H), (Permutation_length H).
Qed.

Lemma positions_Permutation vertices l l' :
  l ≡ₚ l' → positions vertices l ≡ₚ positions vertices l'.
Proof. intros H. unfold positions. by rewrite H. Qed.

Lemma positions_cons vertices i l v :
  vertices !! i = Some v → positions vertices (i :: l) = v :: positions vertices l.
Proof. intros H. unfold positions. simpl. by rewrite H. Qed.

(** The inner loop claims the neighbours that are not in the map yet. *)
Lemma claim_loop vertices vidx new_vidx l vertex n mp :
  NoDup l → (∀ x, x ∈ l → x < length vertices) →
  let claimed := filter (λ nb, vidx ≠ nb ∧ mp !! nb = None) l in
  ∃ mp',
    for_each l (claim_body vertices vidx new_vidx) (vertex, n, mp)
    = Some (vadd vertex (vsum (positions vertices claimed)),
            n + length claimed, mp')
    ∧ ∀ j, mp' !! j = if decide (j ∈ claimed) then Some new_vidx else mp !! j.
Proof.
  intros Hnd Hlt. revert vertex n mp.
  induction l as [|a l IH]; intros vertex n mp claimed.
  - exists mp. subst claimed. simpl. rewrite vadd_zero_r, Nat.add_0_r.
    split; [done|]. intros j. done.
  - apply NoDup_cons in Hnd as [Hna Hnd].
    rewrite for_each_cons.
    subst claimed. rewrite filter_cons.
    destruct (decide (vidx ≠ a ∧ mp !! a = None)) as [[Hne Hnone]|Hno].
    + destruct (lookup_lt_is_Some_2 vertices a) as [v Hv]; [apply Hlt; by left|].
      assert (claim_body vertices vidx new_vidx a (vertex, n, mp)
              = Some (vadd vertex v, S n, <[a:=new_vidx]> mp)) as ->.
      { simpl. rewrite bool_decide_eq_false_2 by done.
        rewrite bool_decide_eq_false_2 by (rewrite Hnone; by intros [? ?]).
        simpl. by rewrite Hv. }
      rewrite bind_Some.
      destruct (IH Hnd (λ x Hx, Hlt x (list_elem_of_further _ _ _ Hx))
                  (vadd vertex v) (S n) (<[a:=new_vidx]> mp)) as (mp' & Hrun & Hmp').
      assert (filter (λ nb, vidx ≠ nb ∧ <[a:=new_vidx]> mp !! nb = None) l
              = filter (λ nb, vidx ≠ nb ∧ mp !! nb = None) l) as Hsame.
      { apply filter_ext_elem. intros x Hx.
        rewrite lookup_insert_ne by (intros ->; done). done. }
      rewrite Hsame in Hrun, Hmp'. exists mp'. rewrite Hrun.
      rewrite (positions_cons _ _ _ _ Hv). split.
      * unfold vsum. simpl. by rewrite vadd_assoc, Nat.add_succ_r.
      * intros j. rewrite Hmp'. destruct (decide (j = a)) as [->|Hja].
        -- rewrite lookup_insert_eq. repeat case_decide; try done.
           all: exfalso;
             by match goal with H : _ ∉ _ :: _ |- _ => apply H; left end.
        -- rewrite lookup_insert_ne by done. repeat case_decide; try done.
           ++ exfalso. by match goal with H : _ ∉ _ :: _ |- _ => apply H; right end.
           ++ exfalso.
              by match goal with H : _ ∈ _ :: _ |- _ =>
                   apply elem_of_cons in H as [?|?] end.
    + assert (claim_body vertices vidx new_vidx a (vertex, n, mp)
              = Some (vertex, n, mp)) as ->.
      { simpl. destruct (decide (vidx = a)) as [->|Hne];
          [by rewrite bool_decide_eq_true_2|].
        rewrite (bool_decide_eq_false_2 (vidx = a)) by done. simpl.
        rewrite bool_decide_eq_true_2; [done|].
        destruct (mp !! a) eqn:E; [done|]. destruct Hno. done. }
      rewrite bind_Some.
      destruct (IH Hnd (λ x Hx, Hlt x (list_elem_of_further _ _ _ Hx))
                  vertex n mp) as (mp' & Hrun & Hmp').
      exists mp'. split; [done|]. done.
Qed.

Section MergeClose.

Variable vertices : list Vector3d.
Variable eps : Qc.
Variable nbs : list (list nat).
Variable cp : list nat.

Hypothesis Hg :
  greedy_parents (init_bigger vertices vertices eps) (length vertices) cp.
Hypothesis Hnbs_len : length nbs = length vertices.
Hypothesis Hnbs : ∀ i v l, vertices !! i = Some v → nbs !! i = Some l →
  l ≡ₚ KDTree.SearchRadius vertices v eps.

(** The new id of the cluster of centroid [c]: the number of centroids
    before it. *)
Definition rank (c : nat) : nat := length (centroids_below cp c).

Lemma greedy_parent_le i c : cp !! i = Some c → c ≤ i.
Proof.
  clear Hnbs_len Hnbs.
  intros Hc. destruct (decide (c = i)) as [->|Hne]; [done|].
  destruct (gp_parent _ _ _ Hg _ _ Hc Hne) as (? & _). lia.
Qed.

Lemma rank_S k :
  rank (S k) = rank k + (if decide (cp !! k = Some k) then 1 else 0).
Proof.
  unfold rank. rewrite centroids_below_S, length_app. by case_decide.
Qed.

(** In front of vertex [k]: the vertices whose centroid is below [k] are in
    the map, with the rank of their centroid, and the clusters of the
    centroids below [k] are complete. *)
Record merge_inv (k : nat) (st : merge_state) : Prop := {
  mi_len : length (mc_new_vertices st) = rank k;
  mi_map : ∀ j c, cp !! j = Some c →
           mc_new_vert_mapping st !! j
           = if decide (c < k) then Some (rank c) else None;
  mi_out : ∀ j, length vertices ≤ j → mc_new_vert_mapping st !! j = None;
  mi_new : ∀ c, c < k → cp !! c = Some c →
           mc_new_vertices st !! rank c
           = Some (vmean (positions vertices
                            (members_below cp (length vertices) c)))
}.

Lemma merge_inv_step k st :
  k < length vertices → merge_inv k st →
  ∃ st', merge_body vertices nbs k st = Some st' ∧ merge_inv (S k) st'.
Proof.
  intros Hk [Hlen Hmap Hout Hnew]. pose proof (gp_len _ _ _ Hg) as Hlc.
  destruct (lookup_lt_is_Some_2 cp k) as [c0 Hc0]; [lia|].
  pose proof (greedy_parent_le _ _ Hc0) as Hle.
  unfold merge_body. rewrite (Hmap _ _ Hc0).
  destruct (decide (c0 < k)) as [Hlt|Hge].
  - (* claimed by an earlier centroid *)
    rewrite bool_decide_eq_true_2 by done. exists st. split; [done|].
    assert (cp !! k ≠ Some k) as Hnc by (intros ?; simplify_eq; lia).
    split.
    + by rewrite rank_S, decide_False, Nat.add_0_r.
    + intros j c Hj. rewrite (Hmap _ _ Hj).
      destruct (decide (c = k)) as [->|Hck].
      * destruct Hnc. by eapply greedy_parents_depth.
      * repeat case_decide; try done; lia.
    + done.
    + intros c Hc Hcc. apply Hnew; [|done].
      destruct (decide (c = k)) as [->|]; [done|lia].
  - (* a new centroid *)
    assert (c0 = k) as -> by lia.
    rewrite bool_decide_eq_false_2 by (by intros [? ?]). simpl.
    destruct (lookup_lt_is_Some_2 vertices k Hk) as [v Hv]. rewrite Hv. simpl.
    destruct (lookup_lt_is_Some_2 nbs k) as [l Hl]; [lia|]. rewrite Hl. simpl.
    pose proof (Hnbs _ _ _ Hv Hl) as Hperm.
    assert (∀ x, x ∈ l ↔ near vertices eps k x = true) as Hin.
    { intros x. rewrite Hperm. by apply elem_of_SearchRadius. }
    assert (NoDup l) as Hnd.
    { rewrite Hperm. apply NoDup_filter, NoDup_seq. }
    assert (∀ x, x ∈ l → x < length vertices) as Hrange.
    { intros x Hx%Hin. unfold near in Hx. rewrite Hv in Hx.
      destruct (vertices !! x) eqn:E; [|done]. by eapply lookup_lt_Some. }
    set (mp1 := <[k:=length (mc_new_vertices st)]> (mc_new_vert_mapping st)).
    destruct (claim_loop vertices k (length (mc_new_vertices st)) l v 1 mp1
                Hnd Hrange) as (mp' & Hrun & Hmp').
    rewrite Hrun. simpl. eexists. split; [done|].
    set (C := filter (λ nb, k ≠ nb ∧ mp1 !! nb = None) l) in *.
    assert (∀ x, x ∈ C ↔ x ≠ k ∧ cp !! x = Some k) as HC.
    { intros x. unfold C. rewrite list_elem_of_filter. unfold mp1. split.
      - intros [[Hne Hnone] Hx]. split; [done|].
        rewrite lookup_insert_ne in Hnone by done.
        destruct (lookup_lt_is_Some_2 cp x) as [cx Hcx]; [rewrite Hlc; auto|].
        rewrite (Hmap _ _ Hcx) in Hnone. case_decide; [done|].
        pose proof (greedy_parent_le _ _ Hcx).
        assert (k < x) as Hkx by lia.
        assert (x ∈ bigger_of (init_bigger vertices vertices eps) k) as Hbig.
        { apply bigger_of_init. split; [done|]. by apply Hin. }
        destruct (gp_least _ _ _ Hg _ _ Hc0 Hbig) as (c' & Hc' & ?).
        rewrite Hcx in Hc'. injection Hc' as <-. rewrite Hcx. f_equal. lia.
      - intros [Hne Hx]. destruct (gp_parent _ _ _ Hg _ _ Hx) as (Hlt & Hbig & _);
          [done|].
        apply bigger_of_init in Hbig as [_ Hnear]. split; [|by apply Hin].
        split; [done|]. rewrite lookup_insert_ne by done.
        rewrite (Hmap _ _ Hx). by rewrite decide_False by lia. }
    assert (members_below cp (length vertices) k ≡ₚ k :: C) as Hmem.
    { apply NoDup_Permutation.
      - apply members_below_nodup.
      - apply NoDup_cons. split; [rewrite HC; by intros [? _]|].
        by apply NoDup_filter.
      - intros x. rewrite members_below_pid, elem_of_cons, HC. split.
        + intros [_ Hx]. destruct (decide (x = k)); [by left|by right].
        + intros [->|[_ Hx]]; [done|]. split; [|done].
          rewrite <- Hlc. by eapply lookup_lt_Some. }
    assert (∀ x, x ∈ C → x < length vertices) as HCr.
    { intros x [_ Hx]%HC. rewrite <- Hlc. by eapply lookup_lt_Some. }
    split; simpl.
    + rewrite length_app, Hlen, rank_S, decide_True by done. done.
    + intros j c Hj. rewrite Hmp'.
      destruct (decide (j ∈ C)) as [HjC|HjC].
      * apply HC in HjC as [_ HjC]. simplify_eq.
        rewrite decide_True by lia. by rewrite Hlen.
      * unfold mp1. destruct (decide (j = k)) as [->|Hjk].
        -- simplify_eq. rewrite lookup_insert_eq, decide_True by lia.
           by rewrite Hlen.
        -- rewrite lookup_insert_ne by done. rewrite (Hmap _ _ Hj).
           assert (c ≠ k) by (intros ->; apply HjC, HC; done).
           repeat case_decide; try done; lia.
    + intros j Hj. rewrite Hmp'. rewrite decide_False.
      * unfold mp1. rewrite lookup_insert_ne by lia. by apply Hout.
      * intros Hx%HCr. lia.
    + intros c Hc Hcc. destruct (decide (c = k)) as [->|Hck].
      * rewrite <- Hlen, lookup_app_r, Nat.sub_diag by done. simpl. f_equal.
        rewrite (vmean_Permutation _ _ (positions_Permutation _ _ _ Hmem)).
        rewrite (positions_cons _ _ _ _ Hv). unfold vmean. simpl.
        rewrite length_positions by done. done.
      * rewrite lookup_app_l; [apply Hnew; [lia|done]|].
        eapply lookup_lt_Some. apply Hnew; [lia|done].
Qed.

Lemma merge_loop :
  ∃ st, for_loop (length vertices) (merge_body vertices nbs) (mkMergeState [] ∅)
        = Some st
        ∧ merge_inv (length vertices) st.
Proof.
  apply for_loop_invariant.
  - split; simpl; try done; intros; try apply lookup_empty; lia.
  - apply merge_inv_step.
Qed.

End MergeClose.

Lemma forward_run_frame m kdtree eps sched m' pid2ccid :
  merge_vertices_forward_run m kdtree eps sched = Some (m', pid2ccid) →
  m' = mkMesh (vertices_ m') (vertex_normals_ m) (vertex_colors_ m)
              (triangles_ m') (triangle_normals_ m) (adjacency_list_ m).
Proof.
  unfold merge_vertices_forward_run. intros Hrun.
  destruct (exec _ _ _ _ _) as [s|]; simpl in Hrun; [|done].
  destruct (terminal s); [|done]. unfold finish_forward in Hrun.
  destruct (reduce _ _ _ _ _) as [[pid new_vertices]|]; simpl in Hrun; [|done].
  destruct (mapM _ _) as [ts|]; simpl in Hrun; [|done].
  by injection Hrun as <- <-.
Qed.

Lemma rewrite_triangles_fmap (f : nat → option nat) (g : nat → nat) n
    (ts ts' : list Vector3i) :
  Forall (valid_triangle n) ts →
  (∀ a, a < n → f a = Some (g a)) →
  mapM (rewrite_triangle f) ts = Some ts' →
  ts' = (λ t : Vector3i, let '(a, b, c) := t in (g a, g b, g c)) <$> ts.
Proof.
  intros Hvalid Hfg. revert ts'.
  induction Hvalid as [|[[a b] c] ts (Ha & Hb & Hc) _ IH]; intros ts' H.
  - by injection H as <-.
  - simpl in H. rewrite (Hfg a Ha), (Hfg b Hb), (Hfg c Hc) in H. simpl in H.
    destruct (mapM (rewrite_triangle f) ts) as [l|]; simpl in H; [|done].
    injection H as <-. rewrite fmap_cons. f_equal. by apply IH.
Qed.

Lemma centroid_of_rank cp N k :
  k < length (centroids_below cp N) →
  ∃ c, c < N ∧ cp !! c = Some c ∧ k = length (centroids_below cp c).
Proof.
  intros Hk. destruct (lookup_lt_is_Some_2 _ _ Hk) as [c Hc].
  pose proof Hc as Hin. apply list_elem_of_lookup_2, elem_of_centroids_below in Hin
    as [HcN Hcc].
  exists c. split; [done|]. split; [done|].
  eapply NoDup_lookup; [apply (NoDup_centroids_below cp N)|done|].
  by apply centroids_below_rank.
Qed.

(** The sequential welder on any neighbour lists that hold the neighbours of
    every vertex, in any order. *)
Lemma MergeCloseVertices_from_forward m eps nbs sched s :
  valid_mesh m → (0 <= eps)%Qc →
  length nbs = length (vertices_ m) →
  (∀ i v l, vertices_ m !! i = Some v → nbs !! i = Some l →
     l ≡ₚ KDTree.SearchRadius (vertices_ m) v eps) →
  exec Forward (init_bigger (vertices_ m) (vertices_ m) eps) (λ _, 0) sched
    (init_state (vertices_ m) (vertices_ m) eps 0) = Some s →
  terminal s = true →
  ∃ m', merge_vertices_forward m (KDTreeFlann m) eps sched = Some m'
        ∧ MergeCloseVertices_from m nbs = Some m'.
Proof.
  intros Hvalid He Hlen Hnbs Hexec Hterm.
  destruct (forward_run_spec m eps sched s Hvalid He Hexec Hterm)
    as (Hg & m' & pid & Hrun & Hlen' & Hpid & Hpos & Hts).
  pose proof (gp_len _ _ _ Hg) as Hlc.
  destruct (merge_loop (vertices_ m) eps nbs (cp_vec s) Hg Hlen Hnbs)
    as (st & Hloop & [Hl Hmap Hout Hnew]).
  exists m'. unfold merge_vertices_forward. rewrite Hrun. split; [done|].
  unfold MergeCloseVertices_from. rewrite Hloop. simpl. f_equal.
  rewrite (forward_run_frame _ _ _ _ _ _ Hrun). f_equal.
  - apply list_eq_same_length with (length (vertices_ m'));
      [done|by rewrite Hl, Hlen'|].
    intros i x y Hi Hx Hy. rewrite Hlen' in Hi.
    destruct (centroid_of_rank _ _ _ Hi) as (c & HcN & Hc & ->).
    unfold rank in Hnew. rewrite (Hnew c HcN Hc) in Hx. rewrite (Hpos c Hc) in Hy.
    congruence.
  - symmetry. eapply rewrite_triangles_fmap; [apply Hvalid| |done].
    intros a Ha. destruct (lookup_lt_is_Some_2 (cp_vec s) a) as [c Hc]; [lia|].
    assert (c ≤ a) by (eapply greedy_parent_le; [exact Hg|exact Hc]).
    rewrite (Hpid _ _ Hc), (Hmap _ _ Hc). rewrite decide_True by lia.
    unfold rank. done.
Qed.

Lemma forward_run_inv m kdtree eps sched r :
  merge_vertices_forward_run m kdtree eps sched = Some r →
  ∃ s, exec Forward (init_bigger kdtree (vertices_ m) eps) (λ _, 0) sched
         (init_state kdtree (vertices_ m) eps 0) = Some s
       ∧ terminal s = true.
Proof.
  unfold merge_vertices_forward_run. intros Hrun.
  destruct (exec _ _ _ _ _) as [s|]; simpl in Hrun; [|done].
  destruct (terminal s) eqn:Ht; [|done]. by exists s.
Qed.

(** The wave loop of [merge_vertices_forward] can always be run to its end. *)
Lemma forward_complete_run vertices eps :
  ∃ sched s,
    exec Forward (init_bigger vertices vertices eps) (λ _, 0) sched
      (init_state vertices vertices eps 0) = Some s
    ∧ terminal s = true.
Proof.
  apply (reaches_terminal Forward (init_bigger vertices vertices eps) (λ _, 0)
           (length vertices) (ints_per_cache_line * 0 + 1)).
  - done.
  - apply index_ranges_init.
  - apply basic_inv_init.
  - apply shape_inv_init.
  - apply disc_inv_init.
Qed.

Lemma SearchRadius_lists_ok vertices eps :
  let nbs := (λ v, KDTree.SearchRadius vertices v eps) <$> vertices in
  length nbs = length vertices
  ∧ ∀ i v l, vertices !! i = Some v → nbs !! i = Some l →
      l ≡ₚ KDTree.SearchRadius vertices v eps.
Proof.
  simpl. split; [by rewrite length_fmap|].
  intros i v l Hv Hl. rewrite list_lookup_fmap, Hv in Hl. simpl in Hl.
  by injection Hl as <-.
Qed.

Lemma MergeCloseVertices_eq_forward (m : TriangleMesh) (eps : Qc)
    (sched : list event) (m' : TriangleMesh) :
  valid_mesh m → (0 <= eps)%Qc →
  merge_vertices_forward m (KDTreeFlann m) eps sched = Some m' →
  MergeCloseVertices m (KDTreeFlann m) eps = Some m'.
Proof.
  intros Hvalid He Hrun. unfold merge_vertices_forward in Hrun.
  destruct (merge_vertices_forward_run _ _ _ _) as [r|] eqn:Hr; [|done].
  destruct (forward_run_inv _ _ _ _ _ Hr) as (s & Hexec & Hterm).
  destruct (SearchRadius_lists_ok (vertices_ m) eps) as [Hlen Hnbs].
  destruct (MergeCloseVertices_from_forward m eps _ sched s Hvalid He Hlen Hnbs
              Hexec Hterm) as (m2 & Hf & Hm).
  rewrite <- Hrun. unfold merge_vertices_forward in Hf. rewrite Hr in Hf.
  unfold MergeCloseVertices, KDTreeFlann. rewrite Hm, <- Hf. done.
Qed.

(** X1.  On a valid mesh and with a radius that is not negative, every
    complete run of [merge_vertices_forward], whatever the interleaving of
    its threads, leaves the mesh that the sequential [MergeCloseVertices]
    of Open3D leaves: the same vertices in the same order and the same
    triangles (coordinates being exact rationals in this development). *)
Theorem MergeCloseVertices_forward (m : TriangleMesh) (eps : Qc)
    (sched : list event) (m' : TriangleMesh) :
  valid_mesh m → (0 <= eps)%Qc →
  merge_vertices_forward m (KDTreeFlann m) eps sched = Some m' →
  MergeCloseVertices m (KDTreeFlann m) eps = Some m'.
Proof. apply MergeCloseVertices_eq_forward. Qed.

Lemma MergeCloseVertices_forward_witness :
  ∃ m', merge_vertices_forward kite (KDTreeFlann kite) (Q2Qc 1)
          (one_thread_forward kite (Q2Qc 1) 100) = Some m'
        ∧ MergeCloseVertices kite (KDTreeFlann kite) (Q2Qc 1) = Some m'
        ∧ length (vertices_ m') = 2
        ∧ triangles_ m' = [(0, 1, 1); (1, 1, 1)].
Proof.
  eexists. split; [vm_compute; reflexivity|].
  split; [|split; reflexivity].
  apply (MergeCloseVertices_forward kite (Q2Qc 1)
           (one_thread_forward kite (Q2Qc 1) 100)).
  - exact valid_kite.
  - vm_compute. discriminate.
  - vm_compute. reflexivity.
Defined.

(** X2.  [MergeCloseVertices] does not depend on the order in which the
    radius search reports the neighbours of a vertex: on a valid mesh and
    with a radius that is not negative, lines 106-137 return for any
    neighbour lists that hold the same vertices as the searches the mesh
    that they return for the search results themselves. *)
Theorem MergeCloseVertices_neighbour_order (m : TriangleMesh) (eps : Qc)
    (nbs : list (list nat)) :
  valid_mesh m → (0 <= eps)%Qc →
  length nbs = length (vertices_ m) →
  (∀ i v l, vertices_ m !! i = Some v → nbs !! i = Some l →
     l ≡ₚ KDTree.SearchRadius (KDTreeFlann m) v eps) →
  is_Some (MergeCloseVertices_from m nbs)
  ∧ MergeCloseVertices_from m nbs = MergeCloseVertices m (KDTreeFlann m) eps.
Proof.
  intros Hvalid He Hlen Hnbs.
  destruct (forward_complete_run (vertices_ m) eps) as (sched & s & Hexec & Hterm).
  destruct (SearchRadius_lists_ok (vertices_ m) eps) as [Hlen0 Hnbs0].
  destruct (MergeCloseVertices_from_forward m eps _ sched s Hvalid He Hlen Hnbs
              Hexec Hterm) as (m1 & Hf1 & Hm1).
  destruct (MergeCloseVertices_from_forward m eps _ sched s Hvalid He Hlen0 Hnbs0
              Hexec Hterm) as (m2 & Hf2 & Hm2).
  unfold MergeCloseVertices, KDTreeFlann. rewrite Hm1, Hm2. split; [done|].
  congruence.
Qed.

Lemma MergeCloseVertices_neighbour_order_witness :
  let nbs := reverse <$> ((λ v, KDTree.SearchRadius (KDTreeFlann kite) v (Q2Qc 1))
                            <$> vertices_ kite) in
  nbs !! 1 = Some [3; 2; 1]
  ∧ is_Some (MergeCloseVertices_from kite nbs)
  ∧ MergeCloseVertices_from kite nbs
    = MergeCloseVertices kite (KDTreeFlann kite) (Q2Qc 1).
Proof.
  split; [vm_compute; reflexivity|].
  apply (MergeCloseVertices_neighbour_order kite (Q2Qc 1)).
  - exact valid_kite.
  - vm_compute. discriminate.
  - reflexivity.
  - intros i v l Hv Hl. rewrite list_lookup_fmap, list_lookup_fmap, Hv in Hl.
    simpl in Hl. injection Hl as <-. apply reverse_Permutation.
Defined.

(** ** The binary search of the epsilon finder *)

Ltac qc_to_q :=
  unfold Qcle, Qclt, Qcdiv, Qcminus, Qcplus, Qcopp, Qcmult, Qcinv, Q2Qc in *;
  simpl this in *; rewrite ?Qred_correct in *;
  change (/ 2)%Q with (1 # 2)%Q in *.

Section BinarySearch.
Import FindEps.
Local Open Scope Qc_scope.

Variable rate : Qc → Qc.
Variable target : Qc.

Definition midpoint (lo hi : Qc) : Qc := lo + (hi - lo) / Q2Qc 2.

Lemma midpoint_between lo hi :
  lo < hi → lo < midpoint lo hi ∧ midpoint lo hi < hi.
Proof. unfold midpoint. intros H. qc_to_q. split; lra. Qed.

Lemma midpoint_halves lo hi w :
  hi - lo <= w * Q2Qc 2 →
  hi - midpoint lo hi <= w ∧ midpoint lo hi - lo <= w.
Proof. unfold midpoint. intros H. qc_to_q. split; lra. Qed.

Lemma wide_bracket lo hi : Qc_leb (hi - lo) EPSILON_MIN_RANGE = false → lo < hi.
Proof.
  intros H. assert (EPSILON_MIN_RANGE < hi - lo) as Hlt.
  { apply Qc_ltb_lt. unfold Qc_ltb. by rewrite H. }
  unfold EPSILON_MIN_RANGE in Hlt. qc_to_q. lra.
Qed.

Lemma binary_search_depth k : ∀ fuel boundary_data,
  epsilon_max_boundary boundary_data - epsilon_min_boundary boundary_data
    <= EPSILON_MIN_RANGE * Qcpower (Q2Qc 2) k →
  (k < fuel)%nat →
  ∃ e, find_epsilon_binary_search rate fuel target boundary_data = Returned e
       ∧ (epsilon_min_boundary boundary_data < epsilon_max_boundary boundary_data →
          epsilon_min_boundary boundary_data < e
          ∧ e < epsilon_max_boundary boundary_data)
       ∧ (epsilon_min_boundary boundary_data <= epsilon_max_boundary boundary_data →
          epsilon_min_boundary boundary_data <= e
          ∧ e <= epsilon_max_boundary boundary_data).
Proof.
  induction k as [|k IH]; intros fuel [lo hi rlo rhi] Hw Hfuel;
    (destruct fuel as [|fuel]; [lia|]); simpl in *.
  all: fold (midpoint lo hi).
  all: assert (lo <= hi → lo <= midpoint lo hi ∧ midpoint lo hi <= hi) as Hle
         by (unfold midpoint; intros ?; qc_to_q; split; lra).
  - assert (Qc_leb (hi - lo) EPSILON_MIN_RANGE = true) as ->.
    { apply Qc_leb_le. by rewrite Qcmult_1_r in Hw. }
    exists (midpoint lo hi). split; [done|]. split; [apply midpoint_between|done].
  - destruct (Qc_leb (hi - lo) EPSILON_MIN_RANGE) eqn:Hrange.
    { exists (midpoint lo hi). split; [done|].
      split; [apply midpoint_between|done]. }
    pose proof (wide_bracket _ _ Hrange) as Hlt.
    pose proof (midpoint_between _ _ Hlt) as [Hm1 Hm2].
    destruct (midpoint_halves lo hi (EPSILON_MIN_RANGE * Qcpower (Q2Qc 2) k))
      as [Hh1 Hh2].
    { rewrite <- Qcmult_assoc, (Qcmult_comm (Qcpower _ _)). done. }
    destruct (Qc_ltb (rhi - rlo) REDUCTION_RATE_MIN_ERROR).
    { exists (midpoint lo hi). split; [done|]. split; [done|]. done. }
    destruct (Qc_leb (rate (midpoint lo hi)) target).
    + destruct (Qc_ltb (target - rate (midpoint lo hi)) REDUCTION_RATE_MIN_ERROR).
      { exists (midpoint lo hi). split; [done|]. split; [done|]. done. }
      destruct (IH fuel (mkVals (midpoint lo hi) hi (rate (midpoint lo hi)) rhi))
        as (e & -> & Hin & _); [done|lia|].
      simpl in Hin. destruct (Hin Hm2) as [He1 He2].
      exists e. split; [done|].
      split; intros _; (split; [|done || by apply Qclt_le_weak]).
      * by etrans.
      * apply Qclt_le_weak. by etrans.
    + destruct (Qc_ltb (rate (midpoint lo hi) - target) REDUCTION_RATE_MIN_ERROR).
      { exists (midpoint lo hi). split; [done|]. split; [done|]. done. }
      destruct (IH fuel (mkVals lo (midpoint lo hi) rlo (rate (midpoint lo hi))))
        as (e & -> & Hin & _); [done|lia|].
      simpl in Hin. destruct (Hin Hm1) as [He1 He2].
      exists e. split; [done|].
      split; intros _; (split; [done || by apply Qclt_le_weak|]).
      * by etrans.
      * apply Qclt_le_weak. by etrans.
Qed.

End BinarySearch.

(** X3.  [find_epsilon_binary_search] returns for every oracle, every target
    and every bracket: a bracket that is at most [2 ^ k] times
    [EPSILON_MIN_RANGE] wide is answered within [k + 1] nested calls.  The
    answer lies in the bracket, and strictly inside it when the bracket is not
    a single point. *)
Theorem find_epsilon_binary_search_returns (rate : Qc → Qc) (target : Qc)
    (k fuel : nat) (boundary_data : FindEps.BinarySearchVals) :
  (FindEps.epsilon_max_boundary boundary_data
   - FindEps.epsilon_min_boundary boundary_data
   <= FindEps.EPSILON_MIN_RANGE * Qcpower (Q2Qc 2) k)%Qc →
  k < fuel →
  ∃ e, FindEps.find_epsilon_binary_search rate fuel target boundary_data
       = FindEps.Returned e
       ∧ (FindEps.epsilon_min_boundary boundary_data
          < FindEps.epsilon_max_boundary boundary_data →
          FindEps.epsilon_min_boundary boundary_data < e
          ∧ e < FindEps.epsilon_max_boundary boundary_data)%Qc
       ∧ (FindEps.epsilon_min_boundary boundary_data
          <= FindEps.epsilon_max_boundary boundary_data →
          FindEps.epsilon_min_boundary boundary_data <= e
          ∧ e <= FindEps.epsilon_max_boundary boundary_data)%Qc.
Proof. apply binary_search_depth. Qed.

Lemma find_epsilon_binary_search_returns_witness :
  ∃ e, FindEps.find_epsilon_binary_search (λ eps, eps) 18 half
         (FindEps.mkVals (Q2Qc (49 # 100)) half (Q2Qc (49 # 100)) half)
       = FindEps.Returned e
       ∧ (Q2Qc (49 # 100) < half → Q2Qc (49 # 100) < e ∧ e < half)%Qc
       ∧ (Q2Qc (49 # 100) <= half → Q2Qc (49 # 100) <= e ∧ e <= half)%Qc.
Proof.
  apply (find_epsilon_binary_search_returns (λ eps, eps) half 17 18
           (FindEps.mkVals (Q2Qc (49 # 100)) half (Q2Qc (49 # 100)) half)).
  - vm_compute. discriminate.
  - lia.
Defined.

Lemma step_fits_depth :
  (FindEps.EPSILON_STEP_SIZE
   <= FindEps.EPSILON_MIN_RANGE * Qcpower (Q2Qc 2) 17)%Qc.
Proof. vm_compute. discriminate. Qed.


(** ** The reduction rate that the finder measures *)

(** The welder returns at least one vertex for a mesh that has vertices, and
    never more vertices than it was given. *)
Lemma forward_vertex_count m kdtree eps sched m' :
  merge_vertices_forward m kdtree eps sched = Some m' →
  length (vertices_ m') ≤ length (vertices_ m)
  ∧ (vertices_ m ≠ [] → 1 ≤ length (vertices_ m')).
Proof.
  unfold merge_vertices_forward. intros Hm.
  destruct (merge_vertices_forward_run m kdtree eps sched) as [[m0 pid]|] eqn:Hrun;
    [|done].
  injection Hm as ->.
  destruct (forward_run_inv _ _ _ _ _ Hrun) as (s & Hexec & Hterm).
  unfold merge_vertices_forward_run in Hrun. rewrite Hexec in Hrun.
  simpl in Hrun. rewrite Hterm in Hrun.
  destruct (basic_inv_reachable _ _ _ _ _ _ _ _ Hexec) as [Hb Hlen].
  destruct (finish_forward_inv _ _ _ _ Hlen (bi_parent _ Hb) Hrun)
    as (st & Hri & _ & -> & _).
  rewrite (ri_len_new _ _ _ _ _ Hri), (ri_count _ _ _ _ _ Hri).
  split; [apply length_centroids_below|].
  intros Hne. destruct (vertices_ m) as [|v vs] eqn:Hvs; [done|]. simpl in *.
  destruct (lookup_lt_is_Some_2 (cp_vec s) 0) as [c Hc]; [lia|].
  pose proof (bi_parent _ Hb _ _ Hc) as Hc0. assert (c = 0) as -> by lia.
  assert (0 ∈ centroids_below (cp_vec s) (S (length vs))) as Hin.
  { apply elem_of_centroids_below. split; [lia|done]. }
  destruct (centroids_below _ _); [by apply elem_of_nil in Hin|simpl; lia].
Qed.

Lemma cnt_this n : (this (cnt n) == inject_Z (Z.of_nat n))%Q.
Proof. unfold cnt. simpl. apply Qred_correct. Qed.

Lemma cnt_le n k : n ≤ k → (cnt n <= cnt k)%Qc.
Proof.
  intros H. unfold Qcle, cnt. simpl. rewrite !Qred_correct, <- Zle_Qle. lia.
Qed.

Lemma cnt_lt n k : n < k → (cnt n < cnt k)%Qc.
Proof.
  intros H. unfold Qclt, cnt. simpl. rewrite !Qred_correct, <- Zlt_Qlt. lia.
Qed.

Lemma get_reduction_rate_bounds (kdtree : list Vector3d) (mesh : TriangleMesh)
    (epsilon : Qc) (sched : list event) (mesh' : TriangleMesh) :
  (Z.of_nat (length (vertices_ mesh)) < 2 ^ 64)%Z →
  merge_vertices_forward mesh kdtree epsilon sched = Some mesh' →
  let N := length (vertices_ mesh) in
  let K := length (vertices_ mesh') in
  if decide (N = 0)
  then get_reduction_rate kdtree mesh epsilon sched = Some NaN
  else 1 ≤ K ≤ N
       ∧ size_t_sub N K = Z.of_nat (N - K)
       ∧ ∃ r, get_reduction_rate kdtree mesh epsilon sched = Some (Finite r)
              ∧ r = (1 - cnt K / cnt N)%Qc
              ∧ (0 <= r)%Qc ∧ (r < 1)%Qc.
Proof.
  intros Hsize Hm N K.
  destruct (forward_vertex_count _ _ _ _ _ Hm) as [HKN HK1]. fold N K in HKN.
  unfold get_reduction_rate. rewrite Hm. simpl. fold N K.
  assert (size_t_sub N K = Z.of_nat (N - K)) as Hsub.
  { unfold size_t_sub. rewrite Z.mod_small; lia. }
  rewrite Hsub. destruct (decide (N = 0)) as [HN|HN].
  - rewrite bool_decide_true by done. replace (N - K) with 0 by lia. done.
  - rewrite bool_decide_false by done.
    assert (1 ≤ K) as HK.
    { apply HK1. intros Hnil. apply HN. unfold N. by rewrite Hnil. }
    split; [lia|]. split; [done|]. eexists. split; [done|].
    fold (cnt (N - K)).
    assert (cnt N ≠ 0%Qc) as HN0.
    { intros H0. pose proof (cnt_lt 0 N ltac:(lia)) as Hlt. rewrite H0 in Hlt.
      by apply Qclt_not_eq in Hlt. }
    assert (cnt (N - K) = cnt N - cnt K)%Qc as ->.
    { apply Qc_is_canon. unfold Qcminus, Qcplus, Qcopp, cnt, Q2Qc. simpl.
      rewrite !Qred_correct. rewrite Nat2Z.inj_sub by lia.
      unfold Z.sub. rewrite inject_Z_plus, inject_Z_opp. reflexivity. }
    split; [field; done|].
    assert (0 < cnt N)%Qc as HNpos by (apply (cnt_lt 0); lia).
    assert (0 <= cnt N - cnt K)%Qc as Hnum.
    { pose proof (cnt_le K N HKN) as Hle. qc_to_q. lra. }
    assert (cnt N - cnt K < cnt N)%Qc as Hnum'.
    { pose proof (cnt_lt 0 K HK) as Hlt. rewrite cnt_0 in Hlt. qc_to_q. lra. }
    split.
    + unfold Qcdiv. apply Qcmult_nonneg_nonneg; [done|].
      by apply Qclt_le_weak, Qcinv_pos.
    + apply (Qcmult_lt_mono_pos_r _ _ (cnt N)); [done|].
      unfold Qcdiv. rewrite <- Qcmult_assoc, (Qcmult_comm (/ cnt N)),
        Qcmult_inv_r, Qcmult_1_r, Qcmult_1_l by done. done.
Qed.


(** X5.  [get_reduction_rate] on a mesh with fewer than [2 ^ 64] vertices,
    for every index, every epsilon and every complete run of the welder: on
    a mesh without vertices the result is not a number; otherwise the
    subtraction of line 83 does not wrap around and the rate is
    [1 - K / N], for [N] vertices before and [K >= 1] vertices after the
    weld, which is at least 0 and strictly less than 1. *)
Theorem get_reduction_rate_range (kdtree : list Vector3d) (mesh : TriangleMesh)
    (epsilon : Qc) (sched : list event) (mesh' : TriangleMesh) :
  (Z.of_nat (length (vertices_ mesh)) < 2 ^ 64)%Z →
  merge_vertices_forward mesh kdtree epsilon sched = Some mesh' →
  let N := length (vertices_ mesh) in
  let K := length (vertices_ mesh') in
  if decide (N = 0)
  then get_reduction_rate kdtree mesh epsilon sched = Some NaN
  else 1 ≤ K ≤ N
       ∧ size_t_sub N K = Z.of_nat (N - K)
       ∧ ∃ r, get_reduction_rate kdtree mesh epsilon sched = Some (Finite r)
              ∧ r = (1 - cnt K / cnt N)%Qc
              ∧ (0 <= r)%Qc ∧ (r < 1)%Qc.
Proof. apply get_reduction_rate_bounds. Qed.

Lemma get_reduction_rate_range_witness :
  let sched := one_thread_forward kite (Q2Qc 1) 100 in
  ∃ mesh',
    merge_vertices_forward kite (KDTreeFlann kite) (Q2Qc 1) sched = Some mesh'
    ∧ length (vertices_ mesh') = 2
    ∧ let N := length (vertices_ kite) in
      let K := length (vertices_ mesh') in
      if decide (N = 0)
      then get_reduction_rate (KDTreeFlann kite) kite (Q2Qc 1) sched = Some NaN
      else 1 ≤ K ≤ N
           ∧ size_t_sub N K = Z.of_nat (N - K)
           ∧ ∃ r, get_reduction_rate (KDTreeFlann kite) kite (Q2Qc 1) sched
                  = Some (Finite r)
                  ∧ r = (1 - cnt K / cnt N)%Qc
                  ∧ (0 <= r)%Qc ∧ (r < 1)%Qc.
Proof.
  intros sched. eexists. split; [vm_compute; reflexivity|].
  split; [reflexivity|].
  apply (get_reduction_rate_range (KDTreeFlann kite) kite (Q2Qc 1) sched).
  - vm_compute. reflexivity.
  - vm_compute. reflexivity.
Defined.


Definition measured_rate (mesh : TriangleMesh) (epsilon : Qc) : Qc :=
  match get_reduction_rate (KDTreeFlann mesh) mesh epsilon
          (one_thread_forward mesh epsilon 100) with
  | Some (Finite r) => r
  | _ => 0%Qc
  end.

Definition is_measured (mesh : TriangleMesh) (k : nat) : bool :=
  match get_reduction_rate (KDTreeFlann mesh) mesh (grid k)
          (one_thread_forward mesh (grid k) 100) with
  | Some (Finite r) => true
  | _ => false
  end.


(** ** The adjacency list *)

(** Vertices [i] and [j] sit at two different corners of the triangle. *)
Definition corners (t : Vector3i) (i j : nat) : Prop :=
  let '(a, b, c) := t in
  (i = a ∧ (j = b ∨ j = c)) ∨ (i = b ∧ (j = a ∨ j = c))
  ∨ (i = c ∧ (j = a ∨ j = b)).

Lemma corners_sym t i j : corners t i j → corners t j i.
Proof. destruct t as [[a b] c]. unfold corners. intuition (subst; eauto). Qed.

Lemma elem_of_set_insert x s y : y ∈ set_insert x s ↔ y = x ∨ y ∈ s.
Proof.
  unfold set_insert. case_bool_decide; [|by rewrite elem_of_cons].
  split; [by right|]. by intros [->|?].
Qed.

Lemma NoDup_set_insert x s : NoDup s → NoDup (set_insert x s).
Proof.
  unfold set_insert. case_bool_decide; [done|]. by constructor.
Qed.

(** What holds of the list after some of the insertions: every set has no
    duplicates, and [j] is in set [i] exactly when [R i j] or it has been put
    there. *)
Definition adjacency_inv (n : nat) (R : nat → nat → Prop)
    (adjacency_list : list (list nat)) : Prop :=
  length adjacency_list = n
  ∧ ∀ i l, adjacency_list !! i = Some l → NoDup l ∧ ∀ j, j ∈ l ↔ R i j.

Lemma adjacency_insert_inv n R a b adjacency_list :
  a < n → adjacency_inv n R adjacency_list →
  ∃ adjacency_list',
    adjacency_insert a b adjacency_list = Some adjacency_list'
    ∧ adjacency_inv n (λ i j, R i j ∨ (i = a ∧ j = b)) adjacency_list'.
Proof.
  intros Ha [Hlen Hinv]. unfold adjacency_insert.
  destruct (lookup_lt_is_Some_2 adjacency_list a) as [s Hs]; [lia|].
  rewrite Hs. simpl. eexists. split; [done|]. split; [by rewrite length_insert|].
  intros i l Hl. destruct (decide (i = a)) as [->|Hne].
  - rewrite list_lookup_insert_eq in Hl by lia. injection Hl as <-.
    destruct (Hinv _ _ Hs) as [Hnd Hin]. split; [by apply NoDup_set_insert|].
    intros j. rewrite elem_of_set_insert, Hin. intuition (subst; eauto).
  - rewrite list_lookup_insert_ne in Hl by done.
    destruct (Hinv _ _ Hl) as [Hnd Hin]. split; [done|].
    intros j. rewrite Hin. intuition (subst; eauto).
Qed.

Lemma adjacency_insert_None a b adjacency_list :
  length adjacency_list ≤ a → adjacency_insert a b adjacency_list = None.
Proof.
  intros H. unfold adjacency_insert. by rewrite lookup_ge_None_2.
Qed.

Lemma adjacency_insert_length a b adjacency_list adjacency_list' :
  adjacency_insert a b adjacency_list = Some adjacency_list' →
  length adjacency_list' = length adjacency_list.
Proof.
  unfold adjacency_insert. destruct (adjacency_list !! a); [|done].
  simpl. intros [= <-]. by rewrite length_insert.
Qed.

Lemma adjacency_body_inv n R t adjacency_list :
  valid_triangle n t → adjacency_inv n R adjacency_list →
  ∃ adjacency_list',
    adjacency_body t adjacency_list = Some adjacency_list'
    ∧ adjacency_inv n (λ i j, R i j ∨ corners t i j) adjacency_list'.
Proof.
  destruct t as [[a b] c]. intros (Ha & Hb & Hc) H0. unfold adjacency_body.
  destruct (adjacency_insert_inv _ _ a b _ Ha H0) as (l1 & -> & H1). simpl.
  destruct (adjacency_insert_inv _ _ a c _ Ha H1) as (l2 & -> & H2). simpl.
  destruct (adjacency_insert_inv _ _ b a _ Hb H2) as (l3 & -> & H3). simpl.
  destruct (adjacency_insert_inv _ _ b c _ Hb H3) as (l4 & -> & H4). simpl.
  destruct (adjacency_insert_inv _ _ c a _ Hc H4) as (l5 & -> & H5). simpl.
  destruct (adjacency_insert_inv _ _ c b _ Hc H5) as (l6 & -> & H6).
  exists l6. split; [done|]. destruct H6 as [Hlen Hinv]. split; [done|].
  intros i l Hl. destruct (Hinv i l Hl) as [Hnd Hin]. split; [done|].
  intros j. rewrite Hin. unfold corners. intuition (subst; eauto).
Qed.

Lemma adjacency_loop n R ts adjacency_list :
  Forall (valid_triangle n) ts → adjacency_inv n R adjacency_list →
  ∃ adjacency_list',
    for_each ts adjacency_body adjacency_list = Some adjacency_list'
    ∧ adjacency_inv n (λ i j, R i j ∨ ∃ t, t ∈ ts ∧ corners t i j)
        adjacency_list'.
Proof.
  intros Hvalid. revert R adjacency_list.
  induction Hvalid as [|t ts Ht _ IH]; intros R adjacency_list H0.
  - exists adjacency_list. split; [done|]. destruct H0 as [Hlen Hinv].
    split; [done|]. intros i l Hl. destruct (Hinv i l Hl) as [Hnd Hin].
    split; [done|]. intros j. rewrite Hin. split; [by left|].
    intros [?|(t & Ht%elem_of_nil & _)]; done.
  - rewrite for_each_cons.
    destruct (adjacency_body_inv _ _ _ _ Ht H0) as (l1 & -> & H1). simpl.
    destruct (IH _ _ H1) as (l2 & -> & [Hlen Hinv]). exists l2. split; [done|].
    split; [done|]. intros i l Hl. destruct (Hinv i l Hl) as [Hnd Hin].
    split; [done|]. intros j. rewrite Hin. split.
    + intros [[?|?]|(t' & ? & ?)]; [by left|right..].
      * exists t. split; [by left|done].
      * exists t'. split; [by right|done].
    + intros [?|(t' & [->|?]%elem_of_cons & ?)]; [by left; left|by left; right|].
      right. by exists t'.
Qed.

Lemma adjacency_inv_empty n :
  adjacency_inv n (λ _ _, False) (replicate n []).
Proof.
  split; [by rewrite length_replicate|].
  intros i l [-> _]%lookup_replicate. split; [constructor|].
  intros j. split; [by intros ?%elem_of_nil|done].
Qed.

Lemma ComputeAdjacencyList_spec m :
  valid_mesh m →
  ∃ adjacency_list,
    ComputeAdjacencyList m
    = Some (mkMesh (vertices_ m) (vertex_normals_ m) (vertex_colors_ m)
              (triangles_ m) (triangle_normals_ m) adjacency_list)
    ∧ length adjacency_list = length (vertices_ m)
    ∧ ∀ i l, adjacency_list !! i = Some l →
        NoDup l ∧ ∀ j, j ∈ l ↔ ∃ t, t ∈ triangles_ m ∧ corners t i j.
Proof.
  intros Hvalid.
  destruct (adjacency_loop _ _ _ _ Hvalid (adjacency_inv_empty _))
    as (adj & Hloop & Hlen & Hinv).
  exists adj. unfold ComputeAdjacencyList. rewrite Hloop. split; [done|].
  split; [done|]. intros i l Hl. destruct (Hinv i l Hl) as [Hnd Hin].
  split; [done|]. intros j. rewrite Hin. intuition (subst; eauto).
Qed.

(** X7.  On a mesh whose triangle ids are vertex ids,
    [ComputeAdjacencyList] replaces the adjacency list and nothing else.  The
    new list has one set for every vertex, no set has duplicates, and [j] is
    in the set of [i] exactly when the two sit at different corners of some
    triangle.  So adjacency is symmetric, and a vertex is adjacent to itself
    exactly when a triangle names it at two corners. *)
Theorem ComputeAdjacencyList_corners (m : TriangleMesh) :
  valid_mesh m →
  ∃ adjacency_list,
    ComputeAdjacencyList m
    = Some (mkMesh (vertices_ m) (vertex_normals_ m) (vertex_colors_ m)
              (triangles_ m) (triangle_normals_ m) adjacency_list)
    ∧ length adjacency_list = length (vertices_ m)
    ∧ (∀ i l, adjacency_list !! i = Some l →
         NoDup l ∧ ∀ j, j ∈ l ↔ ∃ t, t ∈ triangles_ m ∧ corners t i j)
    ∧ (∀ i j li lj, adjacency_list !! i = Some li → adjacency_list !! j = Some lj →
         j ∈ li ↔ i ∈ lj)
    ∧ (∀ i l, adjacency_list !! i = Some l →
         i ∈ l ↔ ∃ a b c, (a, b, c) ∈ triangles_ m
                          ∧ ((i = a ∧ i = b) ∨ (i = a ∧ i = c) ∨ (i = b ∧ i = c))).
Proof.
  intros Hvalid.
  destruct (ComputeAdjacencyList_spec m Hvalid) as (adj & Hrun & Hlen & Hinv).
  exists adj. split; [done|]. split; [done|]. split; [done|]. split.
  - intros i j li lj Hi Hj.
    rewrite (proj2 (Hinv _ _ Hi)), (proj2 (Hinv _ _ Hj)).
    split; intros (t & ? & ?%corners_sym); by exists t.
  - intros i l Hi. rewrite (proj2 (Hinv _ _ Hi)). split.
    + intros ([[a b] c] & Ht & Hc). exists a, b, c. split; [done|].
      unfold corners in Hc. intuition (subst; eauto).
    + intros (a & b & c & Ht & Hc). exists (a, b, c). split; [done|].
      unfold corners. intuition (subst; eauto).
Qed.

Lemma ComputeAdjacencyList_corners_witness :
  ∃ adjacency_list,
    ComputeAdjacencyList kite
    = Some (mkMesh (vertices_ kite) (vertex_normals_ kite) (vertex_colors_ kite)
              (triangles_ kite) (triangle_normals_ kite) adjacency_list)
    ∧ length adjacency_list = length (vertices_ kite)
    ∧ (∀ i l, adjacency_list !! i = Some l →
         NoDup l ∧ ∀ j, j ∈ l ↔ ∃ t, t ∈ triangles_ kite ∧ corners t i j)
    ∧ (∀ i j li lj, adjacency_list !! i = Some li → adjacency_list !! j = Some lj →
         j ∈ li ↔ i ∈ lj)
    ∧ (∀ i l, adjacency_list !! i = Some l →
         i ∈ l ↔ ∃ a b c, (a, b, c) ∈ triangles_ kite
                          ∧ ((i = a ∧ i = b) ∨ (i = a ∧ i = c) ∨ (i = b ∧ i = c))).
Proof. apply (ComputeAdjacencyList_corners kite). exact valid_kite. Defined.

Lemma adjacency_body_Some t adjacency_list adjacency_list' :
  adjacency_body t adjacency_list = Some adjacency_list' →
  valid_triangle (length adjacency_list) t
  ∧ length adjacency_list' = length adjacency_list.
Proof.
  destruct t as [[a b] c]. unfold adjacency_body. intros H.
  destruct (adjacency_insert a b adjacency_list) as [l1|] eqn:H1; simpl in H; [|done].
  destruct (adjacency_insert a c l1) as [l2|] eqn:H2; simpl in H; [|done].
  destruct (adjacency_insert b a l2) as [l3|] eqn:H3; simpl in H; [|done].
  destruct (adjacency_insert b c l3) as [l4|] eqn:H4; simpl in H; [|done].
  destruct (adjacency_insert c a l4) as [l5|] eqn:H5; simpl in H; [|done].
  simpl in H.
  pose proof (adjacency_insert_length _ _ _ _ H1).
  pose proof (adjacency_insert_length _ _ _ _ H2).
  pose proof (adjacency_insert_length _ _ _ _ H3).
  pose proof (adjacency_insert_length _ _ _ _ H4).
  pose proof (adjacency_insert_length _ _ _ _ H5).
  pose proof (adjacency_insert_length _ _ _ _ H).
  assert (∀ x y l l', adjacency_insert x y l = Some l' → x < length l) as Hlt.
  { intros x y l l' Hi. unfold adjacency_insert in Hi.
    destruct (l !! x) eqn:Hx; [|done]. by eapply lookup_lt_Some. }
  apply Hlt in H1, H3, H5. simpl. lia.
Qed.

Lemma adjacency_loop_Some ts adjacency_list adjacency_list' :
  for_each ts adjacency_body adjacency_list = Some adjacency_list' →
  Forall (valid_triangle (length adjacency_list)) ts.
Proof.
  revert adjacency_list. induction ts as [|t ts IH]; intros adjacency_list H.
  - constructor.
  - rewrite for_each_cons in H.
    destruct (adjacency_body t adjacency_list) as [l1|] eqn:H1; [|done].
    apply adjacency_body_Some in H1 as [Ht Hlen]. constructor; [done|].
    rewrite <- Hlen. by apply IH.
Qed.

(** X8.  [ComputeAdjacencyList] stays inside [adjacency_list_] exactly on
    the meshes whose triangle ids are all vertex ids: one id that is not
    below the vertex count makes an [insert] of lines 86-91 index the vector
    out of its bounds. *)
Theorem ComputeAdjacencyList_defined_iff_valid (m : TriangleMesh) :
  is_Some (ComputeAdjacencyList m) ↔ valid_mesh m.
Proof.
  split.
  - intros [m' Hm]. unfold ComputeAdjacencyList in Hm.
    destruct (for_each _ _ _) as [adj|] eqn:Hloop; [|done].
    apply adjacency_loop_Some in Hloop. by rewrite length_replicate in Hloop.
  - intros Hvalid. destruct (ComputeAdjacencyList_spec m Hvalid) as (adj & -> & _).
    done.
Qed.

(** ** The adjacency list of a welded mesh *)

Lemma corners_fmap (g : nat → nat) a b c k k' :
  corners (g a, g b, g c) k k'
  ↔ ∃ i j, corners (a, b, c) i j ∧ g i = k ∧ g j = k'.
Proof.
  unfold corners. split.
  - intros [H|[H|H]]; destruct H as [Hk [Hk'|Hk']]; subst k k'; eexists _, _;
      (split; [|done]); intuition eauto.
  - intros (i & j & Hc & <- & <-). intuition (subst; eauto).
Qed.

(** X9.  After a weld [ComputeAdjacencyList] succeeds, whatever the index,
    the radius and the interleaving of the weld, and it yields the adjacency
    of the clusters: new vertex [k'] is adjacent to new vertex [k] exactly
    when some triangle of the mesh before the weld has a member of cluster
    [k] and a member of cluster [k'] at two different corners.  A triangle
    with two corners in one cluster makes that cluster adjacent to itself. *)
Theorem welded_adjacency (m : TriangleMesh) (kdtree : list Vector3d) (eps : Qc)
    (sched : list event) (m' : TriangleMesh) (pid2ccid : list nat) :
  valid_mesh m →
  merge_vertices_forward_run m kdtree eps sched = Some (m', pid2ccid) →
  ∃ adjacency_list,
    ComputeAdjacencyList m'
    = Some (mkMesh (vertices_ m') (vertex_normals_ m') (vertex_colors_ m')
              (triangles_ m') (triangle_normals_ m') adjacency_list)
    ∧ length adjacency_list = length (vertices_ m')
    ∧ ∀ k l, adjacency_list !! k = Some l →
        ∀ k', k' ∈ l ↔ ∃ t i j, t ∈ triangles_ m ∧ corners t i j
                                ∧ pid2ccid !! i = Some k
                                ∧ pid2ccid !! j = Some k'.
Proof.
  intros Hvalid Hrun.
  destruct (forward_run_inv _ _ _ _ _ Hrun) as (s & Hexec & Hterm).
  unfold merge_vertices_forward_run in Hrun. rewrite Hexec in Hrun.
  simpl in Hrun. rewrite Hterm in Hrun.
  destruct (basic_inv_reachable _ _ _ _ _ _ _ _ Hexec) as [Hb Hlen].
  destruct (finish_forward_inv _ _ _ _ Hlen (bi_parent _ Hb) Hrun)
    as (st & Hri & -> & Hnew & Hts & _).
  assert (∀ i, i < length (vertices_ m) →
            ∃ c, r_pid2ccid st !! i = Some c ∧ c < length (vertices_ m')) as Hpid.
  { intros i Hi. rewrite Hnew, (ri_len_new _ _ _ _ _ Hri).
    by apply (ri_pid _ _ _ _ _ Hri). }
  destruct (rewrite_triangles_Some (λ t, r_pid2ccid st !! t) _ _ _ Hpid Hvalid)
    as (ts' & Hts' & Hvalid' & _).
  rewrite Hts in Hts'. injection Hts' as <-.
  destruct (ComputeAdjacencyList_spec m' Hvalid') as (adj & Hadj & Hl & Hinv).
  exists adj. split; [done|]. split; [done|]. intros k l Hk k'.
  rewrite (proj2 (Hinv _ _ Hk)).
  set (g := λ a, default 0 (r_pid2ccid st !! a)).
  assert (∀ a, a < length (vertices_ m) → r_pid2ccid st !! a = Some (g a)) as Hg.
  { intros a Ha. destruct (Hpid a Ha) as (c & Hc & _). unfold g. by rewrite Hc. }
  rewrite (rewrite_triangles_fmap _ g _ _ _ Hvalid Hg Hts). split.
  - intros (t' & ([[a b] c] & -> & Ht)%list_elem_of_fmap & Hc).
    apply corners_fmap in Hc as (i & j & Hc & <- & <-).
    pose proof (proj1 (Forall_forall _ _) Hvalid _ Ht) as (Ha & Hb' & Hc').
    exists (a, b, c), i, j. split; [done|]. split; [done|].
    unfold corners in Hc. split; apply Hg; intuition (subst; eauto).
  - intros ([[a b] c] & i & j & Ht & Hc & Hi & Hj).
    exists (g a, g b, g c). split.
    + apply list_elem_of_fmap. by exists (a, b, c).
    + apply corners_fmap. exists i, j. split; [done|].
      pose proof (proj1 (Forall_forall _ _) Hvalid _ Ht) as (Ha & Hb' & Hc').
      assert (i < length (vertices_ m) ∧ j < length (vertices_ m)) as [Hi' Hj'].
      { unfold corners in Hc. split; intuition (subst; eauto). }
      rewrite (Hg _ Hi') in Hi. rewrite (Hg _ Hj') in Hj. by simplify_eq.
Qed.

Lemma welded_adjacency_witness :
  let sched := one_thread_forward kite (Q2Qc 1) 100 in
  ∃ m' pid2ccid,
    merge_vertices_forward_run kite (KDTreeFlann kite) (Q2Qc 1) sched
    = Some (m', pid2ccid)
    ∧ ∃ adjacency_list,
        ComputeAdjacencyList m'
        = Some (mkMesh (vertices_ m') (vertex_normals_ m') (vertex_colors_ m')
                  (triangles_ m') (triangle_normals_ m') adjacency_list)
        ∧ length adjacency_list = length (vertices_ m')
        ∧ ∀ k l, adjacency_list !! k = Some l →
            ∀ k', k' ∈ l ↔ ∃ t i j, t ∈ triangles_ kite ∧ corners t i j
                                    ∧ pid2ccid !! i = Some k
                                    ∧ pid2ccid !! j = Some k'.
Proof.
  intros sched. eexists _, _. split; [vm_compute; reflexivity|].
  apply (welded_adjacency kite (KDTreeFlann kite) (Q2Qc 1) sched).
  - exact valid_kite.
  - vm_compute. reflexivity.
Defined.

(** ** Normals *)

Section NormalFacts.

Variable NormalizeNormals : TriangleMesh → TriangleMesh.
Variable uninitialised : Vector3d.

Lemma cross_orthogonal p0 p1 p2 :
  let n := cross (vsub p1 p0) (vsub p2 p0) in
  dot n (vsub p1 p0) = 0%Qc ∧ dot n (vsub p2 p0) = 0%Qc
  ∧ dot n (vsub p2 p1) = 0%Qc.
Proof.
  destruct p0, p1, p2. unfold dot, cross, vsub. simpl.
  split; [ring|]. split; ring.
Qed.

Lemma cross_degenerate p0 p1 p2 :
  p0 = p1 ∨ p0 = p2 ∨ p1 = p2 →
  cross (vsub p1 p0) (vsub p2 p0) = vzero.
Proof.
  destruct p0 as [x0 y0 z0], p1 as [x1 y1 z1], p2 as [x2 y2 z2].
  intros [H|[H|H]]; injection H as -> -> ->;
    unfold cross, vsub, vzero; simpl; f_equal; ring.
Qed.

(** After [k] triangles the first [k] normals are cross products. *)
Definition triangle_normals_inv (m : TriangleMesh) (k : nat)
    (triangle_normals : list Vector3d) : Prop :=
  length triangle_normals = length (triangles_ m)
  ∧ ∀ i a b c p0 p1 p2, i < k →
      triangles_ m !! i = Some (a, b, c) →
      vertices_ m !! a = Some p0 → vertices_ m !! b = Some p1 →
      vertices_ m !! c = Some p2 →
      triangle_normals !! i = Some (cross (vsub p1 p0) (vsub p2 p0)).

Lemma triangle_normal_step m k triangle_normals :
  valid_mesh m → k < length (triangles_ m) →
  triangle_normals_inv m k triangle_normals →
  ∃ triangle_normals',
    triangle_normal_body m k triangle_normals = Some triangle_normals'
    ∧ triangle_normals_inv m (S k) triangle_normals'.
Proof.
  intros Hvalid Hk [Hlen Hinv]. unfold triangle_normal_body.
  destruct (triangles_ m !! k) as [[[a b] c]|] eqn:Ht;
    [|apply lookup_ge_None in Ht; exfalso; exact (proj1 (Nat.lt_nge _ _) Hk Ht)].
  simpl.
  pose proof (proj1 (Forall_lookup _ _) Hvalid _ _ Ht) as (Ha & Hb & Hc).
  destruct (lookup_lt_is_Some_2 _ _ Ha) as [p0 Hp0].
  destruct (lookup_lt_is_Some_2 _ _ Hb) as [p1 Hp1].
  destruct (lookup_lt_is_Some_2 _ _ Hc) as [p2 Hp2].
  rewrite Hp0, Hp1, Hp2. simpl. unfold store.
  rewrite bool_decide_true by lia. eexists. split; [done|].
  split; [by rewrite length_insert|].
  intros i a' b' c' q0 q1 q2 Hi Ht' Hq0 Hq1 Hq2.
  destruct (decide (i = k)) as [->|Hne].
  - rewrite list_lookup_insert_eq by lia. simplify_eq. done.
  - rewrite list_lookup_insert_ne by done. eapply Hinv; [lia|done..].
Qed.

Lemma ComputeTriangleNormals_spec m :
  valid_mesh m →
  ∃ triangle_normals,
    ComputeTriangleNormals NormalizeNormals uninitialised false m
    = Some (mkMesh (vertices_ m) (vertex_normals_ m) (vertex_colors_ m)
              (triangles_ m) triangle_normals (adjacency_list_ m))
    ∧ triangle_normals_inv m (length (triangles_ m)) triangle_normals.
Proof.
  intros Hvalid. unfold ComputeTriangleNormals.
  destruct (for_loop_invariant (triangle_normals_inv m) (length (triangles_ m))
              (triangle_normal_body m)
              (resize (length (triangles_ m)) uninitialised (triangle_normals_ m)))
    as (tn & -> & Hinv).
  - split; [by rewrite length_resize|]. intros; lia.
  - intros k tn Hk Hinv. by apply triangle_normal_step.
  - by exists tn.
Qed.


Lemma vsum_app l l' : vsum (l ++ l') = vadd (vsum l) (vsum l').
Proof.
  induction l as [|x l IH]; simpl.
  - unfold vsum at 2. simpl. by rewrite vadd_comm, vadd_zero_r.
  - unfold vsum in *. simpl. by rewrite IH, vadd_assoc.
Qed.

(** The normals that the corners of the triangles add to vertex [j]. *)
Definition incident (j : nat) (t : Vector3i) (n : Vector3d) : list Vector3d :=
  let '(a, b, c) := t in
  (if decide (a = j) then [n] else [])
  ++ (if decide (b = j) then [n] else [])
  ++ (if decide (c = j) then [n] else []).

Definition corner_normals (ts : list Vector3i) (tn : list Vector3d) (j : nat)
  : list Vector3d :=
  concat (zip_with (incident j) ts tn).

Lemma add_normal_spec a n vertex_normals :
  a < length vertex_normals →
  ∃ vertex_normals',
    add_normal a n vertex_normals = Some vertex_normals'
    ∧ length vertex_normals' = length vertex_normals
    ∧ ∀ j x, vertex_normals !! j = Some x →
        vertex_normals' !! j
        = Some (vadd x (vsum (if decide (a = j) then [n] else []))).
Proof.
  intros Ha. unfold add_normal.
  destruct (lookup_lt_is_Some_2 _ _ Ha) as [x Hx]. rewrite Hx. simpl.
  eexists. split; [done|]. split; [by rewrite length_insert|].
  intros j y Hy. destruct (decide (a = j)) as [->|Hne].
  - rewrite list_lookup_insert_eq by done. simplify_eq.
    unfold vsum. simpl. by rewrite vadd_zero_r.
  - rewrite list_lookup_insert_ne by done. rewrite Hy.
    unfold vsum. simpl. by rewrite vadd_zero_r.
Qed.

Definition vertex_normals_inv (m : TriangleMesh) (old : list Vector3d) (k : nat)
    (vertex_normals : list Vector3d) : Prop :=
  length vertex_normals = length (vertices_ m)
  ∧ ∀ j, j < length (vertices_ m) →
      vertex_normals !! j
      = Some (vadd (default vzero (old !! j))
                (vsum (corner_normals (take k (triangles_ m))
                         (take k (triangle_normals_ m)) j))).

Lemma vertex_normal_step m old k vertex_normals :
  valid_mesh m → length (triangle_normals_ m) = length (triangles_ m) →
  k < length (triangles_ m) →
  vertex_normals_inv m old k vertex_normals →
  ∃ vertex_normals',
    vertex_normal_body m k vertex_normals = Some vertex_normals'
    ∧ vertex_normals_inv m old (S k) vertex_normals'.
Proof.
  intros Hvalid Hlen Hk [Hl Hinv]. unfold vertex_normal_body.
  destruct (triangles_ m !! k) as [[[a b] c]|] eqn:Ht;
    [|apply lookup_ge_None in Ht; exfalso; exact (proj1 (Nat.lt_nge _ _) Hk Ht)].
  simpl.
  pose proof (proj1 (Forall_lookup _ _) Hvalid _ _ Ht) as (Ha & Hb & Hc).
  destruct (lookup_lt_is_Some_2 (triangle_normals_ m) k) as [n Hn];
    [by rewrite Hlen|].
  rewrite Hn. simpl.
  destruct (add_normal_spec a n vertex_normals) as (v1 & -> & Hl1 & H1); [lia|].
  simpl.
  destruct (add_normal_spec b n v1) as (v2 & -> & Hl2 & H2); [lia|]. simpl.
  destruct (add_normal_spec c n v2) as (v3 & -> & Hl3 & H3); [lia|].
  exists v3. split; [done|]. split; [lia|]. intros j Hj.
  rewrite (H3 j _ (H2 j _ (H1 j _ (Hinv j Hj)))). f_equal.
  rewrite (take_S_r (A:=Vector3i) _ _ _ Ht), (take_S_r _ _ _ Hn).
  unfold corner_normals. rewrite zip_with_app; [|by rewrite !length_take, Hlen].
  rewrite concat_app, vsum_app. simpl. rewrite app_nil_r.
  rewrite !vsum_app, !vadd_assoc. done.
Qed.

(** X10.  [ComputeTriangleNormals( false )] on a mesh whose triangle ids are
    vertex ids replaces the triangle normals and nothing else, whatever they
    held before: there is one normal for every triangle, it is orthogonal to
    the three edges of its triangle, and it is the zero vector when two
    corners of the triangle have the same position, as they have when a weld
    has put them into one cluster. *)
Theorem ComputeTriangleNormals_orthogonal (m : TriangleMesh) :
  valid_mesh m →
  ∃ triangle_normals,
    ComputeTriangleNormals NormalizeNormals uninitialised false m
    = Some (mkMesh (vertices_ m) (vertex_normals_ m) (vertex_colors_ m)
              (triangles_ m) triangle_normals (adjacency_list_ m))
    ∧ length triangle_normals = length (triangles_ m)
    ∧ ∀ i a b c, triangles_ m !! i = Some (a, b, c) →
        ∃ p0 p1 p2 n,
          vertices_ m !! a = Some p0 ∧ vertices_ m !! b = Some p1
          ∧ vertices_ m !! c = Some p2 ∧ triangle_normals !! i = Some n
          ∧ dot n (vsub p1 p0) = 0%Qc ∧ dot n (vsub p2 p0) = 0%Qc
          ∧ dot n (vsub p2 p1) = 0%Qc
          ∧ (p0 = p1 ∨ p0 = p2 ∨ p1 = p2 → n = vzero).
Proof.
  intros Hvalid.
  destruct (ComputeTriangleNormals_spec m Hvalid) as (tn & Hrun & Hlen & Hinv).
  exists tn. split; [done|]. split; [done|]. intros i a b c Ht.
  pose proof (proj1 (Forall_lookup _ _) Hvalid _ _ Ht) as (Ha & Hb & Hc).
  destruct (lookup_lt_is_Some_2 _ _ Ha) as [p0 Hp0].
  destruct (lookup_lt_is_Some_2 _ _ Hb) as [p1 Hp1].
  destruct (lookup_lt_is_Some_2 _ _ Hc) as [p2 Hp2].
  exists p0, p1, p2, (cross (vsub p1 p0) (vsub p2 p0)).
  split; [done|]. split; [done|]. split; [done|]. split.
  { eapply Hinv; [|done..]. by eapply lookup_lt_Some. }
  destruct (cross_orthogonal p0 p1 p2) as (? & ? & ?).
  split; [done|]. split; [done|]. split; [done|]. apply cross_degenerate.
Qed.

(** X11.  [ComputeVertexNormals( false )] on a mesh whose triangle ids are
    vertex ids recomputes the triangle normals and adds them onto the vertex
    normals that the mesh has: the list is cut or filled with zeros to the
    vertex count, and vertex [j] ends with what it held plus the normal of
    every triangle corner that names [j].  The old normals are not cleared. *)
Theorem ComputeVertexNormals_accumulates (m : TriangleMesh) :
  valid_mesh m →
  ∃ triangle_normals vertex_normals,
    ComputeTriangleNormals NormalizeNormals uninitialised false m
    = Some (mkMesh (vertices_ m) (vertex_normals_ m) (vertex_colors_ m)
              (triangles_ m) triangle_normals (adjacency_list_ m))
    ∧ ComputeVertexNormals NormalizeNormals uninitialised false m
      = Some (mkMesh (vertices_ m) vertex_normals (vertex_colors_ m)
                (triangles_ m) triangle_normals (adjacency_list_ m))
    ∧ length vertex_normals = length (vertices_ m)
    ∧ ∀ j, j < length (vertices_ m) →
        vertex_normals !! j
        = Some (vadd (default vzero (vertex_normals_ m !! j))
                  (vsum (corner_normals (triangles_ m) triangle_normals j))).
Proof.
  intros Hvalid.
  destruct (ComputeTriangleNormals_spec m Hvalid) as (tn & Hrun & Hlen & _).
  exists tn. unfold ComputeVertexNormals. rewrite Hrun. simpl.
  set (m1 := mkMesh (vertices_ m) (vertex_normals_ m) (vertex_colors_ m)
               (triangles_ m) tn (adjacency_list_ m)).
  destruct (for_loop_invariant (vertex_normals_inv m1 (vertex_normals_ m))
              (length (triangles_ m)) (vertex_normal_body m1)
              (resize (length (vertices_ m)) vzero (vertex_normals_ m)))
    as (vn & -> & Hl & Hinv).
  - split; [by rewrite length_resize|]. intros j Hj. simpl in *.
    unfold corner_normals. simpl. unfold vsum. simpl. rewrite vadd_zero_r.
    destruct (decide (j < length (vertex_normals_ m))) as [Hlt|Hge].
    + rewrite lookup_resize by done.
      destruct (lookup_lt_is_Some_2 _ _ Hlt) as [x ->]. done.
    + rewrite lookup_resize_new by lia. by rewrite lookup_ge_None_2 by lia.
  - intros k vn Hk Hinv. by apply vertex_normal_step.
  - exists vn. split; [done|]. split; [done|]. split; [done|].
    intros j Hj. rewrite (Hinv j Hj). simpl.
    rewrite <- Hlen at 2. by rewrite !firstn_all.
Qed.

End NormalFacts.

Lemma ComputeTriangleNormals_orthogonal_witness :
  ∃ triangle_normals,
    ComputeTriangleNormals (λ m, m) (point 7 7 7) false kite
    = Some (mkMesh (vertices_ kite) (vertex_normals_ kite) (vertex_colors_ kite)
              (triangles_ kite) triangle_normals (adjacency_list_ kite))
    ∧ length triangle_normals = length (triangles_ kite)
    ∧ ∀ i a b c, triangles_ kite !! i = Some (a, b, c) →
        ∃ p0 p1 p2 n,
          vertices_ kite !! a = Some p0 ∧ vertices_ kite !! b = Some p1
          ∧ vertices_ kite !! c = Some p2 ∧ triangle_normals !! i = Some n
          ∧ dot n (vsub p1 p0) = 0%Qc ∧ dot n (vsub p2 p0) = 0%Qc
          ∧ dot n (vsub p2 p1) = 0%Qc
          ∧ (p0 = p1 ∨ p0 = p2 ∨ p1 = p2 → n = vzero).
Proof.
  apply (ComputeTriangleNormals_orthogonal (λ m, m) (point 7 7 7) kite).
  exact valid_kite.
Defined.

Lemma valid_dressed_pair : valid_mesh dressed_pair.
Proof. repeat constructor. Qed.

Lemma ComputeVertexNormals_accumulates_witness :
  ∃ triangle_normals vertex_normals,
    ComputeTriangleNormals (λ m, m) (point 7 7 7) false dressed_pair
    = Some (mkMesh (vertices_ dressed_pair) (vertex_normals_ dressed_pair)
              (vertex_colors_ dressed_pair) (triangles_ dressed_pair)
              triangle_normals (adjacency_list_ dressed_pair))
    ∧ ComputeVertexNormals (λ m, m) (point 7 7 7) false dressed_pair
      = Some (mkMesh (vertices_ dressed_pair) vertex_normals
                (vertex_colors_ dressed_pair) (triangles_ dressed_pair)
                triangle_normals (adjacency_list_ dressed_pair))
    ∧ length vertex_normals = length (vertices_ dressed_pair)
    ∧ ∀ j, j < length (vertices_ dressed_pair) →
        vertex_normals !! j
        = Some (vadd (default vzero (vertex_normals_ dressed_pair !! j))
                  (vsum (corner_normals (triangles_ dressed_pair)
                           triangle_normals j))).
Proof.
  apply (ComputeVertexNormals_accumulates (λ m, m) (point 7 7 7) dressed_pair).
  exact valid_dressed_pair.
Defined.

(** ** How far a weld moves a vertex *)

Section BallFacts.
Local Open Scope Qc_scope.

Lemma Qc_square_nonneg (a : Qc) : 0 <= a * a.
Proof. qc_to_q. nra. Qed.

Lemma dist2_nonneg a b : 0 <= dist2 a b.
Proof.
  unfold dist2.
  repeat apply Qcplus_nonneg_nonneg; apply Qc_square_nonneg.
Qed.

(** A point between two points of a ball is in the ball. *)
Lemma dist2_convex c a b t r :
  0 <= t → t <= 1 → dist2 c a <= r → dist2 c b <= r →
  dist2 c (vadd (vscale t a) (vscale (1 - t) b)) <= r.
Proof.
  intros Ht0 Ht1 Ha Hb.
  assert (dist2 c (vadd (vscale t a) (vscale (1 - t) b))
          = t * dist2 c a + (1 - t) * dist2 c b - t * (1 - t) * dist2 a b) as ->.
  { destruct a, b, c. unfold dist2, vadd, vscale. simpl. ring. }
  assert (0 <= 1 - t) as Ht2 by (qc_to_q; lra).
  pose proof (Qcmult_le_mono_nonneg_l _ _ t Ht0 Ha) as H1.
  pose proof (Qcmult_le_mono_nonneg_l _ _ (1 - t) Ht2 Hb) as H2.
  pose proof (Qcmult_nonneg_nonneg _ _ (Qcmult_nonneg_nonneg _ _ Ht0 Ht2)
                (dist2_nonneg a b)) as H3.
  enough (t * dist2 c a + (1 - t) * dist2 c b - t * (1 - t) * dist2 a b
          <= t * r + (1 - t) * r) as Hgoal.
  { replace (t * r + (1 - t) * r) with r in Hgoal by ring. done. }
  set (A := t * dist2 c a) in *. set (A' := t * r) in *.
  set (B := (1 - t) * dist2 c b) in *. set (B' := (1 - t) * r) in *.
  set (C := t * (1 - t) * dist2 a b) in *.
  clearbody A A' B B' C. clear -H1 H2 H3. qc_to_q. lra.
Qed.

Lemma vmean_cons x l :
  l ≠ [] →
  vmean (x :: l)
  = vadd (vscale (/ cnt (S (length l))) x)
         (vscale (1 - / cnt (S (length l))) (vmean l)).
Proof.
  intros Hl. unfold vmean. simpl.
  change (foldr vadd vzero l) with (vsum l).
  assert (cnt (length l) ≠ 0) as Hn.
  { destruct l; [done|]. simpl. rewrite cnt_S. apply cnt_succ_neq_0. }
  pose proof (cnt_succ_neq_0 (length l)) as Hn'. rewrite cnt_S.
  destruct (vsum l), x. unfold vdiv, vadd, vscale; simpl. f_equal; field; done.
Qed.

(** The mean of points of a ball is in the ball. *)
Lemma dist2_vmean c l r :
  l ≠ [] → (∀ x, x ∈ l → dist2 c x <= r) → dist2 c (vmean l) <= r.
Proof.
  induction l as [|x l IH]; [done|]. intros _ Hall.
  destruct l as [|y l].
  { rewrite vmean_singleton. apply Hall. by left. }
  rewrite vmean_cons by done.
  assert (0 < cnt (S (length (y :: l)))) as Hpos.
  { rewrite cnt_S. apply Qcplus_nonneg_pos; [apply cnt_nonneg|done]. }
  apply dist2_convex.
  - by apply Qclt_le_weak, Qcinv_pos.
  - apply (Qcmult_le_mono_pos_r _ _ (cnt (S (length (y :: l))))); [done|].
    rewrite Qcmult_1_l, Qcmult_comm, Qcmult_inv_r.
    + rewrite cnt_S. rewrite <- (Qcplus_0_l 1) at 1.
      apply Qcplus_le_compat; [apply cnt_nonneg|apply Qcle_refl].
    + intros H0. rewrite H0 in Hpos. by apply Qclt_not_eq in Hpos.
  - apply Hall. by left.
  - apply IH; [done|]. intros z Hz. apply Hall. by right.
Qed.

(** Two points of a ball of radius [r] are at most [2 r] apart. *)
Lemma dist2_diameter c p q r :
  dist2 c p <= r → dist2 c q <= r → dist2 p q <= Q2Qc 4 * r.
Proof.
  intros Hp Hq.
  assert (dist2 p q + dist2 (vadd c c) (vadd p q)
          = dist2 c p + dist2 c p + (dist2 c q + dist2 c q)) as Hid.
  { destruct c, p, q. unfold dist2, vadd. simpl. ring. }
  pose proof (dist2_nonneg (vadd c c) (vadd p q)) as Hnn.
  set (A := dist2 p q) in *. set (B := dist2 (vadd c c) (vadd p q)) in *.
  set (C := dist2 c p) in *. set (D := dist2 c q) in *.
  clearbody A B C D. clear -Hp Hq Hid Hnn.
  assert (this A + this B == this C + this C + (this D + this D))%Q as Hid'.
  { apply (f_equal this) in Hid. unfold Qcplus, Q2Qc in Hid. simpl in Hid.
    rewrite <- (Qred_correct (this A + this B)), Hid.
    rewrite !Qred_correct. reflexivity. }
  clear Hid. qc_to_q. lra.
Qed.

End BallFacts.

(** In a greedy parent array every vertex is within [eps] of its centroid. *)
Lemma member_near_centroid vertices eps cp j c pc x :
  (0 <= eps)%Qc →
  greedy_parents (init_bigger vertices vertices eps) (length vertices) cp →
  cp !! j = Some c → vertices !! c = Some pc → vertices !! j = Some x →
  (dist2 pc x <= eps * eps)%Qc.
Proof.
  intros He Hg Hj Hc Hx. destruct (decide (c = j)) as [->|Hne].
  - simplify_eq. rewrite dist2_refl. by apply Qcmult_nonneg_nonneg.
  - destruct (gp_parent _ _ _ Hg _ _ Hj Hne) as (_ & Hin & _).
    apply bigger_of_init in Hin as [_ Hnear]. unfold near in Hnear.
    rewrite Hc, Hx in Hnear. unfold KDTree.within in Hnear.
    apply andb_true_iff in Hnear as [_ Hd]. by apply Qc_leb_le.
Qed.

(** X12.  A weld with the index of the mesh and a radius [eps >= 0] moves no
    vertex by more than [2 eps]: every vertex lies within [eps] of the old
    position of the centroid of its cluster, the new vertex of the cluster
    lies within [eps] of that position as well, and so the vertex and the
    new vertex that replaces it are at most [2 eps] apart (distances
    compared by their squares). *)
Theorem forward_displacement_bound (m : TriangleMesh) (eps : Qc)
    (sched : list event) (m' : TriangleMesh) (pid2ccid : list nat) :
  valid_mesh m → (0 <= eps)%Qc →
  merge_vertices_forward_run m (KDTreeFlann m) eps sched = Some (m', pid2ccid) →
  ∀ i p, vertices_ m !! i = Some p →
    ∃ k q c pc,
      pid2ccid !! i = Some k ∧ vertices_ m' !! k = Some q
      ∧ c ≤ i ∧ pid2ccid !! c = Some k ∧ vertices_ m !! c = Some pc
      ∧ (dist2 pc p <= eps * eps)%Qc
      ∧ (dist2 pc q <= eps * eps)%Qc
      ∧ (dist2 p q <= Q2Qc 4 * (eps * eps))%Qc.
Proof.
  intros Hvalid He Hrun i p Hp.
  destruct (forward_run_inv _ _ _ _ _ Hrun) as (s & Hexec & Hterm).
  change (KDTreeFlann m) with (vertices_ m) in Hexec.
  destruct (forward_run_spec m eps sched s Hvalid He Hexec Hterm)
    as (Hg & m0 & pid0 & Hrun0 & Hlen & Hpid & Hpos & _).
  rewrite Hrun in Hrun0. injection Hrun0 as <- <-.
  pose proof (gp_len _ _ _ Hg) as Hlc.
  pose proof (lookup_lt_Some _ _ _ Hp) as Hi.
  destruct (lookup_lt_is_Some_2 (cp_vec s) i) as [c Hc]; [lia|].
  pose proof (greedy_parents_depth _ _ _ _ _ Hg Hc) as Hcc.
  assert (c ≤ i) as Hle.
  { destruct (decide (c = i)) as [->|Hne]; [done|].
    destruct (gp_parent _ _ _ Hg _ _ Hc Hne) as (? & _). lia. }
  destruct (lookup_lt_is_Some_2 (vertices_ m) c) as [pc Hpc]; [lia|].
  set (l := positions (vertices_ m)
              (members_below (cp_vec s) (length (vertices_ m)) c)).
  assert (dist2 pc p <= eps * eps)%Qc as H1
    by exact (member_near_centroid _ _ _ _ _ _ _ He Hg Hc Hpc Hp).
  assert (dist2 pc (vmean l) <= eps * eps)%Qc as H2.
  { apply dist2_vmean.
    - intros Hnil. assert (pc ∈ l) as Hin; [|by rewrite Hnil in Hin; apply elem_of_nil in Hin].
      apply elem_of_positions. exists c. split; [|done].
      apply members_below_pid. split; [lia|done].
    - intros x (j & [_ Hj]%members_below_pid & Hx)%elem_of_positions.
      exact (member_near_centroid _ _ _ _ _ _ _ He Hg Hj Hpc Hx). }
  exists (length (centroids_below (cp_vec s) c)), (vmean l), c, pc.
  split; [by apply Hpid|]. split; [by apply Hpos|]. split; [done|].
  split; [by apply Hpid|]. split; [done|]. split; [done|]. split; [done|].
  by apply (dist2_diameter pc).
Qed.

Lemma forward_displacement_bound_witness :
  let sched := one_thread_forward kite (Q2Qc 1) 100 in
  ∃ m' pid2ccid,
    merge_vertices_forward_run kite (KDTreeFlann kite) (Q2Qc 1) sched
    = Some (m', pid2ccid)
    ∧ ∀ i p, vertices_ kite !! i = Some p →
        ∃ k q c pc,
          pid2ccid !! i = Some k ∧ vertices_ m' !! k = Some q
          ∧ c ≤ i ∧ pid2ccid !! c = Some k ∧ vertices_ kite !! c = Some pc
          ∧ (dist2 pc p <= Q2Qc 1 * Q2Qc 1)%Qc
          ∧ (dist2 pc q <= Q2Qc 1 * Q2Qc 1)%Qc
          ∧ (dist2 p q <= Q2Qc 4 * (Q2Qc 1 * Q2Qc 1))%Qc.
Proof.
  intros sched. eexists _, _. split; [vm_compute; reflexivity|].
  apply (forward_displacement_bound kite (Q2Qc 1) sched).
  - exact valid_kite.
  - vm_compute. discriminate.
  - vm_compute. reflexivity.
Defined.

(** ** The centroids of a weld *)

(** X13.  When the wave loop of either welder has been left (index of the
    mesh, radius [eps >= 0], any interleaving), no two centroids are within
    [eps] of each other: the squared distance of two different vertices
    with [cp_vec[c] = c] exceeds [eps * eps]. *)
Theorem centroids_pairwise_apart (version : variant) (thread_of : nat → nat)
    (num_threads : nat) (vertices : list Vector3d) (eps : Qc)
    (sched : list event) (s : state) :
  (0 <= eps)%Qc →
  exec version (init_bigger vertices vertices eps) thread_of sched
    (init_state vertices vertices eps num_threads) = Some s →
  terminal s = true →
  ∀ c c' pc pc', c ≠ c' →
    cp_vec s !! c = Some c → cp_vec s !! c' = Some c' →
    vertices !! c = Some pc → vertices !! c' = Some pc' →
    (eps * eps < dist2 pc pc')%Qc.
Proof.
  intros He Hexec Hterm.
  pose proof (index_contract_init vertices eps He) as Hic.
  pose proof (weld_wave_inv _ _ _ _ _ _ _ He Hexec) as Hw.
  pose proof (terminal_greedy _ _ _ Hw (contract_ranges _ _ _ Hic) Hterm) as Hg.
  assert (∀ c c' pc pc', c < c' →
            cp_vec s !! c = Some c → cp_vec s !! c' = Some c' →
            vertices !! c = Some pc → vertices !! c' = Some pc' →
            (eps * eps < dist2 pc pc')%Qc) as Hlt.
  { intros c c' pc pc' Hcc' Hc Hc' Hpc Hpc'.
    apply Qcnot_le_lt. intros Hd.
    assert (c' ∈ bigger_of (init_bigger vertices vertices eps) c) as Hin.
    { apply bigger_of_init. split; [done|]. unfold near. rewrite Hpc, Hpc'.
      unfold KDTree.within. apply andb_true_iff. split; by apply Qc_leb_le. }
    destruct (gp_least _ _ _ Hg _ _ Hc Hin) as (c0 & Hc0 & Hle).
    simplify_eq. lia. }
  intros c c' pc pc' Hne Hc Hc' Hpc Hpc'.
  destruct (Nat.lt_total c c') as [?|[?|?]]; [by eapply Hlt|done|].
  assert (dist2 pc pc' = dist2 pc' pc) as -> by (unfold dist2; ring).
  by eapply Hlt.
Qed.

Lemma centroids_pairwise_apart_witness :
  let s := final_state Forward (λ _, 0) 0 kite (Q2Qc 1)
             (one_thread_forward kite (Q2Qc 1) 100) in
  cp_vec s = [0; 1; 1; 1]
  ∧ ∀ c c' pc pc', c ≠ c' →
      cp_vec s !! c = Some c → cp_vec s !! c' = Some c' →
      vertices_ kite !! c = Some pc → vertices_ kite !! c' = Some pc' →
      (Q2Qc 1 * Q2Qc 1 < dist2 pc pc')%Qc.
Proof.
  intros s. split; [vm_compute; reflexivity|].
  apply (centroids_pairwise_apart Forward (λ _, 0) 0 (vertices_ kite) (Q2Qc 1)
           (one_thread_forward kite (Q2Qc 1) 100) s).
  - vm_compute. discriminate.
  - vm_compute. reflexivity.
  - vm_compute. reflexivity.
Defined.

(** ** The asynchronous welder does not depend on the interleaving *)

Lemma async_run_inv thread_of num_threads m kdtree eps sched r :
  merge_vertices_forward_async_run thread_of num_threads m kdtree eps sched
  = Some r →
  ∃ s, exec ForwardAsync (init_bigger kdtree (vertices_ m) eps) thread_of sched
         (init_state kdtree (vertices_ m) eps num_threads) = Some s
       ∧ terminal s = true
       ∧ finish_forward_async thread_of num_threads m s = Some r.
Proof.
  unfold merge_vertices_forward_async_run. intros Hrun.
  destruct (exec _ _ _ _ _) as [s|]; simpl in Hrun; [|done].
  destruct (terminal s) eqn:Ht; [|done]. by exists s.
Qed.

(** Different numbers below [K], [K] of them: all numbers below [K]. *)
Lemma NoDup_below_all (l : list nat) K k :
  NoDup l → (∀ x, x ∈ l → x < K) → length l = K → k < K → k ∈ l.
Proof.
  intros Hnd Hlt Hlen Hk.
  assert (l ⊆+ seq 0 K) as Hsub.
  { apply NoDup_submseteq; [done|]. intros x Hx. apply elem_of_seq.
    specialize (Hlt x Hx). lia. }
  apply submseteq_length_Permutation in Hsub; [|by rewrite length_seq, Hlen].
  rewrite Hsub. apply elem_of_seq. lia.
Qed.


(** A second single-threaded schedule: the iterations of a wave in
    descending order. *)
Definition next_event_descending (s : state) : option event :=
  match first_unfinished 0 (reverse (pcs s)) with
  | Some i => Some (Iter (length (pcs s) - 1 - i))
  | None => if should_continue s then Some NextWave else None
  end.

Fixpoint descending_schedule (version : variant) (bigger : list (list nat))
    (thread_of : nat → nat) (fuel : nat) (s : state) : list event :=
  match fuel with
  | 0 => []
  | S fuel' =>
      match next_event_descending s with
      | Some e =>
          match step version bigger thread_of e s with
          | Some s' => e :: descending_schedule version bigger thread_of fuel' s'
          | None => []
          end
      | None => []
      end
  end.


(** ** The number of waves *)

Lemma filter_length_mono {A : Type} (P Q : A → Prop)
    `{!∀ x, Decision (P x)} `{!∀ x, Decision (Q x)} (l : list A) :
  (∀ x, x ∈ l → P x → Q x) → length (filter P l) ≤ length (filter Q l).
Proof.
  induction l as [|x l IH]; intros Himp; [done|].
  rewrite !filter_cons.
  assert (length (filter P l) ≤ length (filter Q l)) as IH'.
  { apply IH. intros y Hy. apply Himp. by right. }
  destruct (decide (P x)) as [HP|HP].
  - rewrite decide_True by (apply Himp; [by left|done]). simpl. lia.
  - destruct (decide (Q x)); simpl; lia.
Qed.

Lemma filter_length_strict {A : Type} (P Q : A → Prop)
    `{!∀ x, Decision (P x)} `{!∀ x, Decision (Q x)} (l : list A) (a : A) :
  (∀ x, x ∈ l → P x → Q x) → a ∈ l → ¬ P a → Q a →
  length (filter P l) < length (filter Q l).
Proof.
  induction l as [|x l IH]; intros Himp Ha HnP HQ; [by apply elem_of_nil in Ha|].
  rewrite !filter_cons.
  assert (length (filter P l) ≤ length (filter Q l)) as Hle.
  { apply filter_length_mono. intros y Hy. apply Himp. by right. }
  apply elem_of_cons in Ha as [<-|Ha].
  - rewrite decide_False, decide_True by done. simpl. lia.
  - assert (length (filter P l) < length (filter Q l)) as Hlt.
    { apply IH; [|done..]. intros y Hy. apply Himp. by right. }
    destruct (decide (P x)) as [HP|HP].
    + rewrite decide_True by (apply Himp; [by left|done]). simpl. lia.
    + destruct (decide (Q x)); simpl; lia.
Qed.

Section WaveCount.

Variable version : variant.
Variable pid2nnBigger : list (list nat).
Variable thread_of : nat → nat.
Variable N : nat.

(** Vertex [i] has emitted in an earlier wave. *)
Definition done_before (s : state) (i : nat) : bool :=
  match pcs s !! i, remainingSmallerFinalsVec s !! i with
  | Some p, Some r => negb (activated p) && (r <? 0)%Z
  | _, _ => false
  end.

Definition done_count (s : state) : nat :=
  length (filter (λ i, done_before s i = true) (seq 0 N)).

Lemma done_count_le s : done_count s ≤ N.
Proof.
  unfold done_count. etrans; [apply length_filter|]. by rewrite length_seq.
Qed.

Lemma done_before_step_iter i s s' k :
  basic_inv s → step_iter version pid2nnBigger thread_of i s = Some s' →
  done_before s k = true → done_before s' k = true.
Proof.
  intros Hb Hstep. unfold done_before.
  destruct (pcs s !! k) as [p|] eqn:Hp; [|done].
  destruct (remainingSmallerFinalsVec s !! k) as [r|] eqn:Hr; [|done].
  intros [Hact Hneg%Z.ltb_lt]%andb_true_iff.
  destruct (rem_step version pid2nnBigger thread_of (Iter i) s s' k r Hb Hstep Hr)
    as (r' & -> & Hr').
  assert (r' < 0)%Z as Hneg' by lia.
  destruct (decide (k = i)) as [->|Hne].
  - pose proof (lookup_lt_Some _ _ _ Hp) as Hi.
    step_iter_cases Hstep; unfold_sets; simplify_eq;
      rewrite ?list_lookup_insert_eq by done; try done.
    all: repeat case_match; bool_facts; simpl; try lia.
    all: apply Z.ltb_lt; lia.
  - rewrite (step_iter_other _ _ _ _ _ _ _ Hstep Hne), Hp, Hact. simpl.
    by apply Z.ltb_lt.
Qed.

Lemma done_count_wave s s' :
  basic_inv s → length (pcs s) = N → step_wave s = Some s' →
  numIterations s' = S (numIterations s)
  ∧ done_count s ≤ done_count s'
  ∧ (numIterations s ≠ 0 → done_count s < done_count s').
Proof.
  intros Hb Hlen Hwave. unfold step_wave in Hwave.
  destruct (forallb finished (pcs s) && should_continue s) eqn:Hc; [|done].
  injection Hwave as <-. apply andb_true_iff in Hc as [Hfin Hflag].
  rewrite forallb_forall in Hfin. split; [done|].
  assert (∀ k, k ∈ seq 0 N → done_before s k = true →
            done_before (begin_wave s) k = true) as Hmono.
  { intros k _. unfold done_before. simpl.
    destruct (pcs s !! k) as [p|] eqn:Hp; [|done].
    destruct (remainingSmallerFinalsVec s !! k) as [r|]; [|done].
    rewrite lookup_replicate_2 by by eapply lookup_lt_Some.
    by intros [_ ->]%andb_true_iff. }
  split; [by apply filter_length_mono|]. intros Hit.
  destruct (bi_flag _ Hb Hflag) as [?|(i & p & Hp & Hact)]; [done|].
  pose proof (lookup_lt_Some _ _ _ Hp) as Hi.
  destruct (lookup_lt_is_Some_2 (remainingSmallerFinalsVec s) i) as [r Hr].
  { by rewrite (bi_len_rem _ Hb), <- (bi_len_pcs _ Hb). }
  assert (finished p = true) as Hf.
  { apply Hfin. apply list_elem_of_In, list_elem_of_lookup. eauto. }
  assert (emitted p = true) as He by (by destruct p as [| | | | | |? [|]| | | | |]).
  pose proof (bi_emitted _ Hb _ _ _ Hp He Hr) as Hneg.
  apply (filter_length_strict _ _ _ i); [done|apply elem_of_seq; lia| |].
  - unfold done_before. rewrite Hp, Hr, Hact. done.
  - unfold done_before. simpl. rewrite lookup_replicate_2, Hr by done. simpl.
    by apply Z.ltb_lt.
Qed.

Definition wave_count_inv (s : state) : Prop :=
  basic_inv s ∧ length (pcs s) = N ∧ numIterations s ≤ done_count s + 1.

Lemma wave_count_inv_step e s s' :
  wave_count_inv s → step version pid2nnBigger thread_of e s = Some s' →
  wave_count_inv s'.
Proof.
  intros (Hb & Hlen & Hle) Hstep.
  split; [by eapply basic_inv_step|]. destruct e as [i|]; simpl in Hstep.
  - destruct (step_iter_lengths _ _ _ _ _ _ Hstep) as (_ & _ & -> & _ & ->).
    split; [done|].
    assert (done_count s ≤ done_count s'); [|lia].
    apply filter_length_mono. intros k _.
    by apply (done_before_step_iter i).
  - destruct (done_count_wave _ _ Hb Hlen Hstep) as (-> & Hmono & Hstrict).
    split.
    + unfold step_wave in Hstep. case_match; [|done]. simplify_eq. simpl.
      by rewrite length_replicate.
    + destruct (decide (numIterations s = 0)) as [->|Hne]; [lia|].
      specialize (Hstrict Hne). lia.
Qed.

End WaveCount.

(** X15.  The wave loop of either welder runs at most one wave more than the
    mesh has vertices, for every index, every radius and every
    interleaving: [numIterations] never exceeds [numVertices + 1], because
    the flag is only raised in a wave in which a vertex emits; and it is at
    least 1 when the loop is left. *)
Theorem wave_count_bound (version : variant) (kdtree vertices : list Vector3d)
    (eps : Qc) (thread_of : nat → nat) (num_threads : nat)
    (sched : list event) (s : state) :
  exec version (init_bigger kdtree vertices eps) thread_of sched
    (init_state kdtree vertices eps num_threads) = Some s →
  numIterations s ≤ length vertices + 1
  ∧ (terminal s = true → 1 ≤ numIterations s).
Proof.
  intros Hexec. split.
  - enough (wave_count_inv (length vertices) s) as (_ & _ & Hle).
    { pose proof (done_count_le (length vertices) s). lia. }
    revert sched s Hexec. apply exec_invariant.
    + split; [apply basic_inv_init|]. simpl.
      split; [by rewrite length_replicate|lia].
    + intros e s s'. apply wave_count_inv_step.
  - intros Hterm. destruct (decide (numIterations s = 0)) as [H0|]; [|lia].
    assert (s = init_state kdtree vertices eps num_threads) as ->.
    { eapply before_first_wave; [| |done|done]; [done|].
      simpl. apply forallb_forall. intros p Hp%list_elem_of_In.
      by apply elem_of_replicate in Hp as [-> _]. }
    unfold terminal in Hterm. simpl in Hterm. by rewrite andb_false_r in Hterm.
Qed.

Lemma wave_count_bound_witness :
  let s := final_state Forward (λ _, 0) 0 collinear3 (Q2Qc 1)
             (one_thread_forward collinear3 (Q2Qc 1) 100) in
  numIterations s = 2
  ∧ numIterations s ≤ length (vertices_ collinear3) + 1
  ∧ (terminal s = true → 1 ≤ numIterations s).
Proof.
  intros s. split; [vm_compute; reflexivity|].
  apply (wave_count_bound Forward (KDTreeFlann collinear3) (vertices_ collinear3)
           (Q2Qc 1) (λ _, 0) 0 (one_thread_forward collinear3 (Q2Qc 1) 100) s).
  vm_compute. reflexivity.
Defined.

(** ** The three versions of the driver *)



(** ** Triangle ids that are not vertex ids *)

Lemma rewrite_triangles_defined (f : nat → option nat) n (ts ts' : list Vector3i) :
  (∀ t, is_Some (f t) → t < n) →
  mapM (rewrite_triangle f) ts = Some ts' →
  Forall (valid_triangle n) ts.
Proof.
  intros Hf. revert ts'. induction ts as [|[[a b] c] ts IH]; intros ts' H.
  - constructor.
  - simpl in H.
    destruct (f a) as [a'|] eqn:Ha; simpl in H; [|done].
    destruct (f b) as [b'|] eqn:Hb; simpl in H; [|done].
    destruct (f c) as [c'|] eqn:Hc; simpl in H; [|done].
    destruct (mapM (rewrite_triangle f) ts) as [l|] eqn:Hl; simpl in H; [|done].
    constructor; [|by eapply IH].
    repeat split; apply Hf; by eexists.
Qed.

Lemma forward_defined_valid m kdtree eps sched :
  is_Some (merge_vertices_forward m kdtree eps sched) → valid_mesh m.
Proof.
  intros [m0 Hm]. unfold merge_vertices_forward in Hm.
  destruct (merge_vertices_forward_run m kdtree eps sched) as [[m' pid]|] eqn:Hrun;
    [|done].
  destruct (forward_run_inv _ _ _ _ _ Hrun) as (s & Hexec & Hterm).
  unfold merge_vertices_forward_run in Hrun. rewrite Hexec in Hrun.
  simpl in Hrun. rewrite Hterm in Hrun.
  destruct (basic_inv_reachable _ _ _ _ _ _ _ _ Hexec) as [Hb Hlen].
  destruct (finish_forward_inv _ _ _ _ Hlen (bi_parent _ Hb) Hrun)
    as (st & Hri & -> & _ & Hts & _).
  eapply rewrite_triangles_defined; [|done].
  intros t [k Hk]. rewrite <- (ri_len_pid _ _ _ _ _ Hri).
  by eapply lookup_lt_Some.
Qed.

Lemma forward_async_defined_valid thread_of num_threads m kdtree eps sched :
  is_Some (merge_vertices_forward_async thread_of num_threads m kdtree eps sched) →
  valid_mesh m.
Proof.
  intros [m0 Hm]. unfold merge_vertices_forward_async in Hm.
  destruct (merge_vertices_forward_async_run thread_of num_threads m kdtree eps
              sched) as [[m' pid]|] eqn:Hrun; [|done].
  destruct (async_run_inv _ _ _ _ _ _ _ Hrun) as (s & Hexec & Hterm & Hfin).
  destruct (basic_inv_reachable _ _ _ _ _ _ _ _ Hexec) as [Hb Hlen].
  unfold finish_forward_async in Hfin.
  destruct (exclusive_scan _ !! _) as [K|]; simpl in Hfin; [|done].
  destruct (for_loop _ _ _) as [a|]; simpl in Hfin; [|done].
  destruct (for_loop _ _ _) as [[new mem]|]; simpl in Hfin; [|done].
  destruct (mapM _ _) as [ts|] eqn:Hts; simpl in Hfin; [|done].
  eapply rewrite_triangles_defined; [|done].
  intros t [k Hk]. rewrite <- Hlen.
  destruct (cp_vec s !! t) as [c|] eqn:Hc; [|done]. by eapply lookup_lt_Some.
Qed.

(** X17.  Both parallel welders read [pid2ccid] (the asynchronous one
    [cp_vec] as well) at every triangle id, for every index and every
    radius.  After a complete run of its wave loop [merge_vertices_forward]
    returns a mesh exactly when every triangle id is below the vertex count;
    with one id that is not, the read is out of bounds.  The asynchronous
    welder returns a mesh only under the same condition. *)
Theorem welders_need_valid_ids (m : TriangleMesh) (kdtree : list Vector3d)
    (eps : Qc) (thread_of : nat → nat) (num_threads : nat)
    (sched sched' : list event) (s : state) :
  exec Forward (init_bigger kdtree (vertices_ m) eps) (λ _, 0) sched
    (init_state kdtree (vertices_ m) eps 0) = Some s →
  terminal s = true →
  (is_Some (merge_vertices_forward m kdtree eps sched) ↔ valid_mesh m)
  ∧ (is_Some (merge_vertices_forward_async thread_of num_threads m kdtree eps
                sched') → valid_mesh m).
Proof.
  intros Hexec Hterm. split; [split|].
  - apply forward_defined_valid.
  - intros Hvalid.
    destruct (forward_run_count m kdtree eps sched s Hvalid Hexec Hterm)
      as (m' & -> & _). done.
  - apply forward_async_defined_valid.
Qed.

Definition stray_triangle : TriangleMesh :=
  bare_mesh [point 0 0 0; point 1 0 0] [(0, 1, 5)].

Lemma welders_need_valid_ids_witness :
  let m := stray_triangle in
  let sched := one_thread_forward m (Q2Qc 1) 100 in
  let sched' := one_thread_async m (Q2Qc 1) 100 in
  merge_vertices_forward m (KDTreeFlann m) (Q2Qc 1) sched = None
  ∧ (is_Some (merge_vertices_forward m (KDTreeFlann m) (Q2Qc 1) sched)
     ↔ valid_mesh m)
  ∧ (is_Some (merge_vertices_forward_async (λ _, 0) 1 m (KDTreeFlann m) (Q2Qc 1)
                sched') → valid_mesh m).
Proof.
  intros m sched sched'. split; [vm_compute; reflexivity|].
  apply (welders_need_valid_ids m (KDTreeFlann m) (Q2Qc 1) (λ _, 0) 1 sched sched'
           (final_state Forward (λ _, 0) 0 m (Q2Qc 1) sched)).
  - vm_compute. reflexivity.
  - vm_compute. reflexivity.
Defined.

(** X18.  The sequential [MergeCloseVertices] returns on every mesh, valid
    triangle ids or not (index of the mesh, radius [eps >= 0]): a triangle id
    that is not below the vertex count is not a key of [new_vert_mapping],
    so [operator[]] yields 0 for it.  When the mesh has a vertex, every
    triangle id of the result is a vertex id of the result. *)
Theorem MergeCloseVertices_total (m : TriangleMesh) (eps : Qc) :
  (0 <= eps)%Qc →
  ∃ m', MergeCloseVertices m (KDTreeFlann m) eps = Some m'
        ∧ length (triangles_ m') = length (triangles_ m)
        ∧ (vertices_ m ≠ [] → valid_mesh m')
        ∧ ∀ i a b c, triangles_ m !! i = Some (a, b, c) →
            ∃ a' b' c', triangles_ m' !! i = Some (a', b', c')
                        ∧ (length (vertices_ m) ≤ a → a' = 0)
                        ∧ (length (vertices_ m) ≤ b → b' = 0)
                        ∧ (length (vertices_ m) ≤ c → c' = 0).
Proof.
  intros He.
  destruct (forward_complete_run (vertices_ m) eps) as (sched & s & Hexec & Hterm).
  pose proof (index_contract_init (vertices_ m) eps He) as Hic.
  pose proof (weld_wave_inv _ _ _ _ _ _ _ He Hexec) as Hw.
  pose proof (terminal_greedy _ _ _ Hw (contract_ranges _ _ _ Hic) Hterm) as Hg.
  destruct (SearchRadius_lists_ok (vertices_ m) eps) as [Hlen Hnbs].
  destruct (merge_loop (vertices_ m) eps _ (cp_vec s) Hg Hlen Hnbs)
    as (st & Hloop & [Hl Hmap Hout Hnew]).
  pose proof (gp_len _ _ _ Hg) as Hlc.
  unfold MergeCloseVertices, MergeCloseVertices_from, KDTreeFlann.
  rewrite Hloop. simpl. eexists. split; [done|]. simpl.
  split; [by rewrite length_fmap|]. split.
  - intros Hne. unfold valid_mesh. simpl.
    assert (∀ t, default 0 (mc_new_vert_mapping st !! t)
                 < length (mc_new_vertices st)) as Hid.
    { intros t. rewrite Hl.
      assert (0 < rank (cp_vec s) (length (vertices_ m))) as Hpos.
      { unfold rank. destruct (vertices_ m) as [|v vs] eqn:Hvs; [done|].
        simpl in *.
        destruct (lookup_lt_is_Some_2 (cp_vec s) 0) as [c Hc]; [lia|].
        pose proof (greedy_parent_le _ _ _ Hg _ _ Hc).
        assert (c = 0) as -> by lia.
        assert (0 ∈ centroids_below (cp_vec s) (S (length vs))) as Hin.
        { apply elem_of_centroids_below. split; [lia|done]. }
        destruct (centroids_below _ _); [by apply elem_of_nil in Hin|simpl; lia]. }
      destruct (decide (t < length (vertices_ m))) as [Ht|Ht].
      - destruct (lookup_lt_is_Some_2 (cp_vec s) t) as [c Hc]; [lia|].
        pose proof (greedy_parent_le _ _ _ Hg _ _ Hc) as Hle.
        rewrite (Hmap _ _ Hc), decide_True by lia. simpl.
        pose proof (greedy_parents_depth _ _ _ _ _ Hg Hc) as Hcc.
        unfold rank. eapply lookup_lt_Some.
        apply centroids_below_rank; [lia|done].
      - rewrite Hout by lia. done. }
    apply Forall_fmap, Forall_forall. intros [[a b] c] _. simpl.
    split; [apply Hid|]. split; apply Hid.
  - intros i a b c Ht. rewrite list_lookup_fmap.
    unfold Vector3i in *. rewrite Ht. simpl.
    eexists _, _, _. split; [done|].
    split; [|split]; intros Hge; by rewrite Hout.
Qed.

Lemma MergeCloseVertices_total_witness :
  ∃ m', MergeCloseVertices stray_triangle (KDTreeFlann stray_triangle) (Q2Qc 1)
        = Some m'
        ∧ length (triangles_ m') = length (triangles_ stray_triangle)
        ∧ (vertices_ stray_triangle ≠ [] → valid_mesh m')
        ∧ ∀ i a b c, triangles_ stray_triangle !! i = Some (a, b, c) →
            ∃ a' b' c', triangles_ m' !! i = Some (a', b', c')
                        ∧ (length (vertices_ stray_triangle) ≤ a → a' = 0)
                        ∧ (length (vertices_ stray_triangle) ≤ b → b' = 0)
                        ∧ (length (vertices_ stray_triangle) ≤ c → c' = 0).
Proof.
  apply (MergeCloseVertices_total stray_triangle (Q2Qc 1)).
  vm_compute. discriminate.
Defined.
